(** * Protein sequence feature utilities

    A shallow embedding of [deepchem/utils/protein_sequence_feature_utils.py]
    and the properties of the alignment-to-profile pipeline.

    Numbers.  A NumPy float is modelled by [npfloat]: an exact rational, or
    one of the IEEE-754 special values.  Arithmetic on finite values is exact
    (rounding, overflow and the sign of zero are abstracted away); division
    by zero and the propagation of infinities and NaN follow IEEE-754, which
    is what NumPy array arithmetic does (it warns and carries on).

    Rounding.  Where a property is about the last bit of a result, the
    lines concerned are embedded a second time, in the module [Float64], over
    IEEE-754 binary64 (the primitive floats), which is the arithmetic of
    NumPy's float64.

    Arrays.  A one-dimensional array is a list, a two-dimensional array the
    list of its rows, and so on.  An array of shape (M, 1) is represented by
    the list of its M entries. *)

From Stdlib Require Import PrimFloat.
From Stdlib Require Import String Ascii ZArith QArith Qabs Bool Arith List Lia Lqa.
Import ListNotations.

Set Implicit Arguments.

(** ** NumPy floats *)

Module Np.

Inductive npfloat : Type :=
| Finite (q : Q)
| PosInf
| NegInf
| NaN.

Definition of_Z (z : Z) : npfloat := Finite (inject_Z z).
Definition of_nat (n : nat) : npfloat := of_Z (Z.of_nat n).

(** [True * w] is [w] and [False * w] is [0 * w]: a boolean array enters
    arithmetic as 0 and 1. *)
Definition of_bool (b : bool) : npfloat := if b then Finite 1 else Finite 0.

Definition neg (x : npfloat) : npfloat :=
  match x with
  | Finite q => Finite (- q)
  | PosInf => NegInf
  | NegInf => PosInf
  | NaN => NaN
  end.

Definition add (x y : npfloat) : npfloat :=
  match x, y with
  | NaN, _ | _, NaN => NaN
  | Finite a, Finite b => Finite (a + b)
  | PosInf, NegInf | NegInf, PosInf => NaN
  | PosInf, _ | _, PosInf => PosInf
  | NegInf, _ | _, NegInf => NegInf
  end.

Definition sub (x y : npfloat) : npfloat := add x (neg y).

(** The infinity with the sign of [q], NaN when [q] is zero. *)
Definition signed_inf (q : Q) (pos : npfloat) (opp : npfloat) : npfloat :=
  match q ?= 0 with
  | Gt => pos
  | Lt => opp
  | Eq => NaN
  end.

Definition mul (x y : npfloat) : npfloat :=
  match x, y with
  | NaN, _ | _, NaN => NaN
  | Finite a, Finite b => Finite (a * b)
  | Finite a, PosInf | PosInf, Finite a => signed_inf a PosInf NegInf
  | Finite a, NegInf | NegInf, Finite a => signed_inf a NegInf PosInf
  | PosInf, PosInf | NegInf, NegInf => PosInf
  | PosInf, NegInf | NegInf, PosInf => NegInf
  end.

(** [x / 0] is an infinity with the sign of [x], and [0 / 0] is NaN. *)
Definition div (x y : npfloat) : npfloat :=
  match x, y with
  | NaN, _ | _, NaN => NaN
  | Finite a, Finite b =>
      if Qeq_bool b 0 then signed_inf a PosInf NegInf else Finite (a / b)
  | Finite _, PosInf | Finite _, NegInf => Finite 0
  | PosInf, Finite b => if Qle_bool 0 b then PosInf else NegInf
  | NegInf, Finite b => if Qle_bool 0 b then NegInf else PosInf
  | _, _ => NaN
  end.

(** Comparisons are false as soon as an operand is NaN. *)
Definition ltb (x y : npfloat) : bool :=
  match x, y with
  | NaN, _ | _, NaN => false
  | Finite a, Finite b => negb (Qle_bool b a)
  | PosInf, _ | _, NegInf => false
  | NegInf, _ | _, PosInf => true
  end.

Definition gtb (x y : npfloat) : bool := ltb y x.

(** [np.sum] of a one-dimensional array. *)
Definition sum (l : list npfloat) : npfloat := fold_right add (Finite 0) l.

Definition is_finite (x : npfloat) : Prop :=
  match x with Finite _ => True | _ => False end.

Definition is_nan (x : npfloat) : Prop :=
  match x with NaN => True | _ => False end.

(** The rational carried by a finite value. *)
Definition val (x : npfloat) : Q :=
  match x with Finite q => q | _ => 0 end.

(** Equality of floats up to the representation of the rational. *)
Definition eq (x y : npfloat) : Prop :=
  match x, y with
  | Finite a, Finite b => a == b
  | PosInf, PosInf | NegInf, NegInf | NaN, NaN => True
  | _, _ => False
  end.

(** [x] is a finite number within [tol] of [target]. *)
Definition close (x : npfloat) (target tol : Q) : Prop :=
  match x with
  | Finite q => Qabs (q - target) <= tol
  | _ => False
  end.

End Np.

Abbreviation npfloat := Np.npfloat.
Abbreviation Finite := Np.Finite.
Abbreviation PosInf := Np.PosInf.
Abbreviation NegInf := Np.NegInf.
Abbreviation NaN := Np.NaN.


(** ** Exceptions *)

Inductive exn : Type := AssertionError | ValueError | KeyError | IndexError.

Inductive result (A : Type) : Type :=
| Ok (a : A)
| Raise (e : exn).

Arguments Ok {A} a.
Arguments Raise {A} e.

Definition bind {A B : Type} (r : result A) (k : A -> result B) : result B :=
  match r with
  | Ok a => k a
  | Raise e => Raise e
  end.

Notation "x <- c ;; k" := (bind c (fun x => k))
  (at level 61, c at next level, right associativity).

(** A list comprehension whose body can raise: the first exception wins. *)
Fixpoint mapM {A B : Type} (f : A -> result B) (l : list A) : result (list B) :=
  match l with
  | [] => Ok []
  | x :: rest =>
      y <- f x ;;
      ys <- mapM f rest ;;
      Ok (y :: ys)
  end.

(** ** Characters and dictionaries *)

Definition between (lo hi n : N) : bool := (N.leb lo n && N.leb n hi)%bool.

(** [str.isalpha] and [str.islower] on one character, for the code points
    below 256. *)
Definition isalpha (c : ascii) : bool :=
  let n := N_of_ascii c in
  (between 65 90 n || between 97 122 n
   || N.eqb n 170 || N.eqb n 181 || N.eqb n 186
   || between 192 214 n || between 216 246 n || between 248 255 n)%bool.

Definition islower (c : ascii) : bool :=
  let n := N_of_ascii c in
  (between 97 122 n
   || N.eqb n 170 || N.eqb n 181 || N.eqb n 186
   || between 223 246 n || between 248 255 n)%bool.

Definition chars (s : string) : list ascii := list_ascii_of_string s.

Definition gap_char : ascii := "-"%char.
Definition unknown_char : ascii := "X"%char.

(** A [dict] keyed by characters, in insertion order. *)
Definition dict (V : Type) : Type := list (ascii * V).

Fixpoint dict_get {V : Type} (d : dict V) (k : ascii) : option V :=
  match d with
  | [] => None
  | (k', v) :: rest => if Ascii.eqb k k' then Some v else dict_get rest k
  end.

(** [d[k]], raising [KeyError] on a missing key. *)
Definition dict_item {V : Type} (d : dict V) (k : ascii) : result V :=
  match dict_get d k with
  | Some v => Ok v
  | None => Raise KeyError
  end.

(** [sorted(d.keys(), key=lambda x: d[x])]: a stable sort of the keys by
    their value.  Each key, in the order of the dictionary, goes behind the
    keys of the same value that are already placed. *)
Fixpoint insert_by_value (kv : ascii * Z) (l : list (ascii * Z)) : list (ascii * Z) :=
  match l with
  | [] => [kv]
  | kv' :: rest =>
      if (snd kv <? snd kv')%Z then kv :: l
      else kv' :: insert_by_value kv rest
  end.

Definition sorted_keys (d : dict Z) : list ascii :=
  map fst (fold_left (fun placed kv => insert_by_value kv placed) d []).

(** ** Array helpers *)

(** [a.shape[1]] of a two-dimensional array. *)
Definition shape1 {A : Type} (m : list (list A)) : nat :=
  match m with
  | [] => 0
  | row :: _ => length row
  end.

Definition rectangular {A : Type} (n : nat) (m : list (list A)) : Prop :=
  Forall (fun row => length row = n) m.

Fixpoint map2 {A B C : Type} (f : A -> B -> C) (l1 : list A) (l2 : list B) : list C :=
  match l1, l2 with
  | x :: r1, y :: r2 => f x y :: map2 f r1 r2
  | _, _ => []
  end.

(** [map] with the position of each element. *)
Fixpoint mapi_from {A B : Type} (i : nat) (f : nat -> A -> B) (l : list A) : list B :=
  match l with
  | [] => []
  | x :: rest => f i x :: mapi_from (S i) f rest
  end.

Definition mapi {A B : Type} (f : nat -> A -> B) (l : list A) : list B :=
  mapi_from 0 f l.

(** [a[:, c]] *)
Definition column {A : Type} (d : A) (c : nat) (m : list (list A)) : list A :=
  map (fun row => nth c row d) m.

(** [a.sum(0)] of an array with [n] columns. *)
Definition sum_axis0 (n : nat) (m : list (list npfloat)) : list npfloat :=
  map (fun c => Np.sum (column (Finite 0) c m)) (seq 0 n).

(** [a.sum(1)] *)
Definition sum_axis1 (m : list (list npfloat)) : list npfloat := map Np.sum m.

(** The array whose column [i] is [cols i], for [i] below [k]: the result
    of assigning [out[:, i] = cols i] in turn to an array of [n] rows. *)
Definition from_columns {A : Type} (d : A) (n k : nat) (cols : nat -> list A)
  : list (list A) :=
  map (fun c => map (fun i => nth c (cols i) d) (seq 0 k)) (seq 0 n).

(** [a[i] = v] on a one-dimensional array, with NumPy's negative indices. *)
Fixpoint replace_nth {A : Type} (n : nat) (v : A) (l : list A) : list A :=
  match l, n with
  | [], _ => []
  | _ :: rest, O => v :: rest
  | x :: rest, S n' => x :: replace_nth n' v rest
  end.

Definition setitem {A : Type} (l : list A) (idx : Z) (v : A) : result (list A) :=
  let n := Z.of_nat (length l) in
  if ((0 <=? idx) && (idx <? n))%Z%bool then Ok (replace_nth (Z.to_nat idx) v l)
  else if ((- n <=? idx) && (idx <? 0))%Z%bool then
    Ok (replace_nth (Z.to_nat (idx + n)) v l)
  else Raise IndexError.

(** An elementwise binary operation on one-dimensional arrays, with NumPy's
    broadcasting of a length-one operand.  Shapes that do not broadcast
    raise [ValueError] (NumPy releases before 1.25 only warned when the
    operation was [==]). *)
Definition broadcast2 {A B C : Type} (f : A -> B -> C) (l1 : list A) (l2 : list B)
  : result (list C) :=
  if Nat.eqb (length l1) (length l2) then Ok (map2 f l1 l2)
  else match l1, l2 with
       | [x], _ => Ok (map (f x) l2)
       | _, [y] => Ok (map (fun x => f x y) l1)
       | _, _ => Raise ValueError
       end.

Definition Zsum (l : list Z) : Z := fold_right Z.add 0%Z l.

Definition count_true (l : list bool) : nat := length (filter (fun b => b) l).

(** [np.array(rows).astype(int)] on a list of integer lists: the rows must
    have one length. *)
Definition np_array_int (rows : list (list Z)) : result (list (list Z)) :=
  if forallb (fun row => Nat.eqb (length row) (shape1 rows)) rows then Ok rows
  else Raise ValueError.

(** Elementwise operation on two arrays of one shape. *)
Definition mat_map2 {A B C : Type} (f : A -> B -> C)
  (m1 : list (list A)) (m2 : list (list B)) : list (list C) :=
  map2 (map2 f) m1 m2.

(** [u.reshape((-1, 1)) op v.reshape((1, -1))] *)
Definition outer {A B C : Type} (f : A -> B -> C) (u : list A) (v : list B)
  : list (list C) :=
  map (fun x => map (f x) v) u.

(** [np.matmul] of a row vector with a matrix of [n] columns. *)
Definition vecmat (n : nat) (x : list npfloat) (q : list (list npfloat)) : list npfloat :=
  sum_axis0 n (map2 (fun xa row => map (Np.mul xa) row) x q).

(** [t.sum(0)] of a three-dimensional array with trailing shape [(n1, n2)]. *)
Definition sum_axis0_planes (n1 n2 : nat) (t : list (list (list npfloat)))
  : list (list npfloat) :=
  map (fun a =>
         map (fun b => Np.sum (map (fun pl => nth b (nth a pl []) (Finite 0)) t))
             (seq 0 n2))
      (seq 0 n1).

(** ** The program *)

Section Program.

(** The lookup tables of [deepchem.utils.amino_acid_utils]: the alphabet
    (a [dict] from one-letter codes to indices), the background frequency of
    each code, the substitution scores [BLOSUM62[a, b]] and the contact
    potentials [ContactPotential[a, b]]. *)
Variable AminoAcid : dict Z.
Variable AminoAcidFreq : ascii -> Q.
Variable BLOSUM62 : nat -> nat -> Z.
Variable ContactPotential : nat -> nat -> Q.

(** The exponential and the natural logarithm of the C library, on finite
    arguments (positive ones for [log]). *)
Variable exp : Q -> Q.
Variable log : Q -> Q.

Definition np_exp (x : npfloat) : npfloat :=
  match x with
  | Finite q => Finite (exp q)
  | PosInf => PosInf
  | NegInf => Finite 0
  | NaN => NaN
  end.

Definition np_log (x : npfloat) : npfloat :=
  match x with
  | Finite q =>
      match q ?= 0 with
      | Gt => Finite (log q)
      | Eq => NegInf
      | Lt => NaN
      end
  | PosInf => PosInf
  | _ => NaN
  end.

Definition amino_acid_to_numeric (s : ascii) : result Z :=
  match dict_get AminoAcid s with
  | Some i => Ok i
  | None => dict_item AminoAcid unknown_char
  end.

Definition sequence_identity (s1 s2 : list Z) : result Z :=
  same <- broadcast2 Z.eqb s1 s2 ;;
  gap <- dict_item AminoAcid gap_char ;;
  both <- broadcast2 andb same (map (fun x => negb (Z.eqb x gap)) s1) ;;
  Ok (Z.of_nat (count_true both)).

(** [ident < seq_len * 0.01] *)
Definition below_one_percent (ident : Z) (seq_len : nat) : bool :=
  negb (Qle_bool (inject_Z (Z.of_nat seq_len) * 0.01) (inject_Z ident)).

(** The loop of [read_a3m_as_mat] over the rows of the alignment. *)
Fixpoint collect_rows (sequence_array : list Z) (clean : bool) (a3m_seqs : list string)
  : result (list (list Z)) :=
  match a3m_seqs with
  | [] => Ok []
  | seq :: rest =>
      seq_arr <- mapM amino_acid_to_numeric
                   (filter (fun s => negb (islower s)) (chars seq)) ;;
      skip <- (if clean then
                 ident <- sequence_identity sequence_array seq_arr ;;
                 Ok (below_one_percent ident (length sequence_array))
               else Ok false) ;;
      seq_mat <- collect_rows sequence_array clean rest ;;
      Ok (if skip then seq_mat else seq_arr :: seq_mat)
  end.

Definition read_a3m_as_mat (sequence : string) (a3m_seq_IDs a3m_seqs : list string)
  (clean : bool) : result (list (list Z)) :=
  first <- match a3m_seqs with
           | [] => Raise IndexError
           | s :: _ => Ok s
           end ;;
  if negb (String.eqb sequence first) then Raise AssertionError
  else
    sequence_array <- mapM amino_acid_to_numeric (chars sequence) ;;
    seq_mat <- collect_rows sequence_array clean a3m_seqs ;;
    np_array_int seq_mat.

Definition sequence_one_hot_encoding (sequence : string) : result (list (list npfloat)) :=
  if existsb (fun s => negb (Ascii.eqb s gap_char) && negb (isalpha s)) (chars sequence)
  then Raise ValueError
  else
    mapM (fun s =>
            idx <- amino_acid_to_numeric s ;;
            setitem (repeat (Finite 0) (length AminoAcid)) idx (Finite 1))
         (chars sequence).

(** [scipy.spatial.distance.hamming]: the fraction of differing positions. *)
Definition hamming (u v : list Z) : npfloat :=
  Np.div (Np.of_nat (count_true (map2 (fun a b => negb (Z.eqb a b)) u v)))
         (Np.of_nat (length u)).

(** [pdist(X, 'hamming')]: the distances of the pairs [i < j], row by row. *)
Fixpoint pdist (X : list (list Z)) : list npfloat :=
  match X with
  | [] => []
  | x :: rest => map (hamming x) rest ++ pdist rest
  end.

(** The rows of the strict upper triangle of a [d] by [d] matrix, read off
    a condensed vector. *)
Fixpoint upper_rows {A : Type} (d : nat) (v : list A) : list (list A) :=
  match d with
  | O => []
  | S d' => firstn d' v :: upper_rows d' (skipn d' v)
  end.

(** [scipy.spatial.distance.squareform] of a condensed vector. *)
Definition squareform (v : list bool) : result (list (list bool)) :=
  match v with
  | [] => Ok [[false]]
  | _ =>
      let d := Z.to_nat (Z.sqrt_up (2 * Z.of_nat (length v))) in
      if Nat.eqb (d * (d - 1)) (2 * length v) then
        let U := upper_rows d v in
        Ok (map (fun i =>
                   map (fun j =>
                          if i <? j then nth (j - i - 1) (nth i U []) false
                          else if j <? i then nth (i - j - 1) (nth j U []) false
                          else false)
                       (seq 0 d))
                (seq 0 d))
      else Raise ValueError
  end.

Definition sequence_weights (seq_mat : list (list Z)) : result (list npfloat) :=
  let n_align := length seq_mat in
  dist_mat <- squareform (map (fun d => Np.ltb d (Finite 0.38)) (pdist seq_mat)) ;;
  let weights :=
    map (fun c => (1 + Z.of_nat (count_true (column false c dist_mat)))%Z)
        (seq 0 (shape1 dist_mat)) in
  if Nat.eqb (length weights) n_align
  then Ok (map (fun w => Np.div (Finite 1) (Np.of_Z w)) weights)
  else Raise ValueError.

(** [prof_ct / prof_ct.sum(1, keepdims=True)] *)
Definition normalize_rows (prof_ct : list (list npfloat)) : list (list npfloat) :=
  map2 (fun row total => map (fun x => Np.div x total) row) prof_ct (sum_axis1 prof_ct).

(** The count array of [sequence_profile] before normalization. *)
Definition weighted_counts (seq_mat : list (list Z)) (weights : list npfloat)
  : list (list npfloat) :=
  let n := shape1 seq_mat in
  from_columns (Finite 0) n 22
    (fun i =>
       sum_axis0 n
         (map2 (fun row w =>
                  map (fun x => Np.mul (Np.of_bool (Z.eqb x (Z.of_nat i))) w) row)
               seq_mat weights)).

(** [weights], or [np.ones((seq_mat.shape[0], 1))] when it is [None]. *)
Definition weights_or_ones (seq_mat : list (list Z)) (weights : option (list npfloat))
  : list npfloat :=
  match weights with
  | None => repeat (Finite 1) (length seq_mat)
  | Some w => w
  end.

Definition sequence_profile (seq_mat : list (list Z)) (weights : option (list npfloat))
  : list (list npfloat) :=
  normalize_rows (weighted_counts seq_mat (weights_or_ones seq_mat weights)).

(** The count array of [sequence_profile_no_gap] before normalization. *)
Definition plain_counts (seq_mat : list (list Z)) : list (list npfloat) :=
  let n := shape1 seq_mat in
  from_columns (Finite 0) n 21
    (fun i =>
       map (fun c =>
              Np.of_nat
                (count_true
                   (column false c (map (map (fun x => Z.eqb x (Z.of_nat i))) seq_mat))))
           (seq 0 n)).

Definition sequence_profile_no_gap (seq_mat : list (list Z))
  (weights : option (list npfloat)) : list (list npfloat) :=
  normalize_rows (plain_counts seq_mat).

Definition beta : Z := 10.

(** [P_i]: the background frequencies in index order, cut to [r] symbols
    and normalized. *)
Definition background (r : nat) : list npfloat :=
  let P_i := firstn r (map AminoAcidFreq (sorted_keys AminoAcid)) in
  map (fun p => Np.div (Finite p) (Np.sum (map Finite P_i))) P_i.

Definition q_mat (r : nat) : list (list npfloat) :=
  let P_i := background r in
  let substitution_mat := map (fun a => map (BLOSUM62 a) (seq 0 r)) (seq 0 r) in
  mat_map2 Np.mul (outer Np.mul P_i P_i)
    (map (map (fun s => np_exp (Np.mul (Finite 0.3176) (Np.of_Z s)))) substitution_mat).

(** The estimate [g_i] of the loop of [sequence_profile_with_prior]:
    [(f_i / P_i) . q_mat], divided by its sum. *)
Definition prior_estimate (r : nat) (f_i : list npfloat) : list npfloat :=
  let g_i := vecmat r (map2 Np.div f_i (background r)) (q_mat r) in
  map (fun x => Np.div x (Np.sum g_i)) g_i.

(** [alpha = NC - 1], where [NC] counts the positive entries of [f_i]. *)
Definition pseudocount (f_i : list npfloat) : Z :=
  (Z.of_nat (count_true (map (fun x => Np.gtb x (Finite 0)) f_i)) - 1)%Z.

(** The body of the loop of [sequence_profile_with_prior] on the row [f_i]. *)
Definition with_prior_row (r : nat) (f_i : list npfloat) : list npfloat :=
  let alpha := pseudocount f_i in
  let g_i := prior_estimate r f_i in
  map2 (fun f g =>
          Np.div (Np.add (Np.mul f (Np.of_Z alpha)) (Np.mul g (Np.of_Z beta)))
                 (Np.of_Z (alpha + beta)))
       f_i g_i.

Definition sequence_profile_with_prior (prof_freq : list (list npfloat))
  : list (list npfloat) :=
  map (with_prior_row (shape1 prof_freq)) prof_freq.

Definition profile_combinatorial (seq_mat : list (list Z)) (weights : list npfloat)
  (w_prof : list (list npfloat)) : list (list (list (list npfloat))) :=
  let N := shape1 seq_mat in
  let n_res := shape1 w_prof in
  let combined :=
    map (fun row => map (fun x => map (fun y => (x * 22 + y)%Z) row) row) seq_mat in
  let counts (i j : nat) :=
    sum_axis0_planes N N
      (map2 (fun plane w =>
               map (map (fun c =>
                           Np.mul (Np.of_bool (Z.eqb c (Z.of_nat i * 22 + Z.of_nat j))) w))
                   plane)
            combined weights) in
  map (fun c1 =>
         map (fun c2 =>
                map (fun i =>
                       map (fun j =>
                              Np.div (nth c2 (nth c1 (counts i j) []) (Finite 0))
                                     (Np.sum weights))
                           (seq 0 n_res))
                    (seq 0 n_res))
             (seq 0 N))
      (seq 0 N).

(** The inner loop of [sequence_deletion_probability]: the number of
    lowercase characters in front of each other character. *)
Fixpoint deletion_vec (deletion_count : nat) (msa_sequence : list ascii) : list Z :=
  match msa_sequence with
  | [] => []
  | j :: rest =>
      if islower j then deletion_vec (S deletion_count) rest
      else Z.of_nat deletion_count :: deletion_vec 0 rest
  end.

(** [a.reshape((n, 1))] of a one-dimensional array. *)
Definition reshape_column {A : Type} (n : nat) (a : list A) : result (list A) :=
  if Nat.eqb (length a) n then Ok a else Raise ValueError.

(** On an empty alignment [np.array([])] has one axis, its sum is the
    scalar 0 and the quotient is the scalar [0 / 0]. *)
Definition sequence_deletion_probability (sequence : string) (a3m_seqs : list string)
  : result (list npfloat) :=
  match a3m_seqs with
  | [] => reshape_column (String.length sequence) [Np.div (Finite 0) (Np.of_nat 0)]
  | _ =>
      deletion_matrix <- np_array_int (map (fun s => deletion_vec 0 (chars s)) a3m_seqs) ;;
      let deletion_matrix :=
        map (map (fun x => if Z.eqb x 0 then 0%Z else 1%Z)) deletion_matrix in
      let deletion_probability :=
        map (fun c =>
               Np.div (Np.of_Z (Zsum (column 0%Z c deletion_matrix)))
                      (Np.of_nat (length deletion_matrix)))
            (seq 0 (shape1 deletion_matrix)) in
      reshape_column (String.length sequence) deletion_probability
  end.

(** [np.stack([feat] * seq_length, 0)] needs at least one copy. *)
Definition sequence_static_prop (seq_mat : list (list Z)) (weights : list npfloat)
  : result (list (list npfloat)) :=
  let num_alignments := length seq_mat in
  let seq_length := shape1 seq_mat in
  let num_effective_alignments := Np.sum weights in
  let feat :=
    [Np.of_nat seq_length; Np.of_nat num_alignments; num_effective_alignments] in
  match seq_length with
  | O => Raise ValueError
  | _ => Ok (map (fun i => Np.of_nat i :: feat) (seq 0 seq_length))
  end.

(** [np.transpose] and [np.matmul] on integer matrices. *)
Definition transpose (m : list (list Z)) : list (list Z) :=
  map (fun c => column 0%Z c m) (seq 0 (shape1 m)).

Definition matmul (a b : list (list Z)) : list (list Z) :=
  map (fun row => map (fun c => Zsum (map2 Z.mul row (column 0%Z c b)))
                      (seq 0 (shape1 b)))
      a.

Definition sequence_gap_matrix (seq_mat : list (list Z)) : result (list (list npfloat)) :=
  gap <- dict_item AminoAcid gap_char ;;
  let gaps := map (map (fun x => if Z.eqb x gap then 1%Z else 0%Z)) seq_mat in
  Ok (map (map (fun s => Np.div (Np.of_Z s) (Np.of_nat (length seq_mat))))
          (matmul (transpose gaps) gaps)).

Definition triu (mat : list (list npfloat)) : list (list npfloat) :=
  mapi (fun i => mapi (fun j x => if j <? i then Finite 0 else x)) mat.

Definition tril (mat : list (list npfloat)) : list (list npfloat) :=
  mapi (fun i => mapi (fun j x => if i <? j then Finite 0 else x)) mat.

Definition no_diag (mat : list (list npfloat)) : list (list npfloat) :=
  mat_map2 Np.sub
    (mat_map2 Np.sub (map (map (Np.mul (Finite 2))) mat) (triu mat))
    (tril mat).

(** [-p * np.log(p + 1e-7) / np.log(21)] *)
Definition entropy_term (p : npfloat) : npfloat :=
  Np.div (Np.mul (Np.neg p) (np_log (Np.add p (Finite 1e-7)))) (np_log (Finite 21)).

(** [H_1D] and [H_2D] *)
Definition entropy_1D (prof_1D : list (list npfloat)) : list npfloat :=
  map (fun row => Np.sum (map entropy_term row)) prof_1D.

Definition entropy_2D (prof_2D : list (list (list (list npfloat))))
  : list (list npfloat) :=
  map (map (fun block => Np.sum (map entropy_term (concat block)))) prof_2D.

(** [MI], after its diagonal has been taken off. *)
Definition mi_matrix (prof_1D : list (list npfloat))
  (prof_2D : list (list (list (list npfloat)))) : list (list npfloat) :=
  let H_1D := entropy_1D prof_1D in
  let H_2D := entropy_2D prof_2D in
  no_diag
    (map2 (fun h2_row h1_i =>
             map2 (fun h2 h1_j => Np.add (Np.add (Np.neg h2) h1_i) h1_j) h2_row H_1D)
          H_2D H_1D).

(** [MI_1D] and [MI_av] *)
Definition mi_row_average (n_res : nat) (MI : list (list npfloat)) : list npfloat :=
  map (fun s => Np.div s (Np.of_Z (Z.of_nat n_res - 1))) (sum_axis1 MI).

Definition mi_average (n_res : nat) (MI : list (list npfloat)) : npfloat :=
  Np.div (Np.div (Np.sum (concat MI)) (Np.of_nat n_res))
         (Np.of_Z (Z.of_nat n_res - 1)).

Definition mutual_information (prof_1D : list (list npfloat))
  (prof_2D : list (list (list (list npfloat)))) : list (list (list npfloat)) :=
  let n_res := length prof_1D in
  let H_2D := entropy_2D prof_2D in
  let MI := mi_matrix prof_1D prof_2D in
  let MIr := mat_map2 Np.div MI (map (map (fun h => Np.add h (Finite 1e-5))) H_2D) in
  let MI_1D := mi_row_average n_res MI in
  let MI_av := mi_average n_res MI in
  let APC := outer (fun a b => Np.div (Np.mul a b) MI_av) MI_1D MI_1D in
  let ASC := outer (fun a b => Np.sub (Np.add a b) MI_av) MI_1D MI_1D in
  let MIp := no_diag (mat_map2 Np.sub MI APC) in
  let MIa := no_diag (mat_map2 Np.sub MI ASC) in
  mat_map2 (fun a rest => a :: rest) MI
    (mat_map2 (fun b rest => b :: rest) MIr
       (mat_map2 (fun c d => [c; d]) MIp MIa)).

(** [prof_2D.shape[2]] *)
Definition shape2 {A : Type} (t : list (list (list (list A)))) : nat :=
  match t with
  | (block :: _) :: _ => length block
  | _ => 0
  end.

Definition mean_contact_potential (prof_2D : list (list (list (list npfloat))))
  : list (list (list npfloat)) :=
  let n_res := shape2 prof_2D in
  let cp := map (fun a => map (fun b => Finite (ContactPotential a b)) (seq 0 n_res))
                (seq 0 n_res) in
  map (map (fun block => [Np.sum (concat (mat_map2 Np.mul block cp))])) prof_2D.

End Program.

(** ** The regularizer in binary64

    The lines of [sequence_profile_with_prior] once more, with the
    operations of IEEE-754 binary64 in place of exact ones: every [*], [/]
    and [+] rounds to the nearest float.  The sums inside [sum], [matmul]
    and [ndarray.sum] are taken from left to right; the libraries may
    associate the terms of a longer row differently, which changes nothing
    where the row has two entries or all terms but one are zero. *)

Module Float64.

(** A Python [int] as a float: exact below 2^53. *)
Fixpoint of_pos (p : positive) : float :=
  match p with
  | xH => 1%float
  | xO q => (2 * of_pos q)%float
  | xI q => (2 * of_pos q + 1)%float
  end.

Definition of_Z (z : Z) : float :=
  match z with
  | Z0 => 0%float
  | Zpos p => of_pos p
  | Zneg p => (- of_pos p)%float
  end.

(** Python's [sum] of a list of floats: from the integer 0, left to right. *)
Definition py_sum (l : list float) : float := fold_left PrimFloat.add l 0%float.

(** [a.sum()] of a one-dimensional array. *)
Definition np_sum (l : list float) : float :=
  match l with
  | [] => 0%float
  | x :: rest => fold_left PrimFloat.add rest x
  end.

(** [np.matmul] of a row vector with a matrix of [n] columns. *)
Definition vecmat (n : nat) (x : list float) (q : list (list float)) : list float :=
  map (fun c => np_sum (map2 (fun xa row => (xa * nth c row 0)%float) x q)) (seq 0 n).

Section Program.

Variable AminoAcid : dict Z.
Variable AminoAcidFreq : ascii -> float.
Variable BLOSUM62 : nat -> nat -> Z.
Variable exp : float -> float.

Definition background (r : nat) : list float :=
  let P_i := firstn r (map AminoAcidFreq (sorted_keys AminoAcid)) in
  map (fun p => (p / py_sum P_i)%float) P_i.

(** The literal [0.3176] is the float [0x1.4538ef34d6a16p-2]. *)
Definition q_mat (r : nat) : list (list float) :=
  let P_i := background r in
  let substitution_mat := map (fun a => map (BLOSUM62 a) (seq 0 r)) (seq 0 r) in
  mat_map2 PrimFloat.mul (outer PrimFloat.mul P_i P_i)
    (map (map (fun s => exp (0x1.4538ef34d6a16p-2 * of_Z s)%float)) substitution_mat).

Definition prior_estimate (r : nat) (f_i : list float) : list float :=
  let g_i := vecmat r (map2 PrimFloat.div f_i (background r)) (q_mat r) in
  map (fun x => (x / np_sum g_i)%float) g_i.

Definition pseudocount (f_i : list float) : Z :=
  (Z.of_nat (count_true (map (fun x => PrimFloat.ltb 0 x) f_i)) - 1)%Z.

Definition with_prior_row (r : nat) (f_i : list float) : list float :=
  let alpha := pseudocount f_i in
  let g_i := prior_estimate r f_i in
  map2 (fun f g => ((f * of_Z alpha + g * of_Z beta) / of_Z (alpha + beta))%float)
       f_i g_i.

Definition sequence_profile_with_prior (prof_freq : list (list float))
  : list (list float) :=
  map (with_prior_row (shape1 prof_freq)) prof_freq.

End Program.

End Float64.

(** ** Concrete tables

    Modelled from the spec: the tables of [deepchem.utils.amino_acid_utils]
    are not part of the sources.  The specification describes the alphabet
    as a bijection between 22 one-letter codes (the twenty standard residues,
    the unknown code [X] and the gap [-]) and the indices 0..21, the
    background table as one frequency per code and the substitution scores
    as a symmetric integer matrix.  The tables below have that shape; the
    theorems are stated for any table and use these only to run the
    functions on concrete inputs. *)

Definition sample_alphabet : dict Z :=
  [("A"%char, 0%Z); ("C"%char, 1%Z); ("D"%char, 2%Z); ("E"%char, 3%Z);
   ("F"%char, 4%Z); ("G"%char, 5%Z); ("H"%char, 6%Z); ("I"%char, 7%Z);
   ("K"%char, 8%Z); ("L"%char, 9%Z); ("M"%char, 10%Z); ("N"%char, 11%Z);
   ("P"%char, 12%Z); ("Q"%char, 13%Z); ("R"%char, 14%Z); ("S"%char, 15%Z);
   ("T"%char, 16%Z); ("V"%char, 17%Z); ("W"%char, 18%Z); ("Y"%char, 19%Z);
   ("X"%char, 20%Z); ("-"%char, 21%Z)].

Definition sample_freq (c : ascii) : Q :=
  match dict_get sample_alphabet c with
  | Some 20%Z | Some 21%Z => 0.01
  | Some i => 0.02 + inject_Z i * 0.003
  | None => 0.01
  end.

Definition sample_scores (a b : nat) : Z :=
  if Nat.eqb a b then 4%Z else (-1)%Z.

(** Rational stand-ins for the exponential (positive everywhere) and the
    logarithm (the first term of its series in [(x - 1) / (x + 1)]). *)
Definition sample_exp (x : Q) : Q :=
  if Qle_bool 0 x then 1 + x + x * x / 2 else 1 / (1 - x + x * x / 2).

Definition sample_log (x : Q) : Q := 2 * (x - 1) / (x + 1).

(** The same tables in binary64: the floats nearest to the frequencies of
    [sample_freq] (0.02, 0.023, ... and 0.01), a substitution matrix of
    zeros, and the stand-in for the exponential, which returns [exp(0) = 1]
    at 0 as the C library does. *)
Definition sample_freq64 (c : ascii) : float :=
  match dict_get sample_alphabet c with
  | Some 20%Z | Some 21%Z | None => (1 / 100)%float
  | Some i => (Float64.of_Z (20 + 3 * i) / 1000)%float
  end.

Definition zero_scores (a b : nat) : Z := 0%Z.

Definition sample_exp64 (x : float) : float :=
  if PrimFloat.leb 0 x then (1 + x + x * x / 2)%float
  else (1 / (1 - x + x * x / 2))%float.

(** ** Vocabulary of the statements *)

Definition Qsum (l : list Q) : Q := fold_right Qplus 0 l.

(** A finite, non-negative (resp. positive) float. *)
Definition fin_nonneg (x : npfloat) : bool :=
  match x with
  | Finite q => Qle_bool 0 q
  | _ => false
  end.

Definition fin_pos (x : npfloat) : bool :=
  match x with
  | Finite q => negb (Qle_bool q 0)
  | _ => false
  end.

(** The total of a row of counts is a positive number: the row can be
    normalized. *)
Definition positive_total (row : list npfloat) : bool := fin_pos (Np.sum row).

Definition zero_total (row : list npfloat) : bool :=
  match Np.sum row with
  | Finite q => Qeq_bool q 0
  | _ => false
  end.

(** The rows of a profile add up to one, within the tolerance. *)
Definition rows_sum_to_one (prof : list (list npfloat)) : Prop :=
  Forall (fun row => Np.close (Np.sum row) 1 1e-9) prof.

(** The first [r] background frequencies exist and are positive. *)
Definition positive_background (AminoAcid : dict Z) (AminoAcidFreq : ascii -> Q)
  (r : nat) : bool :=
  let P_i := firstn r (map AminoAcidFreq (sorted_keys AminoAcid)) in
  (Nat.eqb (length P_i) r && forallb (fun p => negb (Qle_bool p 0)) P_i)%bool.

(** The row is made of numbers that add up to exactly one. *)
Definition exactly_one (row : list npfloat) : Prop :=
  exists s, Np.sum row = Finite s /\ s == 1.

(** A fully conserved row of frequencies: finite and non-negative, with
    exactly one entry that is not zero. *)
Definition conserved (f_i : list npfloat) : bool :=
  (forallb fin_nonneg f_i
   && Nat.eqb (count_true (map (fun x => negb (Qeq_bool (Np.val x) 0)) f_i)) 1)%bool.

(** The background frequency table in index order, cut to [r] symbols. *)
Definition frequency_table (AminoAcid : dict Z) (AminoAcidFreq : ascii -> Q) (r : nat)
  : list Q :=
  firstn r (map AminoAcidFreq (sorted_keys AminoAcid)).

(** The prior-informed estimate in the words of the specification, over
    the rationals: [P] is the normalized background frequency,
    [Q[a, b] = P[a] * P[b] * exp(0.3176 * S[a, b])], and
    [g = normalize((f / P) . Q)], a row vector times a matrix, divided by
    its sum. *)
Definition spec_P (freq : list Q) (a : nat) : Q := nth a freq 0 / Qsum freq.

Definition spec_Q (freq : list Q) (S : nat -> nat -> Z) (exp : Q -> Q) (a b : nat) : Q :=
  spec_P freq a * spec_P freq b * exp (0.3176 * inject_Z (S a b)).

Definition spec_g (freq : list Q) (S : nat -> nat -> Z) (exp : Q -> Q) (f : list Q)
  : list Q :=
  let R := length f in
  let v := map (fun b =>
                  Qsum (map (fun a => nth a f 0 / spec_P freq a * spec_Q freq S exp a b)
                            (seq 0 R)))
               (seq 0 R) in
  map (fun x => x / Qsum v) v.

(** The symbols of the alphabet are the indices 0..21. *)
Definition in_alphabet (x : Z) : bool := ((0 <=? x) && (x <=? 21))%Z%bool.

(** The sum of the weights of the rows that carry [a] in column [i] and
    [b] in column [j]. *)
Definition pair_weight (seq_mat : list (list Z)) (weights : list npfloat)
  (i j : nat) (a b : Z) : npfloat :=
  Np.sum (map2 (fun row w =>
                  if (Z.eqb (nth i row 0%Z) a && Z.eqb (nth j row 0%Z) b)%bool
                  then w else Finite 0)
               seq_mat weights).

(** Two rows are near-duplicates when their Hamming distance is below
    0.38. *)
Definition near_duplicate (u v : list Z) : bool := Np.ltb (hamming u v) (Finite 0.38).

(** The number of rows other than row [r] that are near-duplicates of it. *)
Definition near_duplicates (seq_mat : list (list Z)) (r : nat) : nat :=
  length (filter (fun k => negb (Nat.eqb k r)
                           && near_duplicate (nth r seq_mat []) (nth k seq_mat []))%bool
                 (seq 0 (length seq_mat))).

(** The rows of the strict upper triangle of the distance matrix, read off
    the alignment: row [i] holds the image by [f] of the distances of row
    [i] to the rows after it. *)
Fixpoint pair_rows {A : Type} (f : npfloat -> A) (X : list (list Z)) : list (list A) :=
  match X with
  | [] => []
  | x :: rest => map (fun y => f (hamming x y)) rest :: pair_rows f rest
  end.

(** A square array of side [n]. *)
Definition square {A : Type} (n : nat) (m : list (list A)) : Prop :=
  length m = n /\ rectangular n m.

Definition all_finite (m : list (list npfloat)) : Prop :=
  Forall (Forall (fun x => Np.is_finite x)) m.

(** Frequencies: finite and non-negative entries. *)
Definition frequencies_1D (prof_1D : list (list npfloat)) : Prop :=
  Forall (Forall (fun x => fin_nonneg x = true)) prof_1D.

Definition frequencies_2D (prof_2D : list (list (list (list npfloat)))) : Prop :=
  Forall (Forall (Forall (Forall (fun x => fin_nonneg x = true)))) prof_2D.

Definition fin_nonzero (x : npfloat) : bool :=
  match x with
  | Finite q => negb (Qeq_bool q 0)
  | _ => false
  end.

(** The alphabet has the unknown code [X], and its indices are positions
    of a one-hot row. *)
Definition alphabet_ok (AminoAcid : dict Z) : bool :=
  (match dict_get AminoAcid unknown_char with
   | Some _ => true
   | None => false
   end
   && forallb (fun kv => (0 <=? snd kv) && (snd kv <? Z.of_nat (length AminoAcid)))%Z
              AminoAcid)%bool.

(** A letter, or the gap character. *)
Definition valid_char (s : ascii) : bool := (Ascii.eqb s gap_char || isalpha s)%bool.

Definition valid_sequence (sequence : string) : bool := forallb valid_char (chars sequence).

(** The index of a character, for an alphabet that has the unknown code. *)
Definition numeric (AminoAcid : dict Z) (s : ascii) : Z :=
  match amino_acid_to_numeric AminoAcid s with
  | Ok i => i
  | Raise _ => 0%Z
  end.

(** A row of the alignment without its insertions, as indices. *)
Definition encode_row (AminoAcid : dict Z) (seq : string) : list Z :=
  map (numeric AminoAcid) (filter (fun s => negb (islower s)) (chars seq)).

(** The number of positions where two rows of one length agree on a
    symbol that is not the gap. *)
Definition identity_score (gap : Z) (s1 s2 : list Z) : Z :=
  Z.of_nat (count_true (map2 (fun a b => Z.eqb a b && negb (Z.eqb a gap))%bool s1 s2)).

(** The row passes the filter of [read_a3m_as_mat]. *)
Definition retained (AminoAcid : dict Z) (gap : Z) (sequence_array : list Z)
  (seq : string) : bool :=
  negb (below_one_percent
          (identity_score gap sequence_array (encode_row AminoAcid seq))
          (length sequence_array)).

(** A code that is not in the alphabet, replaced by the unknown code. *)
Definition absorb (AminoAcid : dict Z) (s : ascii) : ascii :=
  match dict_get AminoAcid s with
  | Some _ => s
  | None => unknown_char
  end.

(** * Properties *)

(** ** Lists *)

Lemma map2_length {A B C : Type} (f : A -> B -> C) (l1 : list A) (l2 : list B) :
  length (map2 f l1 l2) = Nat.min (length l1) (length l2).
Proof.
  revert l2; induction l1 as [|x r1 IH]; intros [|y r2]; simpl; auto.
Qed.

Lemma map2_nth {A B C : Type} (f : A -> B -> C) (l1 : list A) (l2 : list B)
  (i : nat) (d : C) (d1 : A) (d2 : B) :
  (i < length l1)%nat -> (i < length l2)%nat ->
  nth i (map2 f l1 l2) d = f (nth i l1 d1) (nth i l2 d2).
Proof.
  revert l2 i; induction l1 as [|x r1 IH]; intros [|y r2] [|i]; simpl; intros H1 H2;
    try lia; auto.
  apply IH; lia.
Qed.

Lemma map2_map_r {A B C D : Type} (f : A -> B -> C) (g : D -> B) (l1 : list A)
  (l2 : list D) :
  map2 f l1 (map g l2) = map2 (fun x y => f x (g y)) l1 l2.
Proof.
  revert l2; induction l1 as [|x r1 IH]; intros [|y r2]; simpl; auto.
  now rewrite IH.
Qed.

Lemma map2_diag {A C : Type} (f : A -> A -> C) (l : list A) :
  map2 f l l = map (fun x => f x x) l.
Proof. induction l as [|x r IH]; simpl; auto. now rewrite IH. Qed.

Lemma Forall_map2 {A B C : Type} (P : A -> Prop) (Q : B -> Prop) (R : C -> Prop)
  (f : A -> B -> C) (l1 : list A) (l2 : list B) :
  (forall x y, P x -> Q y -> R (f x y)) ->
  Forall P l1 -> Forall Q l2 -> Forall R (map2 f l1 l2).
Proof.
  intros Hf H1; revert l2; induction H1 as [|x r1 Hx _ IH]; intros l2 H2.
  - constructor.
  - destruct H2 as [|y r2 Hy H2]; simpl; constructor; auto.
Qed.

Lemma nth_map_seq {A : Type} (g : nat -> A) (n c : nat) (d : A) :
  (c < n)%nat -> nth c (map g (seq 0 n)) d = g c.
Proof.
  intros H. rewrite (nth_indep _ d (g 0%nat)) by (rewrite length_map, length_seq; lia).
  rewrite map_nth, seq_nth; auto.
Qed.

Lemma normalize_rows_map (m : list (list npfloat)) :
  normalize_rows m = map (fun row => map (fun x => Np.div x (Np.sum row)) row) m.
Proof.
  unfold normalize_rows, sum_axis1. rewrite map2_map_r, map2_diag. reflexivity.
Qed.

Lemma from_columns_row {A : Type} (d : A) (n k c : nat) (cols : nat -> list A) :
  (c < n)%nat ->
  nth c (from_columns d n k cols) [] = map (fun i => nth c (cols i) d) (seq 0 k).
Proof. intros H. unfold from_columns. now rewrite nth_map_seq. Qed.

Lemma from_columns_rectangular {A : Type} (d : A) (n k : nat) (cols : nat -> list A) :
  rectangular k (from_columns d n k cols).
Proof.
  unfold rectangular, from_columns. apply Forall_forall. intros row Hin.
  apply in_map_iff in Hin. destruct Hin as [c [<- _]].
  now rewrite length_map, length_seq.
Qed.

(** ** Floats *)

Lemma fin_pos_spec (x : npfloat) :
  fin_pos x = true <-> exists q, x = Finite q /\ 0 < q.
Proof.
  destruct x as [q| | |]; simpl; split; try discriminate;
    try (intros [q' [E _]]; discriminate).
  - intros H. exists q. split; auto. apply negb_true_iff in H.
    apply Qnot_le_lt. intros Hle. apply Qle_bool_iff in Hle. congruence.
  - intros [q' [E H]]. injection E as ->. apply negb_true_iff.
    destruct (Qle_bool q' 0) eqn:Hb; auto. apply Qle_bool_iff in Hb. exfalso; lra.
Qed.

Lemma fin_nonneg_spec (x : npfloat) :
  fin_nonneg x = true <-> exists q, x = Finite q /\ 0 <= q.
Proof.
  destruct x as [q| | |]; simpl; split; try discriminate;
    try (intros [q' [E _]]; discriminate).
  - intros H. exists q. split; auto. now apply Qle_bool_iff.
  - intros [q' [E H]]. injection E as ->. now apply Qle_bool_iff.
Qed.

Lemma sum_cons (x : npfloat) (l : list npfloat) :
  Np.sum (x :: l) = Np.add x (Np.sum l).
Proof. reflexivity. Qed.

Lemma add_finite_inv (x y : npfloat) (t : Q) :
  Np.add x y = Finite t -> exists a b, x = Finite a /\ y = Finite b /\ t = a + b.
Proof.
  destruct x as [a| | |], y as [b| | |]; simpl; try discriminate.
  intros E. injection E as <-. eauto.
Qed.

(** A sum is finite exactly when its terms are, and then it is their sum. *)
Lemma sum_finite_inv (l : list npfloat) (t : Q) :
  Np.sum l = Finite t ->
  Forall (fun x => Np.is_finite x) l /\ t == Qsum (map Np.val l).
Proof.
  revert t; induction l as [|x l IH]; intros t H.
  - injection H as <-. split; [constructor | reflexivity].
  - rewrite sum_cons in H. apply add_finite_inv in H.
    destruct H as [a [b [-> [Hb ->]]]]. destruct (IH b Hb) as [Hf Hq].
    split; [constructor; simpl; auto|]. simpl. now rewrite Hq.
Qed.

Lemma sum_finite (l : list npfloat) :
  Forall (fun x => Np.is_finite x) l -> Np.sum l = Finite (Qsum (map Np.val l)).
Proof.
  induction 1 as [|x l Hx _ IH]; [reflexivity|].
  rewrite sum_cons, IH. destruct x; simpl in Hx; try contradiction. reflexivity.
Qed.

Lemma div_finite (a t : Q) :
  ~ t == 0 -> Np.div (Finite a) (Finite t) = Finite (a / t).
Proof.
  intros H. simpl. destruct (Qeq_bool t 0) eqn:E; auto.
  apply Qeq_bool_iff in E. contradiction.
Qed.

Lemma Qsum_div (l : list Q) (t : Q) :
  Qsum (map (fun q => q / t) l) == Qsum l / t.
Proof.
  induction l as [|q l IH]; simpl.
  - unfold Qdiv. ring.
  - rewrite IH. unfold Qdiv. ring.
Qed.

Lemma close_of_eq (q : Q) : q == 1 -> Np.close (Finite q) 1 1e-9.
Proof.
  intros H. unfold Np.close. apply Qabs_Qle_condition.
  assert (E : 1e-9 == 1 # 1000000000) by reflexivity.
  rewrite E. split; lra.
Qed.

(** Dividing a row by its total, when that total is a non-zero number,
    yields finite entries that add up to one. *)
Lemma normalized_row (row : list npfloat) (t : Q) :
  Np.sum row = Finite t -> ~ t == 0 ->
  let out := map (fun x => Np.div x (Finite t)) row in
  out = map (fun x => Finite (Np.val x / t)) row /\
  Np.sum out = Finite (Qsum (map (fun x => Np.val x / t) row)) /\
  Qsum (map (fun x => Np.val x / t) row) == 1.
Proof.
  intros Hs Ht out. destruct (sum_finite_inv _ Hs) as [Hf Hq].
  assert (E : out = map (fun x => Finite (Np.val x / t)) row).
  { unfold out. apply map_ext_in. intros x Hin.
    rewrite Forall_forall in Hf. specialize (Hf x Hin).
    destruct x; simpl in Hf; try contradiction. now apply div_finite. }
  split; [exact E|]. split.
  - rewrite E, sum_finite.
    + rewrite map_map. reflexivity.
    + apply Forall_forall. intros y Hy. apply in_map_iff in Hy.
      destruct Hy as [x [<- _]]. exact I.
  - rewrite <- (map_map Np.val (fun q => q / t)), Qsum_div, <- Hq.
    field. exact Ht.
Qed.
Lemma normalize_rows_nth (m : list (list npfloat)) (c : nat) :
  nth c (normalize_rows m) [] =
  map (fun x => Np.div x (Np.sum (nth c m []))) (nth c m []).
Proof.
  rewrite normalize_rows_map.
  destruct (Nat.lt_ge_cases c (length m)) as [H|H].
  - rewrite (nth_indep _ [] (map (fun x => Np.div x (Np.sum [])) [])) by (now rewrite length_map).
    now rewrite (map_nth (fun row => map (fun x => Np.div x (Np.sum row)) row)).
  - rewrite !nth_overflow; auto. now rewrite length_map.
Qed.

Lemma positive_total_spec (row : list npfloat) :
  positive_total row = true <-> exists t, Np.sum row = Finite t /\ 0 < t.
Proof. apply fin_pos_spec. Qed.

Lemma zero_total_spec (row : list npfloat) :
  zero_total row = true <-> exists t, Np.sum row = Finite t /\ t == 0.
Proof.
  unfold zero_total. destruct (Np.sum row) as [q| | |]; split; try discriminate;
    try (intros [t [E _]]; discriminate).
  - intros H. exists q. split; auto. now apply Qeq_bool_iff.
  - intros [t [E H]]. injection E as ->. now apply Qeq_bool_iff.
Qed.

(** A row with a positive total normalizes to finite entries that add up
    to one. *)
Lemma normalize_positive_row (row : list npfloat) :
  positive_total row = true ->
  let out := map (fun x => Np.div x (Np.sum row)) row in
  Forall (fun x => Np.is_finite x) out /\
  exists s, Np.sum out = Finite s /\ s == 1.
Proof.
  intros H out. apply positive_total_spec in H. destruct H as [t [Hs Ht]].
  unfold out. rewrite Hs.
  destruct (normalized_row row Hs) as [E [Hsum H1]]; [lra|].
  split.
  - rewrite E. apply Forall_forall. intros y Hy. apply in_map_iff in Hy.
    destruct Hy as [x [<- _]]. exact I.
  - eexists. split; [exact Hsum | exact H1].
Qed.

Lemma normalize_rows_sum_to_one (m : list (list npfloat)) :
  forallb positive_total m = true -> rows_sum_to_one (normalize_rows m).
Proof.
  intros H. rewrite normalize_rows_map. unfold rows_sum_to_one.
  apply Forall_forall. intros out Hin. apply in_map_iff in Hin.
  destruct Hin as [row [<- Hrow]].
  rewrite forallb_forall in H. specialize (H row Hrow).
  destruct (normalize_positive_row row H) as [_ [s [-> Hs]]].
  now apply close_of_eq.
Qed.

Lemma signed_inf_not_finite (a : Q) :
  ~ Np.is_finite (Np.signed_inf a PosInf NegInf).
Proof. unfold Np.signed_inf. destruct (a ?= 0); simpl; auto. Qed.

(** A row whose total is zero normalizes to infinities and NaN only. *)
Lemma normalize_zero_row (row : list npfloat) :
  zero_total row = true ->
  Forall (fun x => ~ Np.is_finite x) (map (fun x => Np.div x (Np.sum row)) row).
Proof.
  intros H. apply zero_total_spec in H. destruct H as [t [Hs Ht]].
  rewrite Hs. destruct (sum_finite_inv _ Hs) as [Hf _].
  apply Forall_forall. intros y Hy. apply in_map_iff in Hy.
  destruct Hy as [x [<- Hx]]. rewrite Forall_forall in Hf. specialize (Hf x Hx).
  destruct x as [a| | |]; simpl in Hf; try contradiction.
  simpl. apply Qeq_bool_iff in Ht. rewrite Ht. apply signed_inf_not_finite.
Qed.

Lemma Qsum_nonneg (l : list Q) : Forall (fun q => 0 <= q) l -> 0 <= Qsum l.
Proof. induction 1 as [|q l Hq _ IH]; simpl; lra. Qed.

Lemma Qsum_zero_nonneg (l : list Q) :
  Forall (fun q => 0 <= q) l -> Qsum l == 0 -> Forall (fun q => q == 0) l.
Proof.
  induction 1 as [|q l Hq Hl IH]; simpl; intros H; constructor.
  - pose proof (Qsum_nonneg Hl). lra.
  - apply IH. pose proof (Qsum_nonneg Hl). lra.
Qed.

(** With non-negative counts, a zero total means that every count is zero,
    and every quotient is [0 / 0]. *)
Lemma normalize_zero_row_nan (row : list npfloat) :
  zero_total row = true ->
  forallb fin_nonneg row = true ->
  Forall (fun x => x = NaN) (map (fun x => Np.div x (Np.sum row)) row).
Proof.
  intros H Hnn. apply zero_total_spec in H. destruct H as [t [Hs Ht]].
  rewrite Hs. destruct (sum_finite_inv _ Hs) as [_ Hq].
  assert (Hv : Forall (fun q => 0 <= q) (map Np.val row)).
  { apply Forall_forall. intros q Hin. apply in_map_iff in Hin.
    destruct Hin as [x [<- Hx]]. rewrite forallb_forall in Hnn.
    apply Hnn, fin_nonneg_spec in Hx. destruct Hx as [a [-> Ha]]. exact Ha. }
  assert (Hz : Forall (fun q => q == 0) (map Np.val row)).
  { apply Qsum_zero_nonneg; auto. now rewrite <- Hq. }
  apply Forall_forall. intros y Hy. apply in_map_iff in Hy.
  destruct Hy as [x [<- Hx]].
  rewrite Forall_forall in Hz. specialize (Hz (Np.val x) (in_map _ _ _ Hx)).
  rewrite forallb_forall in Hnn. apply Hnn, fin_nonneg_spec in Hx.
  destruct Hx as [a [-> Ha]]. simpl in *.
  apply Qeq_bool_iff in Ht. rewrite Ht. unfold Np.signed_inf.
  now rewrite Hz.
Qed.
Lemma add_nonneg (x y : npfloat) :
  fin_nonneg x = true -> fin_nonneg y = true -> fin_nonneg (Np.add x y) = true.
Proof.
  intros Hx Hy. apply fin_nonneg_spec in Hx, Hy.
  destruct Hx as [a [-> Ha]], Hy as [b [-> Hb]]. simpl.
  apply Qle_bool_iff. lra.
Qed.

Lemma sum_nonneg (l : list npfloat) :
  Forall (fun x => fin_nonneg x = true) l -> fin_nonneg (Np.sum l) = true.
Proof.
  induction 1 as [|x l Hx _ IH]; [reflexivity|].
  rewrite sum_cons. now apply add_nonneg.
Qed.

Lemma mul_of_bool_nonneg (b : bool) (w : npfloat) :
  fin_nonneg w = true -> fin_nonneg (Np.mul (Np.of_bool b) w) = true.
Proof.
  intros Hw. apply fin_nonneg_spec in Hw. destruct Hw as [a [-> Ha]].
  destruct b; simpl; apply Qle_bool_iff; lra.
Qed.

Lemma weighted_counts_row (m : list (list Z)) (w : list npfloat) (c : nat) :
  (c < shape1 m)%nat ->
  nth c (weighted_counts m w) [] =
  map (fun i =>
         Np.sum (column (Finite 0) c
                   (map2 (fun row wr =>
                            map (fun x => Np.mul (Np.of_bool (Z.eqb x (Z.of_nat i))) wr) row)
                         m w)))
      (seq 0 22).
Proof.
  intros H. unfold weighted_counts. rewrite from_columns_row by exact H.
  apply map_ext. intros i. unfold sum_axis0. now rewrite nth_map_seq.
Qed.

Lemma weighted_counts_nonneg (m : list (list Z)) (w : list npfloat) (c : nat) :
  (c < shape1 m)%nat ->
  forallb fin_nonneg w = true ->
  forallb fin_nonneg (nth c (weighted_counts m w) []) = true.
Proof.
  intros Hc Hw. rewrite weighted_counts_row by exact Hc.
  apply forallb_forall. intros y Hy. apply in_map_iff in Hy.
  destruct Hy as [i [<- _]]. apply sum_nonneg. unfold column.
  apply Forall_forall. intros z Hz. apply in_map_iff in Hz.
  destruct Hz as [row [<- Hrow]].
  assert (HT : Forall (Forall (fun x => fin_nonneg x = true))
                 (map2 (fun row wr =>
                          map (fun x => Np.mul (Np.of_bool (Z.eqb x (Z.of_nat i))) wr) row)
                       m w)).
  { apply Forall_map2 with (P := fun _ => True) (Q := fun x => fin_nonneg x = true).
    - intros r wr _ Hwr. apply Forall_forall. intros u Hu.
      apply in_map_iff in Hu. destruct Hu as [x [<- _]].
      now apply mul_of_bool_nonneg.
    - apply Forall_forall. auto.
    - apply Forall_forall. rewrite forallb_forall in Hw. exact Hw. }
  rewrite Forall_forall in HT. specialize (HT row Hrow).
  destruct (Nat.lt_ge_cases c (length row)) as [Hl|Hl].
  - rewrite Forall_forall in HT. apply HT, nth_In, Hl.
  - now rewrite nth_overflow.
Qed.

Lemma weighted_counts_length (m : list (list Z)) (w : list npfloat) :
  length (weighted_counts m w) = shape1 m.
Proof. unfold weighted_counts, from_columns. now rewrite length_map, length_seq. Qed.

Lemma plain_counts_length (m : list (list Z)) :
  length (plain_counts m) = shape1 m.
Proof. unfold plain_counts, from_columns. now rewrite length_map, length_seq. Qed.

(** C9: in [sequence_profile], a column whose counts have a positive total
    is divided by a non-zero number and its profile row is finite; a column
    whose total is zero yields a row of 22 entries none of which is a
    finite number (so never a row of zeros), and all of which are NaN when
    the weights are non-negative. *)
Theorem sequence_profile_division (m : list (list Z)) (w : option (list npfloat))
  (c : nat) :
  let cts := nth c (weighted_counts m (weights_or_ones m w)) [] in
  let out := nth c (sequence_profile m w) [] in
  (c < shape1 m)%nat ->
  length out = 22%nat /\
  (positive_total cts = true ->
   zero_total cts = false /\ Forall (fun x => Np.is_finite x) out) /\
  (zero_total cts = true ->
   Forall (fun x => ~ Np.is_finite x) out /\
   (forallb fin_nonneg (weights_or_ones m w) = true -> Forall (fun x => x = NaN) out)).
Proof.
  intros cts out Hc. unfold out, sequence_profile. rewrite normalize_rows_nth.
  fold cts. split; [|split].
  - rewrite length_map. unfold cts. rewrite weighted_counts_row by exact Hc.
    now rewrite length_map, length_seq.
  - intros Hp. split.
    + apply positive_total_spec in Hp. destruct Hp as [t [Hs Ht]].
      unfold zero_total. rewrite Hs. destruct (Qeq_bool t 0) eqn:E; auto.
      apply Qeq_bool_iff in E. lra.
    + apply normalize_positive_row, Hp.
  - intros Hz. split.
    + now apply normalize_zero_row.
    + intros Hw. apply normalize_zero_row_nan; auto.
      now apply weighted_counts_nonneg.
Qed.


Lemma count_true_map {A : Type} (h : A -> bool) (l : list A) :
  count_true (map h l) = length (filter h l).
Proof.
  unfold count_true. induction l as [|x l IH]; simpl; auto.
  destruct (h x); simpl; now rewrite IH.
Qed.

Lemma column_map_map {A B : Type} (g : A -> B) (dA : A) (dB : B) (n c : nat)
  (m : list (list A)) :
  rectangular n m -> (c < n)%nat ->
  column dB c (map (map g) m) = map (fun row => g (nth c row dA)) m.
Proof.
  intros Hr Hc. unfold column. rewrite map_map. apply map_ext_in.
  intros row Hin. unfold rectangular in Hr. rewrite Forall_forall in Hr.
  rewrite (nth_indep _ dB (g dA)) by (rewrite length_map, (Hr row Hin); exact Hc).
  apply map_nth.
Qed.

Lemma rectangular_shape1 {A : Type} (n : nat) (m : list (list A)) :
  rectangular n m -> m <> [] -> shape1 m = n.
Proof.
  intros Hr Hm. destruct m as [|row m]; [congruence|].
  inversion Hr; subst. reflexivity.
Qed.

Lemma plain_counts_row (m : list (list Z)) (c : nat) :
  rectangular (shape1 m) m -> (c < shape1 m)%nat ->
  nth c (plain_counts m) [] =
  map (fun i =>
         Np.of_nat (length (filter (fun row => Z.eqb (nth c row 0%Z) (Z.of_nat i)) m)))
      (seq 0 21).
Proof.
  intros Hr Hc. unfold plain_counts. rewrite from_columns_row by exact Hc.
  apply map_ext. intros i. rewrite nth_map_seq by exact Hc.
  rewrite (column_map_map _ 0%Z false Hr Hc). now rewrite count_true_map.
Qed.

(** C10: the weights passed to [sequence_profile_no_gap] play no part in
    its result.  Row [c] of the profile is made of the number of rows of
    the matrix that carry each of the 21 symbols in column [c], divided by
    the sum of these numbers. *)
Theorem sequence_profile_no_gap_ignores_weights (m : list (list Z))
  (w1 w2 : option (list npfloat)) :
  sequence_profile_no_gap m w1 = sequence_profile_no_gap m w2 /\
  (rectangular (shape1 m) m ->
   forall c, (c < shape1 m)%nat ->
   let counts :=
     map (fun i =>
            Np.of_nat (length (filter (fun row => Z.eqb (nth c row 0%Z) (Z.of_nat i)) m)))
         (seq 0 21) in
   nth c (sequence_profile_no_gap m w1) [] =
   map (fun x => Np.div x (Np.sum counts)) counts).
Proof.
  split; [reflexivity|]. intros Hr c Hc counts.
  unfold sequence_profile_no_gap. rewrite normalize_rows_nth.
  rewrite plain_counts_row by assumption. reflexivity.
Qed.
Lemma sequence_profile_division_witness :
  let m := [[0; 1]; [0; 21]]%Z in
  let w := Some [Finite 1; Finite 0] in
  (1 < shape1 m)%nat /\
  positive_total (nth 1 (weighted_counts m (weights_or_ones m w)) []) = true /\
  length (nth 1 (sequence_profile m w) []) = 22%nat /\
  Forall (fun x => Np.is_finite x) (nth 1 (sequence_profile m w) []).
Proof.
  intros m w.
  assert (Hc : (1 < shape1 m)%nat) by (simpl; lia).
  assert (Hp : positive_total (nth 1 (weighted_counts m (weights_or_ones m w)) []) = true)
    by (vm_compute; reflexivity).
  pose proof (@sequence_profile_division m w 1 Hc) as [Hlen [Hpos _]].
  repeat split; auto. apply Hpos, Hp.
Defined.

Lemma sequence_profile_no_gap_ignores_weights_witness :
  let m := [[0; 1]; [0; 21]]%Z in
  rectangular (shape1 m) m /\ (1 < shape1 m)%nat /\
  nth 1 (sequence_profile_no_gap m (Some [Finite 5; Finite 7])) [] =
  nth 1 (sequence_profile_no_gap m None) [].
Proof.
  intros m.
  assert (Hr : rectangular (shape1 m) m) by (repeat constructor).
  assert (Hc : (1 < shape1 m)%nat) by (simpl; lia).
  split; [exact Hr | split; [exact Hc|]].
  destruct (sequence_profile_no_gap_ignores_weights m (Some [Finite 5; Finite 7]) None)
    as [_ H1].
  destruct (sequence_profile_no_gap_ignores_weights m None None) as [_ H2].
  rewrite (H1 Hr 1%nat Hc), (H2 Hr 1%nat Hc). reflexivity.
Defined.
(** ** Signs *)

Lemma pos_nonneg (x : npfloat) : fin_pos x = true -> fin_nonneg x = true.
Proof.
  intros H. apply fin_pos_spec in H. destruct H as [a [-> Ha]].
  apply fin_nonneg_spec. exists a. split; auto. lra.
Qed.

Lemma mul_pos (x y : npfloat) :
  fin_pos x = true -> fin_pos y = true -> fin_pos (Np.mul x y) = true.
Proof.
  intros Hx Hy. apply fin_pos_spec in Hx, Hy.
  destruct Hx as [a [-> Ha]], Hy as [b [-> Hb]].
  apply fin_pos_spec. exists (a * b). split; auto.
  now apply Qmult_lt_0_compat.
Qed.

Lemma mul_nonneg (x y : npfloat) :
  fin_nonneg x = true -> fin_nonneg y = true -> fin_nonneg (Np.mul x y) = true.
Proof.
  intros Hx Hy. apply fin_nonneg_spec in Hx, Hy.
  destruct Hx as [a [-> Ha]], Hy as [b [-> Hb]].
  apply fin_nonneg_spec. exists (a * b). split; auto.
  now apply Qmult_le_0_compat.
Qed.

Lemma div_pos (x y : npfloat) :
  fin_pos x = true -> fin_pos y = true -> fin_pos (Np.div x y) = true.
Proof.
  intros Hx Hy. apply fin_pos_spec in Hx, Hy.
  destruct Hx as [a [-> Ha]], Hy as [b [-> Hb]].
  apply fin_pos_spec. exists (a / b). split.
  - apply div_finite. lra.
  - apply Qlt_shift_div_l; lra.
Qed.

Lemma div_nonneg (x y : npfloat) :
  fin_nonneg x = true -> fin_pos y = true -> fin_nonneg (Np.div x y) = true.
Proof.
  intros Hx Hy. apply fin_nonneg_spec in Hx. apply fin_pos_spec in Hy.
  destruct Hx as [a [-> Ha]], Hy as [b [-> Hb]].
  apply fin_nonneg_spec. exists (a / b). split.
  - apply div_finite. lra.
  - apply Qle_shift_div_l; lra.
Qed.

Lemma add_pos_nonneg (x y : npfloat) :
  fin_pos x = true -> fin_nonneg y = true -> fin_pos (Np.add x y) = true.
Proof.
  intros Hx Hy. apply fin_pos_spec in Hx. apply fin_nonneg_spec in Hy.
  destruct Hx as [a [-> Ha]], Hy as [b [-> Hb]].
  apply fin_pos_spec. exists (a + b). split; auto. lra.
Qed.

Lemma add_nonneg_pos (x y : npfloat) :
  fin_nonneg x = true -> fin_pos y = true -> fin_pos (Np.add x y) = true.
Proof.
  intros Hx Hy. apply fin_nonneg_spec in Hx. apply fin_pos_spec in Hy.
  destruct Hx as [a [-> Ha]], Hy as [b [-> Hb]].
  apply fin_pos_spec. exists (a + b). split; auto. lra.
Qed.

Lemma sum_pos (l : list npfloat) :
  Forall (fun x => fin_nonneg x = true) l ->
  Exists (fun x => fin_pos x = true) l ->
  fin_pos (Np.sum l) = true.
Proof.
  intros Hn He. induction He as [x l Hx | x l He IH].
  - inversion Hn; subst. rewrite sum_cons. apply add_pos_nonneg; auto.
    now apply sum_nonneg.
  - inversion Hn; subst. rewrite sum_cons. apply add_nonneg_pos; auto.
Qed.

Lemma Forall_pos_nonneg (l : list npfloat) :
  Forall (fun x => fin_pos x = true) l -> Forall (fun x => fin_nonneg x = true) l.
Proof. apply Forall_impl. intros x. apply pos_nonneg. Qed.

Lemma Forall_nonneg_finite (l : list npfloat) :
  Forall (fun x => fin_nonneg x = true) l -> Forall (fun x => Np.is_finite x) l.
Proof.
  apply Forall_impl. intros x H. apply fin_nonneg_spec in H.
  destruct H as [a [-> _]]. exact I.
Qed.

(** A list of non-negative numbers with a positive sum has a positive
    element. *)
Lemma positive_sum_has_positive (l : list npfloat) :
  Forall (fun x => fin_nonneg x = true) l ->
  fin_pos (Np.sum l) = true ->
  Exists (fun x => fin_pos x = true) l.
Proof.
  induction 1 as [|x l Hx Hl IH]; intros Hs.
  - simpl in Hs. discriminate.
  - destruct (fin_pos x) eqn:E; [now left|]. right. apply IH.
    rewrite sum_cons in Hs. apply fin_nonneg_spec in Hx. destruct Hx as [a [-> Ha]].
    pose proof (sum_nonneg Hl) as Hn. apply fin_nonneg_spec in Hn.
    destruct Hn as [b [Hb Hb0]]. rewrite Hb in *. simpl in *.
    apply negb_false_iff, Qle_bool_iff in E.
    apply negb_true_iff in Hs. apply negb_true_iff.
    destruct (Qle_bool b 0) eqn:E2; auto. apply Qle_bool_iff in E2.
    assert (Hle : a + b <= 0) by lra. apply Qle_bool_iff in Hle. congruence.
Qed.
(** ** The regularized profile *)

Lemma Qsum_pos (l : list Q) :
  Forall (fun q => 0 < q) l -> l <> [] -> 0 < Qsum l.
Proof.
  intros H Hne. destruct H as [|q l Hq Hl]; [congruence|]. simpl.
  assert (0 <= Qsum l).
  { apply Qsum_nonneg. revert Hl. apply Forall_impl. intros; lra. }
  lra.
Qed.

Lemma Qsum_cons (q : Q) (l : list Q) : Qsum (q :: l) = q + Qsum l.
Proof. reflexivity. Qed.

Lemma sum_map_Finite (l : list Q) : Np.sum (map Finite l) = Finite (Qsum l).
Proof.
  induction l as [|q l IH]; [reflexivity|].
  simpl map. rewrite sum_cons, IH. reflexivity.
Qed.

Lemma column_map2 {A B : Type} (g : A -> B -> list npfloat) (b : nat)
  (x : list A) (q : list B) :
  column (Finite 0) b (map2 g x q) = map2 (fun xa row => nth b (g xa row) (Finite 0)) x q.
Proof.
  unfold column. revert q; induction x as [|xa x IH]; intros [|row q]; simpl; auto.
  now rewrite IH.
Qed.

(** Combining a non-negative vector that has a positive entry with rows
    on which the combination keeps the sign gives a positive sum. *)
Lemma sum_map2_pos {B : Type} (h : npfloat -> B -> npfloat) (R : B -> Prop)
  (x : list npfloat) (q : list B) :
  (forall xa row, fin_nonneg xa = true -> R row -> fin_nonneg (h xa row) = true) ->
  (forall xa row, fin_pos xa = true -> R row -> fin_pos (h xa row) = true) ->
  length x = length q ->
  Forall (fun xa => fin_nonneg xa = true) x ->
  Exists (fun xa => fin_pos xa = true) x ->
  Forall R q ->
  fin_pos (Np.sum (map2 h x q)) = true.
Proof.
  intros Hnn Hpp Hlen Hn He Hq. apply sum_pos.
  - apply Forall_map2 with (P := fun xa => fin_nonneg xa = true) (Q := R); auto.
  - revert q Hlen Hq. induction He as [xa x Ha | xa x He IH]; intros [|row q] Hlen Hq;
      simpl in Hlen; try discriminate; inversion Hq; subst; simpl.
    + left. now apply Hpp.
    + right. inversion Hn; subst. apply IH; auto.
Qed.

Lemma map2_div_signs (f P : list npfloat) :
  length f = length P ->
  Forall (fun x => fin_nonneg x = true) f ->
  Forall (fun x => fin_pos x = true) P ->
  Forall (fun x => fin_nonneg x = true) (map2 Np.div f P) /\
  (Exists (fun x => fin_pos x = true) f ->
   Exists (fun x => fin_pos x = true) (map2 Np.div f P)).
Proof.
  intros Hlen Hf HP. split.
  - apply Forall_map2 with (P := fun x => fin_nonneg x = true)
                           (Q := fun x => fin_pos x = true); auto.
    intros; now apply div_nonneg.
  - intros He. revert P Hlen HP.
    induction He as [xa x Ha | xa x He IH]; intros [|p P] Hlen HP;
      simpl in Hlen; try discriminate; inversion HP; subst; simpl.
    + left. now apply div_pos.
    + right. inversion Hf; subst. apply IH; auto.
Qed.

(** The blend [(f * alpha + g * beta) / (alpha + beta)] of two finite rows. *)
Lemma blend_sum (a b : Z) (f g : list npfloat) :
  (a + b <> 0)%Z ->
  length f = length g ->
  Forall (fun x => Np.is_finite x) f ->
  Forall (fun x => Np.is_finite x) g ->
  exists s,
    Np.sum (map2 (fun x y =>
                    Np.div (Np.add (Np.mul x (Np.of_Z a)) (Np.mul y (Np.of_Z b)))
                           (Np.of_Z (a + b))) f g) = Finite s /\
    s == (inject_Z a * Qsum (map Np.val f) + inject_Z b * Qsum (map Np.val g))
         / inject_Z (a + b).
Proof.
  intros Hab Hlen Hf. revert g Hlen.
  assert (Hd : ~ inject_Z (a + b) == 0).
  { intros E. apply Hab. apply inject_Z_injective. exact E. }
  induction Hf as [|x f Hx Hf IH]; intros [|y g] Hlen Hg; simpl in Hlen; try discriminate.
  - exists 0. split; [reflexivity|]. simpl. field. exact Hd.
  - inversion Hg; subst. destruct (IH g) as [s [Hs Eq]]; auto.
    destruct x as [vx| | |]; try (simpl in Hx; contradiction).
    destruct y as [vy| | |]; try (simpl in H1; contradiction).
    cbn [map2]. rewrite sum_cons, Hs. unfold Np.of_Z.
    cbn [map Np.val Np.mul Np.add Np.div]. rewrite !Qsum_cons.
    destruct (Qeq_bool (inject_Z (a + b)) 0) eqn:E.
    { apply Qeq_bool_iff in E. contradiction. }
    eexists. split; [reflexivity|]. rewrite Eq. field. exact Hd.
Qed.

Section WithPrior.

Variable AminoAcid : dict Z.
Variable AminoAcidFreq : ascii -> Q.
Variable BLOSUM62 : nat -> nat -> Z.
Variable exp : Q -> Q.
Variable r : nat.

Hypothesis exp_pos : forall x, 0 < exp x.
Hypothesis background_ok : positive_background AminoAcid AminoAcidFreq r = true.

Lemma background_pos :
  length (background AminoAcid AminoAcidFreq r) = r /\
  Forall (fun x => fin_pos x = true) (background AminoAcid AminoAcidFreq r).
Proof.
  unfold positive_background in background_ok. unfold background.
  set (P_i := firstn r (map AminoAcidFreq (sorted_keys AminoAcid))) in *.
  apply andb_true_iff in background_ok. destruct background_ok as [Hlen Hpos].
  apply Nat.eqb_eq in Hlen. rewrite length_map. split; [exact Hlen|].
  assert (HP : Forall (fun p => 0 < p) P_i).
  { apply Forall_forall. intros p Hp. rewrite forallb_forall in Hpos.
    specialize (Hpos p Hp). apply negb_true_iff in Hpos.
    apply Qnot_le_lt. intros Hle. apply Qle_bool_iff in Hle. congruence. }
  rewrite sum_map_Finite. apply Forall_forall. intros y Hy.
  apply in_map_iff in Hy. destruct Hy as [p [<- Hp]].
  assert (Hne : P_i <> []) by (intros E; rewrite E in Hp; contradiction).
  pose proof (Qsum_pos HP Hne) as HS.
  rewrite Forall_forall in HP. specialize (HP p Hp).
  apply div_pos; apply fin_pos_spec; eauto.
Qed.

Lemma q_mat_pos :
  length (q_mat AminoAcid AminoAcidFreq BLOSUM62 exp r) = r /\
  Forall (fun row => length row = r /\ Forall (fun x => fin_pos x = true) row)
         (q_mat AminoAcid AminoAcidFreq BLOSUM62 exp r).
Proof.
  destruct background_pos as [HlenP HposP].
  unfold q_mat, mat_map2, outer.
  set (P := background AminoAcid AminoAcidFreq r) in *.
  split.
  - rewrite map2_length, !length_map, length_seq, HlenP. apply Nat.min_id.
  - apply Forall_map2 with
      (P := fun row => length row = r /\ Forall (fun x => fin_pos x = true) row)
      (Q := fun row => length row = r /\ Forall (fun x => fin_pos x = true) row).
    + intros row1 row2 [L1 F1] [L2 F2]. split.
      * rewrite map2_length, L1, L2. apply Nat.min_id.
      * apply Forall_map2 with (P := fun x => fin_pos x = true)
                               (Q := fun x => fin_pos x = true); auto.
        intros; now apply mul_pos.
    + apply Forall_forall. intros row Hrow. apply in_map_iff in Hrow.
      destruct Hrow as [x [<- Hx]]. rewrite length_map. split; [exact HlenP|].
      apply Forall_forall. intros y Hy. apply in_map_iff in Hy.
      destruct Hy as [p [<- Hp]]. rewrite Forall_forall in HposP.
      apply mul_pos; auto.
    + apply Forall_forall. intros row Hrow. apply in_map_iff in Hrow.
      destruct Hrow as [srow [<- Hs]]. apply in_map_iff in Hs.
      destruct Hs as [a [<- _]]. rewrite !length_map, length_seq. split; [reflexivity|].
      apply Forall_forall. intros y Hy. apply in_map_iff in Hy.
      destruct Hy as [sc [<- _]]. simpl. apply negb_true_iff.
      destruct (Qle_bool _ 0) eqn:E; auto. apply Qle_bool_iff in E.
      pose proof (exp_pos (0.3176 * inject_Z sc)). exfalso; lra.
Qed.

(** The estimate [g_i] of a non-negative row with a positive sum is made
    of finite numbers that add up to one. *)
Lemma prior_estimate_normalized (f : list npfloat) :
  length f = r ->
  Forall (fun x => fin_nonneg x = true) f ->
  fin_pos (Np.sum f) = true ->
  let g := prior_estimate AminoAcid AminoAcidFreq BLOSUM62 exp r f in
  length g = r /\
  Forall (fun x => Np.is_finite x) g /\
  exists s, Np.sum g = Finite s /\ s == 1.
Proof.
  intros Hlen Hnn Hsum g.
  destruct background_pos as [HlenP HposP].
  destruct q_mat_pos as [Hlenq Hq].
  pose proof (positive_sum_has_positive Hnn Hsum) as Hex.
  assert (Hlen2 : length f = length (background AminoAcid AminoAcidFreq r)) by congruence.
  destruct (map2_div_signs Hlen2 Hnn HposP) as [Hxn Hxp]. specialize (Hxp Hex).
  set (x := map2 Np.div f (background AminoAcid AminoAcidFreq r)) in *.
  assert (Hlenx : length x = r).
  { unfold x. rewrite map2_length, <- Hlen2, Hlen. apply Nat.min_id. }
  set (graw := vecmat r x (q_mat AminoAcid AminoAcidFreq BLOSUM62 exp r)).
  assert (Hg : Forall (fun y => fin_pos y = true) graw).
  { unfold graw, vecmat, sum_axis0. apply Forall_forall. intros y Hy.
    apply in_map_iff in Hy. destruct Hy as [b [<- Hb]]. apply in_seq in Hb.
    rewrite column_map2.
    apply sum_map2_pos with
      (R := fun row => length row = r /\ Forall (fun x => fin_pos x = true) row); auto.
    - intros xa row Ha [Hl Hp].
      rewrite (nth_indep _ (Finite 0) (Np.mul xa (Finite 0))) by (rewrite length_map; lia).
      rewrite map_nth. apply mul_nonneg; auto. apply pos_nonneg.
      rewrite Forall_forall in Hp. apply Hp, nth_In. lia.
    - intros xa row Ha [Hl Hp].
      rewrite (nth_indep _ (Finite 0) (Np.mul xa (Finite 0))) by (rewrite length_map; lia).
      rewrite map_nth. apply mul_pos; auto.
      rewrite Forall_forall in Hp. apply Hp, nth_In. lia.
    - congruence. }
  assert (Hlg : length graw = r).
  { unfold graw, vecmat, sum_axis0. now rewrite length_map, length_seq. }
  assert (Hpt : positive_total graw = true).
  { unfold positive_total. apply sum_pos; [now apply Forall_pos_nonneg|].
    destruct graw as [|y graw']; [|inversion Hg; subst; now left].
    simpl in Hlg. subst r. destruct f; [inversion Hex | discriminate]. }
  destruct (normalize_positive_row graw Hpt) as [Hfin Hone].
  unfold g, prior_estimate. fold x. fold graw.
  split; [now rewrite length_map|]. split; assumption.
Qed.

Lemma pseudocount_plus_beta (f : list npfloat) : (pseudocount f + beta <> 0)%Z.
Proof. unfold pseudocount, beta. lia. Qed.

(** A regularized row adds up to one. *)
Lemma with_prior_row_sum (f : list npfloat) :
  length f = r ->
  Forall (fun x => fin_nonneg x = true) f ->
  (exists s, Np.sum f = Finite s /\ s == 1) ->
  exists s, Np.sum (with_prior_row AminoAcid AminoAcidFreq BLOSUM62 exp r f) = Finite s
            /\ s == 1.
Proof.
  intros Hlen Hnn [s [Hs H1]].
  assert (Hp : fin_pos (Np.sum f) = true).
  { rewrite Hs. apply fin_pos_spec. exists s. split; auto. lra. }
  destruct (prior_estimate_normalized Hlen Hnn Hp) as [Hlg [Hfg [sg [Hsg Hg1]]]].
  unfold with_prior_row.
  destruct (@blend_sum (pseudocount f) beta f
              (prior_estimate AminoAcid AminoAcidFreq BLOSUM62 exp r f))
    as [s' [Hs' Eq]].
  - apply pseudocount_plus_beta.
  - congruence.
  - now apply Forall_nonneg_finite.
  - exact Hfg.
  - exists s'. split; [exact Hs'|]. rewrite Eq.
    destruct (sum_finite_inv _ Hs) as [_ Ef]. destruct (sum_finite_inv _ Hsg) as [_ Eg].
    rewrite <- Ef, <- Eg, H1, Hg1, inject_Z_plus.
    assert (Hd : ~ inject_Z (pseudocount f) + inject_Z beta == 0).
    { rewrite <- inject_Z_plus. intros E. apply (@pseudocount_plus_beta f).
      apply inject_Z_injective. exact E. }
    field. exact Hd.
Qed.

End WithPrior.
(** Regularizing a profile whose rows are non-negative and add up to one
    gives rows that add up to one. *)
Lemma with_prior_rows_sum (AminoAcid : dict Z) (AminoAcidFreq : ascii -> Q)
  (BLOSUM62 : nat -> nat -> Z) (exp : Q -> Q) (prof : list (list npfloat)) :
  (forall x, 0 < exp x) ->
  positive_background AminoAcid AminoAcidFreq (shape1 prof) = true ->
  rectangular (shape1 prof) prof ->
  Forall (fun row => Forall (fun x => fin_nonneg x = true) row /\ exactly_one row) prof ->
  rows_sum_to_one (sequence_profile_with_prior AminoAcid AminoAcidFreq BLOSUM62 exp prof).
Proof.
  intros Hexp Hbg Hrect Hrows. unfold rows_sum_to_one, sequence_profile_with_prior.
  apply Forall_forall. intros out Hout. apply in_map_iff in Hout.
  destruct Hout as [f [<- Hf]].
  unfold rectangular in Hrect. rewrite Forall_forall in Hrect, Hrows.
  destruct (Hrows f Hf) as [Hnn Hone].
  destruct (@with_prior_row_sum AminoAcid AminoAcidFreq BLOSUM62 exp (shape1 prof)
              Hexp Hbg f (Hrect f Hf) Hnn Hone) as [s [-> Hs]].
  now apply close_of_eq.
Qed.

(** Normalizing rows of non-negative counts with positive totals gives a
    profile of non-negative rows that add up to one. *)
Lemma normalize_rows_valid (cts : list (list npfloat)) :
  forallb positive_total cts = true ->
  Forall (fun row => forallb fin_nonneg row = true) cts ->
  Forall (fun row => Forall (fun x => fin_nonneg x = true) row /\ exactly_one row)
         (normalize_rows cts).
Proof.
  intros Hp Hn. rewrite normalize_rows_map. apply Forall_forall.
  intros out Hout. apply in_map_iff in Hout. destruct Hout as [row [<- Hrow]].
  rewrite forallb_forall in Hp. specialize (Hp row Hrow).
  rewrite Forall_forall in Hn. specialize (Hn row Hrow).
  split.
  - apply Forall_forall. intros y Hy. apply in_map_iff in Hy.
    destruct Hy as [x [<- Hx]]. rewrite forallb_forall in Hn.
    apply div_nonneg; auto.
  - apply (normalize_positive_row row Hp).
Qed.

Lemma normalize_rows_rectangular (n : nat) (cts : list (list npfloat)) :
  rectangular n cts -> rectangular n (normalize_rows cts).
Proof.
  unfold rectangular. rewrite normalize_rows_map. intros H.
  apply Forall_forall. intros out Hout. apply in_map_iff in Hout.
  destruct Hout as [row [<- Hrow]]. rewrite length_map.
  rewrite Forall_forall in H. now apply H.
Qed.

Lemma shape1_cases {A : Type} (n : nat) (m : list (list A)) :
  rectangular n m -> shape1 m = n \/ m = [].
Proof.
  intros H. destruct m as [|row m]; [now right|]. left.
  inversion H; subst. reflexivity.
Qed.

Lemma weighted_counts_all_nonneg (m : list (list Z)) (w : list npfloat) :
  forallb fin_nonneg w = true ->
  Forall (fun row => forallb fin_nonneg row = true) (weighted_counts m w).
Proof.
  intros Hw. apply Forall_forall. intros row Hrow.
  apply In_nth with (d := []) in Hrow. destruct Hrow as [c [Hc <-]].
  rewrite weighted_counts_length in Hc. now apply weighted_counts_nonneg.
Qed.

Lemma plain_counts_all_nonneg (m : list (list Z)) :
  Forall (fun row => forallb fin_nonneg row = true) (plain_counts m).
Proof.
  unfold plain_counts, from_columns. apply Forall_forall. intros row Hrow.
  apply in_map_iff in Hrow. destruct Hrow as [c [<- Hc]].
  apply forallb_forall. intros y Hy. apply in_map_iff in Hy.
  destruct Hy as [i [<- _]].
  destruct (Nat.lt_ge_cases c (shape1 m)) as [Hl|Hl].
  - rewrite nth_map_seq by exact Hl. simpl. apply Qle_bool_iff.
    unfold Qle; simpl. lia.
  - rewrite nth_overflow; [reflexivity|]. now rewrite length_map, length_seq.
Qed.

Lemma with_prior_of_counts (AminoAcid : dict Z) (AminoAcidFreq : ascii -> Q)
  (BLOSUM62 : nat -> nat -> Z) (exp : Q -> Q) (k : nat) (cts : list (list npfloat)) :
  (forall x, 0 < exp x) ->
  positive_background AminoAcid AminoAcidFreq k = true ->
  rectangular k cts ->
  forallb positive_total cts = true ->
  Forall (fun row => forallb fin_nonneg row = true) cts ->
  rows_sum_to_one
    (sequence_profile_with_prior AminoAcid AminoAcidFreq BLOSUM62 exp (normalize_rows cts)).
Proof.
  intros Hexp Hbg Hrect Hp Hn.
  pose proof (normalize_rows_rectangular Hrect) as Hr2.
  destruct (shape1_cases Hr2) as [E|E].
  - apply with_prior_rows_sum; auto.
    + now rewrite E.
    + now rewrite E.
    + now apply normalize_rows_valid.
  - rewrite E. constructor.
Qed.

(** C1: when the counts of every column have a positive total, every row
    of [sequence_profile] and of [sequence_profile_no_gap] adds up to one
    (within 1e-9), and so does every row of [sequence_profile_with_prior]
    applied to either profile, for non-negative weights, positive background
    frequencies and a positive exponential. *)
Theorem profile_rows_sum_to_one (AminoAcid : dict Z) (AminoAcidFreq : ascii -> Q)
  (BLOSUM62 : nat -> nat -> Z) (exp : Q -> Q) (m : list (list Z))
  (w : option (list npfloat)) :
  (forallb positive_total (weighted_counts m (weights_or_ones m w)) = true ->
   rows_sum_to_one (sequence_profile m w) /\
   ((forall x, 0 < exp x) ->
    positive_background AminoAcid AminoAcidFreq 22 = true ->
    forallb fin_nonneg (weights_or_ones m w) = true ->
    rows_sum_to_one
      (sequence_profile_with_prior AminoAcid AminoAcidFreq BLOSUM62 exp
         (sequence_profile m w)))) /\
  (forallb positive_total (plain_counts m) = true ->
   rows_sum_to_one (sequence_profile_no_gap m w) /\
   ((forall x, 0 < exp x) ->
    positive_background AminoAcid AminoAcidFreq 21 = true ->
    rows_sum_to_one
      (sequence_profile_with_prior AminoAcid AminoAcidFreq BLOSUM62 exp
         (sequence_profile_no_gap m w)))).
Proof.
  split; intros Hp; split.
  - now apply normalize_rows_sum_to_one.
  - intros Hexp Hbg Hw. unfold sequence_profile.
    apply with_prior_of_counts with (k := 22%nat); auto.
    + apply from_columns_rectangular.
    + now apply weighted_counts_all_nonneg.
  - now apply normalize_rows_sum_to_one.
  - intros Hexp Hbg. unfold sequence_profile_no_gap.
    apply with_prior_of_counts with (k := 21%nat); auto.
    + apply from_columns_rectangular.
    + apply plain_counts_all_nonneg.
Qed.

Lemma Qsquare_nonneg (x : Q) : 0 <= x * x.
Proof.
  destruct (Qlt_le_dec x 0) as [H|H].
  - setoid_replace (x * x) with ((- x) * (- x)) by ring.
    apply Qmult_le_0_compat; lra.
  - now apply Qmult_le_0_compat.
Qed.

Lemma sample_exp_pos (x : Q) : 0 < sample_exp x.
Proof.
  unfold sample_exp. pose proof (Qsquare_nonneg x) as Hsq.
  assert (E : x * x / 2 == x * x * (1 # 2)) by (field; discriminate).
  destruct (Qle_bool 0 x) eqn:Hb.
  - apply Qle_bool_iff in Hb. rewrite E. lra.
  - assert (Hx : x < 0).
    { apply Qnot_le_lt. intros H. apply Qle_bool_iff in H. congruence. }
    apply Qlt_shift_div_l; rewrite E; lra.
Qed.

Lemma profile_rows_sum_to_one_witness :
  let m := [[0; 1; 2]; [0; 1; 3]; [0; 21; 2]]%Z in
  let w := Some [Finite 1; Finite 0.5; Finite 0.5] in
  rows_sum_to_one (sequence_profile m w) /\
  rows_sum_to_one
    (sequence_profile_with_prior sample_alphabet sample_freq sample_scores sample_exp
       (sequence_profile m w)) /\
  rows_sum_to_one (sequence_profile_no_gap m w) /\
  rows_sum_to_one
    (sequence_profile_with_prior sample_alphabet sample_freq sample_scores sample_exp
       (sequence_profile_no_gap m w)).
Proof.
  intros m w.
  destruct (profile_rows_sum_to_one sample_alphabet sample_freq sample_scores
              sample_exp m w) as [H1 H2].
  assert (Hp1 : forallb positive_total (weighted_counts m (weights_or_ones m w)) = true)
    by (vm_compute; reflexivity).
  assert (Hp2 : forallb positive_total (plain_counts m) = true) by (vm_compute; reflexivity).
  destruct (H1 Hp1) as [Ha Hb]. destruct (H2 Hp2) as [Hc Hd].
  split; [exact Ha|]. split.
  - apply Hb; [exact sample_exp_pos | vm_compute; reflexivity | vm_compute; reflexivity].
  - split; [exact Hc|]. apply Hd; [exact sample_exp_pos | vm_compute; reflexivity].
Defined.
(** ** Conserved columns *)

Lemma eq_refl_np (x : npfloat) : Np.eq x x.
Proof. destruct x; simpl; auto. reflexivity. Qed.

Lemma blend_zero_alpha (x y : npfloat) :
  Np.is_finite x ->
  Np.eq (Np.div (Np.add (Np.mul x (Np.of_Z 0)) (Np.mul y (Np.of_Z beta)))
                (Np.of_Z (0 + beta)))
        y.
Proof.
  intros Hx. destruct x as [a| | |]; simpl in Hx; try contradiction.
  destruct y as [b| | |]; try reflexivity.
  unfold Np.of_Z, beta. cbn [Np.mul Np.add Np.div Np.eq].
  change (Qeq_bool (inject_Z (0 + 10)) 0) with false. cbn iota.
  change (inject_Z (0 + 10)) with (10 # 1). change (inject_Z 10) with (10 # 1).
  change (inject_Z 0) with 0. unfold Np.eq. field.
Qed.

Lemma Forall2_map2_r {A B : Type} (R : B -> B -> Prop) (h : A -> B -> B) (P : A -> Prop)
  (f : list A) (g : list B) :
  length f = length g ->
  Forall P f ->
  (forall x y, P x -> R (h x y) y) ->
  Forall2 R (map2 h f g) g.
Proof.
  intros Hlen Hf Hh. revert g Hlen.
  induction Hf as [|x f Hx _ IH]; intros [|y g] Hlen; simpl in Hlen; try discriminate;
    simpl; constructor; auto.
Qed.

Lemma count_positive_conserved (f : list npfloat) :
  Forall (fun x => fin_nonneg x = true) f ->
  map (fun x => Np.gtb x (Finite 0)) f =
  map (fun x => negb (Qeq_bool (Np.val x) 0)) f.
Proof.
  intros H. apply map_ext_in. intros x Hx. rewrite Forall_forall in H.
  apply H, fin_nonneg_spec in Hx. destruct Hx as [a [-> Ha]].
  unfold Np.gtb. simpl. f_equal.
  destruct (Qle_bool a 0) eqn:E1, (Qeq_bool a 0) eqn:E2; auto.
  - apply Qle_bool_iff in E1. apply Qeq_bool_neq in E2. exfalso. apply E2. lra.
  - apply Qeq_bool_iff in E2.
    assert (Hle : a <= 0) by lra. apply Qle_bool_iff in Hle. congruence.
Qed.

Lemma prior_estimate_length (AminoAcid : dict Z) (AminoAcidFreq : ascii -> Q)
  (BLOSUM62 : nat -> nat -> Z) (exp : Q -> Q) (r : nat) (f : list npfloat) :
  length (prior_estimate AminoAcid AminoAcidFreq BLOSUM62 exp r f) = r.
Proof.
  unfold prior_estimate, vecmat, sum_axis0. now rewrite !length_map, length_seq.
Qed.

Lemma nth_map_in {A B : Type} (f : A -> B) (l : list A) (d : B) (d' : A) (i : nat) :
  (i < length l)%nat -> nth i (map f l) d = f (nth i l d').
Proof.
  intros H. rewrite (nth_indep _ d (f d')) by (now rewrite length_map).
  apply map_nth.
Qed.

Lemma list_as_seq {A : Type} (l : list A) (d : A) :
  l = map (fun a => nth a l d) (seq 0 (length l)).
Proof.
  apply nth_ext with (d := d) (d' := d).
  - now rewrite length_map, length_seq.
  - intros n Hn. now rewrite (nth_map_seq _ d Hn).
Qed.

Lemma map2_map_map {A B C D : Type} (h : A -> B -> C) (f : D -> A) (g : D -> B)
  (l : list D) :
  map2 h (map f l) (map g l) = map (fun a => h (f a) (g a)) l.
Proof. induction l as [|x l IH]; [reflexivity|]. simpl. now rewrite IH. Qed.

Lemma sum_map_Finite_of {A : Type} (h : A -> Q) (l : list A) :
  Np.sum (map (fun a => Finite (h a)) l) = Finite (Qsum (map h l)).
Proof. now rewrite <- (map_map h Finite), sum_map_Finite. Qed.

Section PriorEstimate.

Variable AminoAcid : dict Z.
Variable AminoAcidFreq : ascii -> Q.
Variable BLOSUM62 : nat -> nat -> Z.
Variable exp : Q -> Q.
Variable r : nat.

Hypothesis exp_pos : forall x, 0 < exp x.
Hypothesis background_ok : positive_background AminoAcid AminoAcidFreq r = true.

Local Abbreviation freq := (frequency_table AminoAcid AminoAcidFreq r).

Lemma frequency_table_pos :
  length freq = r /\ Forall (fun p => 0 < p) freq.
Proof.
  unfold positive_background in background_ok.
  fold (frequency_table AminoAcid AminoAcidFreq r) in background_ok.
  apply andb_true_iff in background_ok. destruct background_ok as [Hlen Hpos].
  apply Nat.eqb_eq in Hlen. split; [exact Hlen|].
  apply Forall_forall. intros p Hp. rewrite forallb_forall in Hpos.
  specialize (Hpos p Hp). apply negb_true_iff in Hpos.
  apply Qnot_le_lt. intros Hle. apply Qle_bool_iff in Hle. congruence.
Qed.

Lemma spec_P_pos (a : nat) : (a < r)%nat -> 0 < spec_P freq a.
Proof.
  intros Ha. destruct frequency_table_pos as [Hlen Hpos].
  assert (Hne : freq <> []).
  { intros E. rewrite E in Hlen. simpl in Hlen. lia. }
  pose proof (Qsum_pos Hpos Hne) as HS.
  rewrite Forall_forall in Hpos.
  assert (Hp : 0 < nth a freq 0) by (apply Hpos, nth_In; lia).
  unfold spec_P. apply Qlt_shift_div_l; lra.
Qed.

Lemma background_values :
  background AminoAcid AminoAcidFreq r =
  map (fun a => Finite (spec_P freq a)) (seq 0 r).
Proof.
  destruct frequency_table_pos as [Hlen Hpos].
  unfold background. fold (frequency_table AminoAcid AminoAcidFreq r).
  rewrite sum_map_Finite.
  apply nth_ext with (d := NaN) (d' := NaN).
  { now rewrite !length_map, length_seq. }
  intros a Ha. rewrite length_map, Hlen in Ha.
  rewrite (nth_map_in _ _ NaN 0) by lia. rewrite (nth_map_seq _ NaN Ha).
  apply div_finite. intros E.
  assert (Hne : freq <> []).
  { intros E'. rewrite E' in Hlen. simpl in Hlen. lia. }
  pose proof (Qsum_pos Hpos Hne). lra.
Qed.

Lemma q_mat_values :
  q_mat AminoAcid AminoAcidFreq BLOSUM62 exp r =
  map (fun a => map (fun b => Finite (spec_Q freq BLOSUM62 exp a b)) (seq 0 r)) (seq 0 r).
Proof.
  unfold q_mat, mat_map2, outer. rewrite background_values.
  rewrite !map_map, map2_map_map.
  apply map_ext. intros a. rewrite !map_map, map2_map_map.
  apply map_ext. intros b. reflexivity.
Qed.

(** The estimate [g_i] of the code is the estimate of the specification. *)
Lemma prior_estimate_spec (f : list npfloat) :
  length f = r ->
  Forall (fun x => fin_nonneg x = true) f ->
  fin_pos (Np.sum f) = true ->
  prior_estimate AminoAcid AminoAcidFreq BLOSUM62 exp r f =
  map Finite (spec_g freq BLOSUM62 exp (map Np.val f)).
Proof.
  intros Hlen Hnn Hsum.
  destruct (@prior_estimate_normalized AminoAcid AminoAcidFreq BLOSUM62 exp r exp_pos
              background_ok f Hlen Hnn Hsum)
    as [_ [Hfin _]].
  revert Hfin. unfold prior_estimate, spec_g. rewrite length_map, Hlen.
  set (fq := map Np.val f).
  assert (Hf : f = map (fun a => Finite (nth a fq 0)) (seq 0 r)).
  { rewrite (list_as_seq f (Finite 0)) at 1. rewrite Hlen.
    apply map_ext_in. intros a Ha. apply in_seq in Ha.
    unfold fq. rewrite (nth_map_in _ _ 0 (Finite 0)) by lia.
    assert (Hin : In (nth a f (Finite 0)) f) by (apply nth_In; lia).
    rewrite Forall_forall in Hnn. apply Hnn, fin_nonneg_spec in Hin.
    destruct Hin as [q [-> _]]. reflexivity. }
  set (v := map (fun b =>
                   Qsum (map (fun a => nth a fq 0 / spec_P freq a
                                       * spec_Q freq BLOSUM62 exp a b) (seq 0 r)))
                (seq 0 r)).
  assert (Hraw : vecmat r (map2 Np.div f (background AminoAcid AminoAcidFreq r))
                        (q_mat AminoAcid AminoAcidFreq BLOSUM62 exp r)
                 = map Finite v).
  { rewrite background_values, q_mat_values. rewrite Hf at 1. rewrite map2_map_map.
    unfold vecmat, sum_axis0, v. rewrite map_map.
    apply map_ext_in. intros b Hb. apply in_seq in Hb.
    rewrite column_map2, map2_map_map.
    rewrite <- sum_map_Finite_of. f_equal.
    apply map_ext_in. intros a Ha. apply in_seq in Ha.
    rewrite map_map, (nth_map_seq _ (Finite 0)) by lia.
    rewrite div_finite; [reflexivity|].
    assert (0 < spec_P freq a) by (apply spec_P_pos; lia). lra. }
  rewrite Hraw, sum_map_Finite, !map_map. intros Hfin.
  apply map_ext_in. intros x Hx. apply div_finite. intros E.
  rewrite Forall_forall in Hfin.
  apply (@signed_inf_not_finite x).
  assert (Hin : In (Np.div (Finite x) (Finite (Qsum v)))
                   (map (fun x => Np.div (Finite x) (Finite (Qsum v))) v))
    by (apply in_map_iff; eauto).
  apply Hfin in Hin. revert Hin. cbn [Np.div].
  apply Qeq_bool_iff in E. now rewrite E.
Qed.

End PriorEstimate.

Lemma conserved_positive_sum (f : list npfloat) :
  conserved f = true ->
  Forall (fun x => fin_nonneg x = true) f /\ fin_pos (Np.sum f) = true.
Proof.
  unfold conserved. intros Hc. apply andb_true_iff in Hc. destruct Hc as [Hnn Hcount].
  apply Nat.eqb_eq in Hcount.
  assert (Hn : Forall (fun x => fin_nonneg x = true) f).
  { apply Forall_forall. rewrite forallb_forall in Hnn. exact Hnn. }
  split; [exact Hn|]. apply sum_pos; [exact Hn|].
  clear Hnn. induction Hn as [|x l Hx Hl IH]; [discriminate|].
  apply fin_nonneg_spec in Hx. destruct Hx as [q [-> Hq]].
  destruct (Qeq_bool q 0) eqn:E.
  - right. apply IH. unfold count_true in *. simpl in Hcount. rewrite E in Hcount.
    exact Hcount.
  - left. apply fin_pos_spec. exists q. split; [reflexivity|].
    apply Qeq_bool_neq in E. lra.
Qed.

(** C6: on a fully conserved row of the input profile, [alpha] is zero
    and, over exact numbers, the output row of [sequence_profile_with_prior]
    is the estimate [g = normalize((f / P) . Q)] of the specification, entry
    by entry: [beta] cancels. *)
Theorem conserved_row_is_prior_estimate (AminoAcid : dict Z)
  (AminoAcidFreq : ascii -> Q) (BLOSUM62 : nat -> nat -> Z) (exp : Q -> Q)
  (prof_freq : list (list npfloat)) (i : nat) :
  let R := shape1 prof_freq in
  let f_i := nth i prof_freq [] in
  (forall x, 0 < exp x) ->
  positive_background AminoAcid AminoAcidFreq R = true ->
  (i < length prof_freq)%nat ->
  rectangular R prof_freq ->
  conserved f_i = true ->
  pseudocount f_i = 0%Z /\
  Forall2 Np.eq
    (nth i (sequence_profile_with_prior AminoAcid AminoAcidFreq BLOSUM62 exp prof_freq) [])
    (map Finite (spec_g (frequency_table AminoAcid AminoAcidFreq R) BLOSUM62 exp
                        (map Np.val f_i))).
Proof.
  intros R f_i Hexp Hbg Hi Hrect Hc.
  destruct (conserved_positive_sum _ Hc) as [Hn Hsum].
  unfold conserved in Hc. apply andb_true_iff in Hc. destruct Hc as [_ Hcount].
  apply Nat.eqb_eq in Hcount.
  assert (Ha : pseudocount f_i = 0%Z).
  { unfold pseudocount. rewrite (count_positive_conserved Hn), Hcount. reflexivity. }
  split; [exact Ha|].
  assert (Hlen : length f_i = R).
  { unfold rectangular in Hrect. rewrite Forall_forall in Hrect.
    apply Hrect. now apply nth_In. }
  rewrite <- (@prior_estimate_spec AminoAcid AminoAcidFreq BLOSUM62 exp R Hexp Hbg f_i
                Hlen Hn Hsum).
  unfold sequence_profile_with_prior.
  rewrite (nth_indep _ [] (with_prior_row AminoAcid AminoAcidFreq BLOSUM62 exp R []))
    by (now rewrite length_map).
  rewrite (map_nth (with_prior_row AminoAcid AminoAcidFreq BLOSUM62 exp R)).
  fold f_i. unfold with_prior_row. rewrite Ha.
  apply Forall2_map2_r with (P := fun x => Np.is_finite x).
  - now rewrite prior_estimate_length.
  - now apply Forall_nonneg_finite.
  - intros x y Hx. now apply blend_zero_alpha.
Qed.

Lemma conserved_row_is_prior_estimate_witness :
  let prof := [[Finite 0; Finite 1; Finite 0]; [Finite 0.5; Finite 0.25; Finite 0.25]] in
  pseudocount (nth 0 prof []) = 0%Z /\
  Forall2 Np.eq
    (nth 0 (sequence_profile_with_prior sample_alphabet sample_freq sample_scores
              sample_exp prof) [])
    (map Finite (spec_g (frequency_table sample_alphabet sample_freq 3) sample_scores
                        sample_exp [0; 1; 0])).
Proof.
  intros prof.
  apply (@conserved_row_is_prior_estimate sample_alphabet sample_freq sample_scores
           sample_exp prof 0).
  - exact sample_exp_pos.
  - vm_compute. reflexivity.
  - simpl. lia.
  - repeat constructor.
  - vm_compute. reflexivity.
Defined.

(** C6 as stated fails in binary64: on the conserved row [0, 1] of a
    profile of two columns, with the sample frequencies and a substitution
    matrix of zeros, [alpha] is zero, [g] is
    [0.46511627906976744, 0.53488372093023251] and the output row is
    [0.46511627906976749, 0.53488372093023251]: the product [g * beta] and
    the quotient by [beta] round, and the first entry comes back one unit in
    the last place above [g]. *)
Lemma conserved_row_rounds_in_float64 :
  let f_i := [0; 1]%float in
  let g := Float64.prior_estimate sample_alphabet sample_freq64 zero_scores sample_exp64
             2 f_i in
  let out := nth 0 (Float64.sequence_profile_with_prior sample_alphabet sample_freq64
                      zero_scores sample_exp64 [f_i]) [] in
  Float64.pseudocount f_i = 0%Z /\
  g = [0x1.dc47711dc4771p-2; 0x1.11dc47711dc47p-1]%float /\
  out = [0x1.dc47711dc4772p-2; 0x1.11dc47711dc47p-1]%float /\
  out <> g.
Proof.
  intros f_i g out.
  assert (Eg : g = [0x1.dc47711dc4771p-2; 0x1.11dc47711dc47p-1]%float)
    by (vm_compute; reflexivity).
  assert (Eo : out = [0x1.dc47711dc4772p-2; 0x1.11dc47711dc47p-1]%float)
    by (vm_compute; reflexivity).
  split; [reflexivity|]. split; [exact Eg|]. split; [exact Eo|].
  rewrite Eg, Eo. intros H.
  apply (f_equal (fun l => PrimFloat.eqb (nth 0 l 0%float) 0x1.dc47711dc4771p-2)) in H.
  vm_compute in H. discriminate H.
Qed.

(** ** Pairwise profile *)

Lemma eq_sym_np (x y : npfloat) : Np.eq x y -> Np.eq y x.
Proof. destruct x, y; simpl; auto. intros H. now symmetry. Qed.

Lemma eq_trans_np (x y z : npfloat) : Np.eq x y -> Np.eq y z -> Np.eq x z.
Proof.
  destruct x, y, z; simpl; auto; try contradiction. intros H1 H2. now rewrite H1.
Qed.

Lemma add_eq_compat (x x' y y' : npfloat) :
  Np.eq x x' -> Np.eq y y' -> Np.eq (Np.add x y) (Np.add x' y').
Proof.
  destruct x, x', y, y'; simpl; auto; try contradiction.
  intros H1 H2. now rewrite H1, H2.
Qed.

Lemma sum_eq_compat (l l' : list npfloat) :
  Forall2 Np.eq l l' -> Np.eq (Np.sum l) (Np.sum l').
Proof.
  induction 1 as [|x y l l' Hxy _ IH]; [simpl; reflexivity|].
  rewrite !sum_cons. now apply add_eq_compat.
Qed.

Lemma div_eq_compat (x x' t : npfloat) :
  Np.eq x x' -> Np.eq (Np.div x t) (Np.div x' t).
Proof.
  destruct x as [a| | |], x' as [a'| | |]; simpl; auto; try contradiction;
    try (intros _; apply eq_refl_np).
  intros H. destruct t as [b| | |]; simpl; auto; try reflexivity.
  destruct (Qeq_bool b 0).
  - unfold Np.signed_inf. rewrite H. apply eq_refl_np.
  - simpl. now rewrite H.
Qed.

Lemma map_map2 {A B C D : Type} (g : C -> D) (h : A -> B -> C) (l1 : list A)
  (l2 : list B) :
  map g (map2 h l1 l2) = map2 (fun x y => g (h x y)) l1 l2.
Proof.
  revert l2; induction l1 as [|x r1 IH]; intros [|y r2]; simpl; auto.
  now rewrite IH.
Qed.

Lemma map2_map_l {A B C D : Type} (h : A -> B -> C) (g : D -> A) (l1 : list D)
  (l2 : list B) :
  map2 h (map g l1) l2 = map2 (fun x y => h (g x) y) l1 l2.
Proof.
  revert l2; induction l1 as [|x r1 IH]; intros [|y r2]; simpl; auto.
  now rewrite IH.
Qed.

Lemma Forall2_map2_ext {A B C : Type} (R : C -> C -> Prop) (P : A -> Prop)
  (Q : B -> Prop) (h1 h2 : A -> B -> C) (l1 : list A) (l2 : list B) :
  (forall x y, P x -> Q y -> R (h1 x y) (h2 x y)) ->
  Forall P l1 -> Forall Q l2 ->
  Forall2 R (map2 h1 l1 l2) (map2 h2 l1 l2).
Proof.
  intros Hh H1. revert l2. induction H1 as [|x r1 Hx _ IH]; intros l2 H2.
  - constructor.
  - destruct H2 as [|y r2 Hy H2]; simpl; constructor; auto.
Qed.

(** Two symbols of the alphabet are coded by [x * 22 + y] without
    collision. *)
Lemma combined_code (x y a b : Z) :
  in_alphabet x = true -> in_alphabet y = true ->
  (0 <= a)%Z -> (0 <= b < 22)%Z ->
  Z.eqb (x * 22 + y) (a * 22 + b) = (Z.eqb x a && Z.eqb y b)%bool.
Proof.
  unfold in_alphabet. intros Hx Hy Ha Hb.
  apply andb_true_iff in Hx, Hy. destruct Hx as [Hx1 Hx2], Hy as [Hy1 Hy2].
  apply Z.leb_le in Hx1, Hx2, Hy1, Hy2.
  destruct (Z.eqb_spec x a) as [E1|E1], (Z.eqb_spec y b) as [E2|E2]; simpl.
  - subst. apply Z.eqb_refl.
  - apply Z.eqb_neq. lia.
  - apply Z.eqb_neq. lia.
  - apply Z.eqb_neq. lia.
Qed.

Lemma mul_of_bool_eq (c : bool) (w : npfloat) :
  Np.is_finite w -> Np.eq (Np.mul (Np.of_bool c) w) (if c then w else Finite 0).
Proof.
  intros Hw. destruct w as [q| | |]; simpl in Hw; try contradiction.
  destruct c; simpl; ring.
Qed.

Lemma map2_ext_Forall {A B C : Type} (P : A -> Prop) (h1 h2 : A -> B -> C)
  (l1 : list A) (l2 : list B) :
  (forall x y, P x -> h1 x y = h2 x y) ->
  Forall P l1 -> map2 h1 l1 l2 = map2 h2 l1 l2.
Proof.
  intros Hh H1. revert l2. induction H1 as [|x r1 Hx _ IH]; intros [|y r2]; simpl; auto.
  now rewrite Hh, IH.
Qed.

(** The entry [i, j, a, b] of the pairwise profile, read off the rows of
    the matrix. *)
Lemma profile_combinatorial_nth (seq_mat : list (list Z)) (weights : list npfloat)
  (w_prof : list (list npfloat)) (i j a b : nat) :
  rectangular (shape1 seq_mat) seq_mat ->
  (i < shape1 seq_mat)%nat -> (j < shape1 seq_mat)%nat ->
  (a < shape1 w_prof)%nat -> (b < shape1 w_prof)%nat ->
  nth b (nth a (nth j (nth i (profile_combinatorial seq_mat weights w_prof) []) []) []) NaN
  = Np.div
      (Np.sum (map2 (fun row w =>
                       Np.mul (Np.of_bool (Z.eqb (nth i row 0 * 22 + nth j row 0)
                                                 (Z.of_nat a * 22 + Z.of_nat b))%Z) w)
                    seq_mat weights))
      (Np.sum weights).
Proof.
  intros Hrect Hi Hj Ha Hb.
  unfold profile_combinatorial. cbv zeta.
  rewrite (nth_map_seq _ [] Hi), (nth_map_seq _ [] Hj), (nth_map_seq _ [] Ha),
    (nth_map_seq _ NaN Hb).
  f_equal. unfold sum_axis0_planes.
  rewrite (nth_map_seq _ [] Hi), (nth_map_seq _ (Finite 0) Hj).
  f_equal. rewrite map_map2, map2_map_l.
  apply map2_ext_Forall with (P := fun row => length row = shape1 seq_mat);
    [|exact Hrect].
  intros row w Hl.
  rewrite map_map, (nth_map_in _ _ [] 0%Z) by lia.
  rewrite map_map, (nth_map_in _ _ (Finite 0) 0%Z) by lia.
  reflexivity.
Qed.

Lemma alphabet_entry (n c : nat) (row : list Z) :
  length row = n -> (c < n)%nat -> forallb in_alphabet row = true ->
  in_alphabet (nth c row 0%Z) = true.
Proof.
  intros Hl Hc Hr. rewrite forallb_forall in Hr. apply Hr, nth_In. lia.
Qed.

(** C2: for a sequence matrix with entries in 0..21 and finite weights,
    the entry [i, j, a, b] of [profile_combinatorial] is the sum of the
    weights of the rows with [a] in column [i] and [b] in column [j],
    divided by the sum of all the weights. *)
Theorem profile_combinatorial_entry (seq_mat : list (list Z)) (weights : list npfloat)
  (w_prof : list (list npfloat)) (i j a b : nat) :
  rectangular (shape1 seq_mat) seq_mat ->
  length weights = length seq_mat ->
  Forall (fun w => Np.is_finite w) weights ->
  Forall (fun row => forallb in_alphabet row = true) seq_mat ->
  (shape1 w_prof <= 22)%nat ->
  (i < shape1 seq_mat)%nat -> (j < shape1 seq_mat)%nat ->
  (a < shape1 w_prof)%nat -> (b < shape1 w_prof)%nat ->
  Np.eq
    (nth b (nth a (nth j (nth i (profile_combinatorial seq_mat weights w_prof) []) []) [])
         NaN)
    (Np.div (pair_weight seq_mat weights i j (Z.of_nat a) (Z.of_nat b)) (Np.sum weights)).
Proof.
  intros Hrect Hlen Hfin Hrange HR Hi Hj Ha Hb.
  rewrite (profile_combinatorial_nth _ _ Hrect Hi Hj Ha Hb).
  apply div_eq_compat. unfold pair_weight. apply sum_eq_compat.
  apply Forall2_map2_ext with
    (P := fun row => length row = shape1 seq_mat /\ forallb in_alphabet row = true)
    (Q := fun w => Np.is_finite w); auto.
  - intros row w [Hl Hr] Hw.
    rewrite combined_code; try lia.
    + now apply mul_of_bool_eq.
    + exact (@alphabet_entry _ _ _ Hl Hi Hr).
    + exact (@alphabet_entry _ _ _ Hl Hj Hr).
  - unfold rectangular in Hrect. rewrite Forall_forall in Hrect, Hrange.
    apply Forall_forall. intros row Hrow. split; auto.
Qed.

Lemma profile_combinatorial_entry_witness :
  let m := [[0; 1]; [0; 1]; [1; 0]]%Z in
  let w := [Finite 1; Finite 2; Finite 3] in
  let w_prof := [[Finite 0.5; Finite 0.5]] in
  Np.eq (nth 1 (nth 0 (nth 1 (nth 0 (profile_combinatorial m w w_prof) []) []) []) NaN)
        (Np.div (pair_weight m w 0 1 0 1) (Np.sum w)).
Proof.
  intros m w w_prof.
  apply (@profile_combinatorial_entry m w w_prof 0 1 0 1).
  - repeat constructor.
  - reflexivity.
  - repeat constructor.
  - repeat constructor.
  - simpl. lia.
  - simpl. lia.
  - simpl. lia.
  - simpl. lia.
  - simpl. lia.
Defined.
(** ** Sequence weights *)

Lemma pdist_length (X : list (list Z)) :
  (2 * length (pdist X) = length X * (length X - 1))%nat.
Proof.
  induction X as [|x rest IH]; [reflexivity|].
  simpl pdist. rewrite length_app, length_map. simpl length. nia.
Qed.

Lemma upper_rows_pdist {A : Type} (f : npfloat -> A) (X : list (list Z)) :
  upper_rows (length X) (map f (pdist X)) = pair_rows f X.
Proof.
  induction X as [|x rest IH]; [reflexivity|].
  simpl. rewrite map_app, map_map.
  rewrite firstn_app, firstn_all2 by (now rewrite length_map).
  rewrite length_map, Nat.sub_diag, firstn_O, app_nil_r.
  rewrite skipn_app, skipn_all2 by (now rewrite length_map).
  rewrite length_map, Nat.sub_diag, skipn_O. simpl. now rewrite IH.
Qed.

Lemma pair_rows_nth {A : Type} (f : npfloat -> A) (d : A) (X : list (list Z)) (i j : nat) :
  (i < j)%nat -> (j < length X)%nat ->
  nth (j - i - 1) (nth i (pair_rows f X) []) d = f (hamming (nth i X []) (nth j X [])).
Proof.
  revert i j. induction X as [|x rest IH]; intros i j Hij Hj; simpl in Hj; [lia|].
  destruct i as [|i].
  - simpl. destruct j as [|j]; [lia|]. simpl.
    rewrite Nat.sub_0_r. rewrite (nth_map_in _ _ d []) by lia. reflexivity.
  - destruct j as [|j]; [lia|]. simpl. apply IH; lia.
Qed.

Lemma hamming_sym (u v : list Z) : length u = length v -> hamming u v = hamming v u.
Proof.
  intros H. unfold hamming. rewrite H. f_equal. f_equal. f_equal.
  revert v H. induction u as [|a u IH]; intros [|b v] H; simpl in H; try discriminate;
    [reflexivity|].
  simpl. rewrite (IH v) by lia. now rewrite Z.eqb_sym.
Qed.

Lemma sqrt_up_pairs (M : Z) : (2 <= M)%Z -> Z.sqrt_up (M * (M - 1)) = M.
Proof.
  intros H. apply Z.sqrt_up_unique; [lia|].
  replace (Z.pred M) with (M - 1)%Z by lia. nia.
Qed.

(** On at least two rows, [squareform] rebuilds the symmetric matrix of
    the pairwise tests, with a diagonal of [False]. *)
Lemma squareform_pdist (f : npfloat -> bool) (X : list (list Z)) :
  (2 <= length X)%nat ->
  squareform (map f (pdist X)) =
  Ok (map (fun i =>
             map (fun j =>
                    if i <? j then nth (j - i - 1) (nth i (pair_rows f X) []) false
                    else if j <? i then nth (i - j - 1) (nth j (pair_rows f X) []) false
                    else false)
                 (seq 0 (length X)))
          (seq 0 (length X))).
Proof.
  intros HM. pose proof (pdist_length X) as HL.
  unfold squareform.
  destruct (map f (pdist X)) as [|b v] eqn:Ev.
  - apply (f_equal (@length bool)) in Ev. rewrite length_map in Ev. simpl in Ev. nia.
  - rewrite <- Ev, length_map.
    assert (Hd : Z.to_nat (Z.sqrt_up (2 * Z.of_nat (length (pdist X)))) = length X).
    { replace (2 * Z.of_nat (length (pdist X)))%Z
        with (Z.of_nat (length X) * (Z.of_nat (length X) - 1))%Z by nia.
      rewrite sqrt_up_pairs by lia. apply Nat2Z.id. }
    rewrite Hd.
    replace (length X * (length X - 1) =? 2 * length (pdist X))%nat with true
      by (symmetry; apply Nat.eqb_eq; lia).
    now rewrite upper_rows_pdist.
Qed.

Lemma filter_length_ext {A : Type} (f g : A -> bool) (l : list A) :
  (forall x, In x l -> f x = g x) -> length (filter f l) = length (filter g l).
Proof. intros H. now rewrite (filter_ext_in _ _ _ H). Qed.

Lemma inject_Z_nonzero (z : Z) : z <> 0%Z -> ~ inject_Z z == 0.
Proof. intros H E. unfold Qeq in E. simpl in E. lia. Qed.

(** On at least two rows of one length, the weights in closed form. *)
Lemma sequence_weights_closed_form (seq_mat : list (list Z)) :
  (2 <= length seq_mat)%nat ->
  rectangular (shape1 seq_mat) seq_mat ->
  sequence_weights seq_mat =
  Ok (map (fun r => Finite (1 / inject_Z (1 + Z.of_nat (near_duplicates seq_mat r))))
          (seq 0 (length seq_mat))).
Proof.
  intros HM Hrect. unfold sequence_weights.
  rewrite squareform_pdist by exact HM. cbn [bind].
  set (M := length seq_mat) in *.
  assert (Hs1 : forall G : nat -> list bool,
             shape1 (map G (seq 0 M)) = length (G 0%nat)).
  { intros G. destruct M as [|M']; [lia|]. reflexivity. }
  rewrite Hs1, !length_map, !length_seq, Nat.eqb_refl.
  f_equal. rewrite map_map. apply map_ext_in. intros r Hr. apply in_seq in Hr.
  unfold Np.of_Z. rewrite div_finite.
  2:{ apply inject_Z_nonzero. lia. }
  f_equal. f_equal. f_equal. f_equal. f_equal.
  unfold column. rewrite map_map, count_true_map. unfold near_duplicates. fold M.
  apply filter_length_ext. intros k Hk. apply in_seq in Hk.
  rewrite (nth_map_seq _ false) by lia.
  unfold rectangular in Hrect. rewrite Forall_forall in Hrect.
  assert (Hlen : forall a, (a < M)%nat -> length (nth a seq_mat []) = shape1 seq_mat).
  { intros a Ha. apply Hrect, nth_In. exact Ha. }
  destruct (Nat.ltb_spec k r) as [H1|H1].
  - rewrite pair_rows_nth by lia.
    replace (k =? r)%nat with false by (symmetry; apply Nat.eqb_neq; lia).
    simpl. unfold near_duplicate. rewrite hamming_sym; [reflexivity|].
    rewrite !Hlen; lia.
  - destruct (Nat.ltb_spec r k) as [H2|H2].
    + rewrite pair_rows_nth by lia.
      replace (k =? r)%nat with false by (symmetry; apply Nat.eqb_neq; lia).
      reflexivity.
    + replace (k =? r)%nat with true by (symmetry; apply Nat.eqb_eq; lia).
      reflexivity.
Qed.

(** C4: on at least two rows, [sequence_weights] returns one weight per
    row, and the weight of row [r] is 1 / (1 + the number of other rows whose
    Hamming distance to row [r] is below 0.38). *)
Theorem sequence_weights_spec (seq_mat : list (list Z)) :
  (2 <= length seq_mat)%nat ->
  rectangular (shape1 seq_mat) seq_mat ->
  exists weights,
    sequence_weights seq_mat = Ok weights /\
    length weights = length seq_mat /\
    forall r, (r < length seq_mat)%nat ->
      nth r weights NaN =
      Finite (1 / inject_Z (1 + Z.of_nat (near_duplicates seq_mat r))).
Proof.
  intros HM Hrect. rewrite (sequence_weights_closed_form HM Hrect).
  eexists. split; [reflexivity|]. split.
  - now rewrite length_map, length_seq.
  - intros r Hr. now rewrite (nth_map_seq _ NaN Hr).
Qed.

Lemma sequence_weights_spec_witness :
  let m := [[0; 1; 2]; [0; 1; 3]; [0; 21; 2]; [5; 5; 5]]%Z in
  (2 <= length m)%nat /\ rectangular (shape1 m) m /\
  exists weights,
    sequence_weights m = Ok weights /\
    length weights = length m /\
    forall r, (r < length m)%nat ->
      nth r weights NaN = Finite (1 / inject_Z (1 + Z.of_nat (near_duplicates m r))).
Proof.
  intros m.
  assert (H2 : (2 <= length m)%nat) by (simpl; lia).
  assert (Hr : rectangular (shape1 m) m) by (repeat constructor).
  split; [exact H2|]. split; [exact Hr|].
  exact (@sequence_weights_spec m H2 Hr).
Defined.
(** ** Mutual information *)

Lemma mapi_from_length {A B : Type} (f : nat -> A -> B) (l : list A) (k : nat) :
  length (mapi_from k f l) = length l.
Proof. revert k; induction l as [|x l IH]; intros k; simpl; auto. Qed.

Lemma mapi_from_nth {A B : Type} (f : nat -> A -> B) (l : list A) (k i : nat)
  (d : B) (d' : A) :
  (i < length l)%nat -> nth i (mapi_from k f l) d = f (k + i)%nat (nth i l d').
Proof.
  revert k i; induction l as [|x l IH]; intros k i H; simpl in H; [lia|].
  destruct i as [|i]; simpl.
  - now rewrite Nat.add_0_r.
  - rewrite IH by lia. f_equal. lia.
Qed.

Lemma mapi_nth {A B : Type} (f : nat -> A -> B) (l : list A) (i : nat) (d : B) (d' : A) :
  (i < length l)%nat -> nth i (mapi f l) d = f i (nth i l d').
Proof. intros H. unfold mapi. now rewrite (mapi_from_nth f l 0 d d' H). Qed.

Lemma mapi_length {A B : Type} (f : nat -> A -> B) (l : list A) :
  length (mapi f l) = length l.
Proof. apply mapi_from_length. Qed.

Lemma square_nth_length {A : Type} (n : nat) (m : list (list A)) (i : nat) :
  square n m -> (i < n)%nat -> length (nth i m []) = n.
Proof.
  intros [Hl Hr] Hi. unfold rectangular in Hr. rewrite Forall_forall in Hr.
  apply Hr, nth_In. lia.
Qed.

Lemma all_finite_nth (m : list (list npfloat)) (n i j : nat) :
  square n m -> all_finite m -> (i < n)%nat -> (j < n)%nat ->
  Np.is_finite (nth j (nth i m []) NaN).
Proof.
  intros Hs Hf Hi Hj. pose proof (square_nth_length Hs Hi) as Hl.
  destruct Hs as [Hlen _]. unfold all_finite in Hf. rewrite Forall_forall in Hf.
  assert (Hrow : Forall (fun x => Np.is_finite x) (nth i m [])).
  { apply Hf, nth_In. lia. }
  rewrite Forall_forall in Hrow. apply Hrow, nth_In. lia.
Qed.

Lemma mat_map2_square {A B C : Type} (f : A -> B -> C) (n : nat)
  (m1 : list (list A)) (m2 : list (list B)) :
  square n m1 -> square n m2 -> square n (mat_map2 f m1 m2).
Proof.
  intros [L1 R1] [L2 R2]. unfold mat_map2. split.
  - rewrite map2_length, L1, L2. apply Nat.min_id.
  - apply Forall_map2 with (P := fun row => length row = n)
                           (Q := fun row => length row = n); auto.
    intros r1 r2 H1 H2. rewrite map2_length, H1, H2. apply Nat.min_id.
Qed.

Lemma mat_map2_nth {A B C : Type} (f : A -> B -> C) (n : nat)
  (m1 : list (list A)) (m2 : list (list B)) (i j : nat) (d : C) (d1 : A) (d2 : B) :
  square n m1 -> square n m2 -> (i < n)%nat -> (j < n)%nat ->
  nth j (nth i (mat_map2 f m1 m2) []) d =
  f (nth j (nth i m1 []) d1) (nth j (nth i m2 []) d2).
Proof.
  intros S1 S2 Hi Hj. unfold mat_map2.
  rewrite (map2_nth (map2 f) m1 m2 [] [] []) by (destruct S1, S2; lia).
  apply map2_nth;
    [rewrite (square_nth_length S1 Hi) | rewrite (square_nth_length S2 Hi)]; exact Hj.
Qed.

Lemma mat_map2_finite (f : npfloat -> npfloat -> npfloat)
  (m1 m2 : list (list npfloat)) :
  (forall x y, Np.is_finite x -> Np.is_finite y -> Np.is_finite (f x y)) ->
  all_finite m1 -> all_finite m2 -> all_finite (mat_map2 f m1 m2).
Proof.
  intros Hf H1 H2. unfold all_finite, mat_map2.
  apply Forall_map2 with (P := Forall (fun x => Np.is_finite x))
                         (Q := Forall (fun x => Np.is_finite x)); auto.
  intros r1 r2 F1 F2.
  apply Forall_map2 with (P := fun x => Np.is_finite x) (Q := fun x => Np.is_finite x); auto.
Qed.

Lemma map_map_square {A B : Type} (f : A -> B) (n : nat) (m : list (list A)) :
  square n m -> square n (map (map f) m).
Proof.
  intros [L R]. split; [now rewrite length_map|].
  unfold rectangular in *. apply Forall_forall. intros row Hrow.
  apply in_map_iff in Hrow. destruct Hrow as [r0 [<- H0]]. rewrite length_map.
  rewrite Forall_forall in R. now apply R.
Qed.

Lemma mapi_mapi_square {A B : Type} (f : nat -> nat -> A -> B) (n : nat)
  (m : list (list A)) :
  square n m -> square n (mapi (fun i => mapi (f i)) m).
Proof.
  intros [L R]. split; [now rewrite mapi_length|].
  unfold rectangular in *. apply Forall_forall. intros row Hrow.
  apply In_nth with (d := []) in Hrow. destruct Hrow as [i [Hi <-]].
  rewrite mapi_length in Hi. rewrite (mapi_nth _ _ [] [] Hi), mapi_length.
  rewrite Forall_forall in R. apply R, nth_In, Hi.
Qed.

Lemma outer_square {A C : Type} (f : A -> A -> C) (n : nat) (u : list A) :
  length u = n -> square n (outer f u u).
Proof.
  intros H. unfold outer. split; [now rewrite length_map|].
  apply Forall_forall. intros row Hrow. apply in_map_iff in Hrow.
  destruct Hrow as [x [<- _]]. now rewrite length_map.
Qed.

Lemma outer_finite (f : npfloat -> npfloat -> npfloat) (u : list npfloat) :
  (forall x y, Np.is_finite x -> Np.is_finite y -> Np.is_finite (f x y)) ->
  Forall (fun x => Np.is_finite x) u -> all_finite (outer f u u).
Proof.
  intros Hf Hu. unfold all_finite, outer. apply Forall_forall. intros row Hrow.
  apply in_map_iff in Hrow. destruct Hrow as [x [<- Hx]].
  apply Forall_forall. intros y Hy. apply in_map_iff in Hy.
  destruct Hy as [z [<- Hz]]. rewrite Forall_forall in Hu. auto.
Qed.

Lemma add_finite (x y : npfloat) :
  Np.is_finite x -> Np.is_finite y -> Np.is_finite (Np.add x y).
Proof. destruct x, y; simpl; auto. Qed.

Lemma sub_finite (x y : npfloat) :
  Np.is_finite x -> Np.is_finite y -> Np.is_finite (Np.sub x y).
Proof. destruct x, y; simpl; auto. Qed.

Lemma mul_finite (x y : npfloat) :
  Np.is_finite x -> Np.is_finite y -> Np.is_finite (Np.mul x y).
Proof. destruct x, y; simpl; intros Hx Hy; try contradiction; exact I. Qed.

Lemma neg_finite (x : npfloat) : Np.is_finite x -> Np.is_finite (Np.neg x).
Proof. destruct x; simpl; auto. Qed.

Lemma div_nonzero_finite (x y : npfloat) :
  Np.is_finite x -> fin_nonzero y = true -> Np.is_finite (Np.div x y).
Proof.
  destruct x as [a| | |], y as [b| | |]; simpl; intros Hx Hy;
    try contradiction; try discriminate.
  apply negb_true_iff in Hy. now rewrite Hy.
Qed.

Lemma sum_all_finite (l : list npfloat) :
  Forall (fun x => Np.is_finite x) l -> Np.is_finite (Np.sum l).
Proof. intros H. now rewrite (sum_finite H). Qed.

Lemma of_Z_nonzero (z : Z) : z <> 0%Z -> fin_nonzero (Np.of_Z z) = true.
Proof.
  intros H. simpl. apply negb_true_iff. destruct (Qeq_bool (inject_Z z) 0) eqn:E; auto.
  apply Qeq_bool_iff in E. now apply inject_Z_nonzero in E.
Qed.

(** *** Taking the diagonal off *)

Lemma no_diag_square (n : nat) (mat : list (list npfloat)) :
  square n mat -> square n (no_diag mat).
Proof.
  intros H. unfold no_diag. apply mat_map2_square; [apply mat_map2_square|].
  - now apply map_map_square.
  - now apply mapi_mapi_square.
  - now apply mapi_mapi_square.
Qed.

Lemma triu_nth (n : nat) (mat : list (list npfloat)) (i j : nat) :
  square n mat -> (i < n)%nat -> (j < n)%nat ->
  nth j (nth i (triu mat) []) NaN =
  if j <? i then Finite 0 else nth j (nth i mat []) NaN.
Proof.
  intros Hs Hi Hj. unfold triu.
  rewrite (mapi_nth _ _ [] []) by (destruct Hs; lia).
  rewrite (mapi_nth _ _ NaN NaN) by (rewrite (square_nth_length Hs Hi); exact Hj).
  reflexivity.
Qed.

Lemma tril_nth (n : nat) (mat : list (list npfloat)) (i j : nat) :
  square n mat -> (i < n)%nat -> (j < n)%nat ->
  nth j (nth i (tril mat) []) NaN =
  if i <? j then Finite 0 else nth j (nth i mat []) NaN.
Proof.
  intros Hs Hi Hj. unfold tril.
  rewrite (mapi_nth _ _ [] []) by (destruct Hs; lia).
  rewrite (mapi_nth _ _ NaN NaN) by (rewrite (square_nth_length Hs Hi); exact Hj).
  reflexivity.
Qed.

Lemma no_diag_nth (n : nat) (mat : list (list npfloat)) (i j : nat) :
  square n mat -> (i < n)%nat -> (j < n)%nat ->
  nth j (nth i (no_diag mat) []) NaN =
  Np.sub (Np.sub (Np.mul (Finite 2) (nth j (nth i mat []) NaN))
                 (if j <? i then Finite 0 else nth j (nth i mat []) NaN))
         (if i <? j then Finite 0 else nth j (nth i mat []) NaN).
Proof.
  intros Hs Hi Hj. unfold no_diag.
  assert (S2 : square n (map (map (Np.mul (Finite 2))) mat)) by now apply map_map_square.
  assert (S3 : square n (triu mat)) by now apply mapi_mapi_square.
  assert (S4 : square n (tril mat)) by now apply mapi_mapi_square.
  rewrite (mat_map2_nth Np.sub NaN NaN NaN (mat_map2_square Np.sub S2 S3) S4 Hi Hj).
  rewrite (mat_map2_nth Np.sub NaN NaN NaN S2 S3 Hi Hj).
  rewrite (triu_nth Hs Hi Hj), (tril_nth Hs Hi Hj).
  f_equal. f_equal.
  rewrite (nth_map_in _ _ [] []) by (destruct Hs; lia).
  rewrite (nth_map_in _ _ NaN NaN) by (rewrite (square_nth_length Hs Hi); exact Hj).
  reflexivity.
Qed.

(** The diagonal of [no_diag mat] is zero wherever [mat] is finite. *)
Lemma no_diag_diagonal (n : nat) (mat : list (list npfloat)) (i : nat) :
  square n mat -> (i < n)%nat ->
  Np.is_finite (nth i (nth i mat []) NaN) ->
  Np.eq (nth i (nth i (no_diag mat) []) NaN) (Finite 0).
Proof.
  intros Hs Hi Hf. rewrite (no_diag_nth Hs Hi Hi), Nat.ltb_irrefl.
  destruct (nth i (nth i mat []) NaN) as [x| | |]; simpl in Hf; try contradiction.
  simpl. ring.
Qed.

Lemma no_diag_finite (n : nat) (mat : list (list npfloat)) :
  square n mat -> all_finite mat -> all_finite (no_diag mat).
Proof.
  intros Hs Hf. pose proof (no_diag_square Hs) as Hs'.
  unfold all_finite. apply Forall_forall. intros row Hrow.
  apply In_nth with (d := []) in Hrow. destruct Hrow as [i [Hi <-]].
  destruct Hs' as [Hl' Hr']. rewrite Hl' in Hi.
  apply Forall_forall. intros y Hy. apply In_nth with (d := NaN) in Hy.
  destruct Hy as [j [Hj <-]].
  rewrite (square_nth_length (conj Hl' Hr') Hi) in Hj.
  rewrite (no_diag_nth Hs Hi Hj).
  pose proof (all_finite_nth Hs Hf Hi Hj) as Hx.
  destruct (nth j (nth i mat []) NaN) as [x| | |]; simpl in Hx; try contradiction.
  destruct (j <? i), (i <? j); exact I.
Qed.
Section MutualInformation.

Variable log : Q -> Q.
Hypothesis log_21 : ~ log 21 == 0.

Lemma entropy_term_finite (p : npfloat) :
  fin_nonneg p = true -> Np.is_finite (entropy_term log p).
Proof.
  intros H. apply fin_nonneg_spec in H. destruct H as [a [-> Ha]].
  unfold entropy_term.
  assert (H0 : 0 < 1e-7) by reflexivity.
  assert (Hpos : 0 < a + 1e-7).
  { apply (Qlt_le_trans _ (0 + 1e-7)).
    - now rewrite Qplus_0_l.
    - apply Qplus_le_compat; [exact Ha | apply Qle_refl]. }
  apply div_nonzero_finite.
  - apply mul_finite; [exact I|]. cbn [Np.add np_log].
    apply Qgt_alt in Hpos. now rewrite Hpos.
  - cbn [np_log]. change (21 ?= 0) with Gt. cbn iota. cbn [fin_nonzero].
    apply negb_true_iff. destruct (Qeq_bool (log 21) 0) eqn:E; auto.
    apply Qeq_bool_iff in E. contradiction.
Qed.

Lemma entropy_sum_finite (l : list npfloat) :
  Forall (fun x => fin_nonneg x = true) l ->
  Np.is_finite (Np.sum (map (entropy_term log) l)).
Proof.
  intros H. apply sum_all_finite. apply Forall_forall. intros y Hy.
  apply in_map_iff in Hy. destruct Hy as [p [<- Hp]].
  rewrite Forall_forall in H. now apply entropy_term_finite, H.
Qed.

Lemma Forall_concat {A : Type} (P : A -> Prop) (ll : list (list A)) :
  Forall (Forall P) ll -> Forall P (concat ll).
Proof.
  induction 1 as [|l ll Hl _ IH]; simpl; [constructor|].
  apply Forall_app. split; assumption.
Qed.

Variable prof_1D : list (list npfloat).
Variable prof_2D : list (list (list (list npfloat))).

Hypothesis freq_1D : frequencies_1D prof_1D.
Hypothesis freq_2D : frequencies_2D prof_2D.
Hypothesis shape_2D : square (length prof_1D) prof_2D.

Lemma entropy_1D_finite :
  length (entropy_1D log prof_1D) = length prof_1D /\
  Forall (fun x => Np.is_finite x) (entropy_1D log prof_1D).
Proof.
  unfold entropy_1D. split; [now rewrite length_map|].
  apply Forall_forall. intros y Hy. apply in_map_iff in Hy.
  destruct Hy as [row [<- Hrow]]. apply entropy_sum_finite.
  unfold frequencies_1D in freq_1D. rewrite Forall_forall in freq_1D. now apply freq_1D.
Qed.

Lemma entropy_2D_finite :
  square (length prof_1D) (entropy_2D log prof_2D) /\
  all_finite (entropy_2D log prof_2D).
Proof.
  unfold entropy_2D. split; [now apply map_map_square|].
  unfold all_finite. apply Forall_forall. intros row Hrow.
  apply in_map_iff in Hrow. destruct Hrow as [r0 [<- Hr0]].
  apply Forall_forall. intros y Hy. apply in_map_iff in Hy.
  destruct Hy as [block [<- Hb]]. apply entropy_sum_finite, Forall_concat.
  unfold frequencies_2D in freq_2D. rewrite Forall_forall in freq_2D.
  specialize (freq_2D r0 Hr0). rewrite Forall_forall in freq_2D. now apply freq_2D.
Qed.

Lemma mi_matrix_finite :
  square (length prof_1D) (mi_matrix log prof_1D prof_2D) /\
  all_finite (mi_matrix log prof_1D prof_2D).
Proof.
  destruct entropy_1D_finite as [L1 F1]. destruct entropy_2D_finite as [[L2 R2] F2].
  unfold mi_matrix.
  set (H_1D := entropy_1D log prof_1D) in *. set (H_2D := entropy_2D log prof_2D) in *.
  set (raw := map2 _ H_2D H_1D).
  assert (Hraw : square (length prof_1D) raw /\ all_finite raw).
  { split; [split|].
    - unfold raw. rewrite map2_length, L1, L2. apply Nat.min_id.
    - unfold raw. apply Forall_map2 with (P := fun row => length row = length prof_1D)
                                         (Q := fun _ => True); auto.
      + intros r h Hr _. rewrite map2_length, Hr, L1. apply Nat.min_id.
      + apply Forall_forall. auto.
    - unfold raw, all_finite.
      apply Forall_map2 with (P := Forall (fun x => Np.is_finite x))
                             (Q := fun x => Np.is_finite x); auto.
      intros r h Hr Hh.
      apply Forall_map2 with (P := fun x => Np.is_finite x)
                             (Q := fun x => Np.is_finite x); auto.
      intros x y Hx Hy. apply add_finite; auto. apply add_finite; auto.
      now apply neg_finite. }
  destruct Hraw as [Sraw Fraw]. split.
  - now apply no_diag_square.
  - now apply (no_diag_finite Sraw).
Qed.

Lemma mi_matrix_diagonal (i : nat) :
  (i < length prof_1D)%nat ->
  Np.eq (nth i (nth i (mi_matrix log prof_1D prof_2D) []) NaN) (Finite 0).
Proof.
  intros Hi.
  destruct entropy_1D_finite as [L1 F1]. destruct entropy_2D_finite as [[L2 R2] F2].
  unfold mi_matrix.
  set (H_1D := entropy_1D log prof_1D) in *. set (H_2D := entropy_2D log prof_2D) in *.
  set (raw := map2 _ H_2D H_1D).
  assert (Sraw : square (length prof_1D) raw).
  { split.
    - unfold raw. rewrite map2_length, L1, L2. apply Nat.min_id.
    - unfold raw. apply Forall_map2 with (P := fun row => length row = length prof_1D)
                                         (Q := fun _ => True); auto.
      + intros r h Hr _. rewrite map2_length, Hr, L1. apply Nat.min_id.
      + apply Forall_forall. auto. }
  assert (Fraw : all_finite raw).
  { unfold raw, all_finite.
    apply Forall_map2 with (P := Forall (fun x => Np.is_finite x))
                           (Q := fun x => Np.is_finite x); auto.
    intros r h Hr Hh.
    apply Forall_map2 with (P := fun x => Np.is_finite x)
                           (Q := fun x => Np.is_finite x); auto.
    intros x y Hx Hy. apply add_finite; auto. apply add_finite; auto.
    now apply neg_finite. }
  apply (no_diag_diagonal Sraw Hi). now apply (all_finite_nth Sraw Fraw).
Qed.

Hypothesis two_columns : (2 <= length prof_1D)%nat.

Lemma mi_row_average_finite :
  length (mi_row_average (length prof_1D) (mi_matrix log prof_1D prof_2D))
  = length prof_1D /\
  Forall (fun x => Np.is_finite x)
         (mi_row_average (length prof_1D) (mi_matrix log prof_1D prof_2D)).
Proof.
  destruct mi_matrix_finite as [[L R] F]. unfold mi_row_average, sum_axis1.
  split; [now rewrite !length_map|].
  apply Forall_forall. intros y Hy. apply in_map_iff in Hy.
  destruct Hy as [s [<- Hs]]. apply in_map_iff in Hs. destruct Hs as [row [<- Hrow]].
  apply div_nonzero_finite.
  - apply sum_all_finite. unfold all_finite in F. rewrite Forall_forall in F. now apply F.
  - apply of_Z_nonzero. lia.
Qed.

Lemma mi_average_finite :
  Np.is_finite (mi_average (length prof_1D) (mi_matrix log prof_1D prof_2D)).
Proof.
  destruct mi_matrix_finite as [_ F]. unfold mi_average.
  apply div_nonzero_finite; [apply div_nonzero_finite|].
  - apply sum_all_finite. now apply Forall_concat.
  - apply of_Z_nonzero. lia.
  - apply of_Z_nonzero. lia.
Qed.

End MutualInformation.
(** C3, as the code has it: for profiles of finite non-negative
    frequencies (and a logarithm that is not zero at 21), the MI channel of
    the coupling tensor is zero on the diagonal; with at least two columns
    the MIa channel is too, and so is the MIp channel when the average
    [MI_av] is not zero. *)
Theorem mutual_information_diagonal (log : Q -> Q) (prof_1D : list (list npfloat))
  (prof_2D : list (list (list (list npfloat)))) (i : nat) :
  let L := length prof_1D in
  let feats := nth i (nth i (mutual_information log prof_1D prof_2D) []) [] in
  ~ log 21 == 0 ->
  frequencies_1D prof_1D ->
  frequencies_2D prof_2D ->
  square L prof_2D ->
  (i < L)%nat ->
  Np.eq (nth 0 feats NaN) (Finite 0) /\
  ((2 <= L)%nat -> Np.eq (nth 3 feats NaN) (Finite 0)) /\
  ((2 <= L)%nat ->
   fin_nonzero (mi_average L (mi_matrix log prof_1D prof_2D)) = true ->
   Np.eq (nth 2 feats NaN) (Finite 0)).
Proof.
  intros L feats Hlog F1 F2 S2 Hi.
  destruct (@mi_matrix_finite log Hlog prof_1D prof_2D F1 F2 S2) as [SMI FMI].
  destruct (@entropy_2D_finite log Hlog prof_1D prof_2D F2 S2) as [SH2 _].
  fold L in SMI, SH2.
  unfold feats, mutual_information. fold L.
  set (MI := mi_matrix log prof_1D prof_2D) in *.
  set (MI_1D := mi_row_average L MI). set (MI_av := mi_average L MI).
  set (APC := outer _ MI_1D MI_1D). set (ASC := outer _ MI_1D MI_1D).
  set (MIr := mat_map2 Np.div MI _).
  assert (L1D : length MI_1D = L).
  { unfold MI_1D, mi_row_average, sum_axis1. rewrite !length_map. now destruct SMI. }
  assert (SAPC : square L APC) by now apply outer_square.
  assert (SASC : square L ASC) by now apply outer_square.
  assert (SMIr : square L MIr).
  { apply mat_map2_square; auto. now apply map_map_square. }
  assert (SdP : square L (mat_map2 Np.sub MI APC)) by now apply mat_map2_square.
  assert (SdA : square L (mat_map2 Np.sub MI ASC)) by now apply mat_map2_square.
  pose proof (no_diag_square SdP) as SMIp. pose proof (no_diag_square SdA) as SMIa.
  assert (Spa : square L (mat_map2 (fun c d => [c; d])
                            (no_diag (mat_map2 Np.sub MI APC))
                            (no_diag (mat_map2 Np.sub MI ASC))))
    by now apply mat_map2_square.
  assert (Srest : square L (mat_map2 (fun b rest => b :: rest) MIr
                              (mat_map2 (fun c d => [c; d])
                                 (no_diag (mat_map2 Np.sub MI APC))
                                 (no_diag (mat_map2 Np.sub MI ASC)))))
    by now apply mat_map2_square.
  rewrite (mat_map2_nth (fun a rest => a :: rest) [] NaN [] SMI Srest Hi Hi).
  rewrite (mat_map2_nth (fun b rest => b :: rest) [] NaN [] SMIr Spa Hi Hi).
  rewrite (mat_map2_nth (fun c d => [c; d]) [] NaN NaN SMIp SMIa Hi Hi).
  cbn [nth]. split; [|split].
  - apply (@mi_matrix_diagonal log Hlog prof_1D prof_2D F1 F2 S2 i Hi).
  - intros H2.
    destruct (@mi_row_average_finite log Hlog prof_1D prof_2D F1 F2 S2 H2) as [_ FM1].
    pose proof (@mi_average_finite log Hlog prof_1D prof_2D F1 F2 S2 H2) as Fav.
    apply (no_diag_diagonal SdA Hi). apply (all_finite_nth SdA); auto.
    apply mat_map2_finite; auto using sub_finite.
    apply outer_finite; auto. intros x y Hx Hy.
    apply sub_finite; auto. now apply add_finite.
  - intros H2 Hnz.
    destruct (@mi_row_average_finite log Hlog prof_1D prof_2D F1 F2 S2 H2) as [_ FM1].
    apply (no_diag_diagonal SdP Hi). apply (all_finite_nth SdP); auto.
    apply mat_map2_finite; auto using sub_finite.
    apply outer_finite; auto. intros x y Hx Hy.
    apply div_nonzero_finite; auto. now apply mul_finite.
Qed.
Lemma sample_log_21 : ~ sample_log 21 == 0.
Proof. intros E. vm_compute in E. discriminate. Qed.

Lemma mutual_information_diagonal_witness :
  let prof_1D := [[Finite 1; Finite 0]; [Finite 0.5; Finite 0.5]] in
  let prof_2D :=
    [[[[Finite 1; Finite 0]; [Finite 0; Finite 0]];
      [[Finite 0.5; Finite 0.5]; [Finite 0; Finite 0]]];
     [[[Finite 0.5; Finite 0]; [Finite 0.5; Finite 0]];
      [[Finite 0.5; Finite 0]; [Finite 0; Finite 0.5]]]] in
  let feats := nth 0 (nth 0 (mutual_information sample_log prof_1D prof_2D) []) [] in
  Np.eq (nth 0 feats NaN) (Finite 0) /\
  Np.eq (nth 3 feats NaN) (Finite 0) /\
  Np.eq (nth 2 feats NaN) (Finite 0).
Proof.
  intros prof_1D prof_2D feats.
  assert (F1 : frequencies_1D prof_1D) by (repeat constructor).
  assert (F2 : frequencies_2D prof_2D) by (repeat constructor).
  assert (S2 : square (length prof_1D) prof_2D) by (split; [reflexivity | repeat constructor]).
  assert (Hi : (0 < length prof_1D)%nat) by (simpl; lia).
  assert (H2 : (2 <= length prof_1D)%nat) by (simpl; lia).
  assert (Hnz : fin_nonzero (mi_average (length prof_1D)
                               (mi_matrix sample_log prof_1D prof_2D)) = true)
    by (vm_compute; reflexivity).
  destruct (@mutual_information_diagonal sample_log prof_1D prof_2D 0
              sample_log_21 F1 F2 S2 Hi) as [Ha [Hb Hc]].
  split; [exact Ha|]. split; [exact (Hb H2) | exact (Hc H2 Hnz)].
Defined.

(** With a single column the averages divide by [n_res - 1 = 0]: the
    diagonal of the MIp and MIa channels is NaN. *)
Lemma mutual_information_one_column (log : Q -> Q) (row : list npfloat)
  (block : list (list npfloat)) :
  ~ log 21 == 0 ->
  Forall (fun x => fin_nonneg x = true) row ->
  Forall (Forall (fun x => fin_nonneg x = true)) block ->
  let feats := nth 0 (nth 0 (mutual_information log [row] [[block]]) []) [] in
  nth 2 feats NaN = NaN /\ nth 3 feats NaN = NaN.
Proof.
  intros Hlog Hrow Hblock feats.
  pose proof (@entropy_sum_finite log Hlog row Hrow) as H1.
  pose proof (@entropy_sum_finite log Hlog (concat block) (Forall_concat Hblock)) as H2.
  unfold feats, mutual_information, mi_matrix, mi_row_average, mi_average,
    entropy_1D, entropy_2D, no_diag, triu, tril, mat_map2, outer, sum_axis1, mapi.
  cbn [map map2 mapi_from length concat app nth Nat.ltb Nat.leb].
  destruct (Np.sum (map (entropy_term log) row)) as [a| | |]; try contradiction.
  destruct (Np.sum (map (entropy_term log) (concat block))) as [c| | |]; try contradiction.
  cbn [Np.neg Np.add Np.mul Np.sub Np.sum fold_right Np.of_Z Z.of_nat Z.sub Z.add
       Z.opp Z.pos_sub Np.div].
  change (Qeq_bool (inject_Z 0) 0) with true. cbn iota.
  assert (E : (2 * (- c + a + a) + - (- c + a + a) + - (- c + a + a) + 0 ?= 0) = Eq).
  { apply Qeq_alt. ring. }
  unfold Np.signed_inf. rewrite E. split; reflexivity.
Qed.

(** C3 as stated fails on a profile with a single column: the diagonal
    entry of the MIp and MIa channels is NaN, not zero. *)
Lemma mutual_information_single_column :
  let prof_1D := [Finite 1 :: repeat (Finite 0) 20] in
  let prof_2D := [[(Finite 1 :: repeat (Finite 0) 20) :: repeat (repeat (Finite 0) 21) 20]] in
  let feats := nth 0 (nth 0 (mutual_information sample_log prof_1D prof_2D) []) [] in
  frequencies_1D prof_1D /\ frequencies_2D prof_2D /\
  square (length prof_1D) prof_2D /\
  length (nth 0 prof_1D []) = 21%nat /\
  ~ Np.eq (nth 2 feats NaN) (Finite 0) /\ ~ Np.eq (nth 3 feats NaN) (Finite 0).
Proof.
  intros prof_1D prof_2D feats.
  assert (F1 : frequencies_1D prof_1D) by (repeat constructor).
  assert (F2 : frequencies_2D prof_2D) by (repeat constructor).
  inversion F1 as [|? ? Hrow _]; subst. inversion F2 as [|? ? Hb _]; subst.
  inversion Hb as [|? ? Hblock _]; subst.
  destruct (@mutual_information_one_column sample_log _ _ sample_log_21 Hrow Hblock)
    as [E2 E3].
  split; [exact F1|]. split; [exact F2|].
  split; [split; [reflexivity | repeat constructor]|].
  split; [reflexivity|].
  assert (G2 : nth 2 feats NaN = NaN) by exact E2.
  assert (G3 : nth 3 feats NaN = NaN) by exact E3.
  rewrite G2, G3. simpl. tauto.
Qed.

(** ** One-hot encoding *)

Lemma mapM_ok {A B : Type} (f : A -> result B) (l : list A) :
  (forall x, In x l -> exists y, f x = Ok y) -> exists ys, mapM f l = Ok ys.
Proof.
  induction l as [|x l IH]; intros H; [now exists []|].
  destruct (H x (or_introl eq_refl)) as [y Hy].
  destruct IH as [ys Hys]; [intros z Hz; apply H; now right|].
  exists (y :: ys). simpl. now rewrite Hy, Hys.
Qed.

Lemma mapM_inv {A B : Type} (f : A -> result B) (l : list A) (ys : list B) :
  mapM f l = Ok ys ->
  length ys = length l /\
  forall i d d', (i < length l)%nat -> f (nth i l d) = Ok (nth i ys d').
Proof.
  revert ys; induction l as [|x l IH]; intros ys H; simpl in H.
  - injection H as <-. split; [reflexivity|]. intros i d d' Hi. simpl in Hi. lia.
  - destruct (f x) as [y|e] eqn:Ex; simpl in H; [|discriminate].
    destruct (mapM f l) as [ys'|e] eqn:El; simpl in H; [|discriminate].
    injection H as <-. destruct (IH ys' eq_refl) as [Hlen Hnth].
    split; [simpl; now rewrite Hlen|].
    intros [|i] d d' Hi; simpl; [exact Ex|]. apply Hnth. simpl in Hi. lia.
Qed.

Lemma dict_get_In {V : Type} (d : dict V) (k : ascii) (v : V) :
  dict_get d k = Some v -> In (k, v) d.
Proof.
  induction d as [|[k' v'] d IH]; simpl; [discriminate|].
  destruct (Ascii.eqb_spec k k') as [->|Hne].
  - intros E. injection E as ->. now left.
  - intros E. right. now apply IH.
Qed.

(** With a well-formed alphabet the mapper always answers, with an index
    of the alphabet. *)
Lemma amino_acid_to_numeric_total (AminoAcid : dict Z) (s : ascii) :
  alphabet_ok AminoAcid = true ->
  exists k, amino_acid_to_numeric AminoAcid s = Ok k /\
            (0 <= k < Z.of_nat (length AminoAcid))%Z.
Proof.
  unfold alphabet_ok. intros H. apply andb_true_iff in H. destruct H as [HX Hr].
  rewrite forallb_forall in Hr.
  assert (Hin : forall c k, dict_get AminoAcid c = Some k ->
                            (0 <= k < Z.of_nat (length AminoAcid))%Z).
  { intros c k E. apply dict_get_In in E. specialize (Hr _ E). simpl in Hr.
    apply andb_true_iff in Hr. destruct Hr as [H1 H2].
    apply Z.leb_le in H1. apply Z.ltb_lt in H2. lia. }
  unfold amino_acid_to_numeric, dict_item.
  destruct (dict_get AminoAcid s) as [k|] eqn:E; [exists k; eauto|].
  destruct (dict_get AminoAcid unknown_char) as [k|] eqn:EX; [exists k; eauto|discriminate].
Qed.

Lemma replace_nth_length {A : Type} (n : nat) (v : A) (l : list A) :
  length (replace_nth n v l) = length l.
Proof.
  revert n; induction l as [|x l IH]; intros [|n]; simpl; auto.
Qed.

Lemma replace_nth_nth {A : Type} (n j : nat) (v d : A) (l : list A) :
  (n < length l)%nat ->
  nth j (replace_nth n v l) d = if Nat.eqb j n then v else nth j l d.
Proof.
  revert n j; induction l as [|x l IH]; intros n j H; simpl in H; [lia|].
  destruct n as [|n], j as [|j]; simpl; auto.
  apply IH. lia.
Qed.

Lemma setitem_in_range {A : Type} (l : list A) (idx : Z) (v : A) :
  (0 <= idx < Z.of_nat (length l))%Z ->
  setitem l idx v = Ok (replace_nth (Z.to_nat idx) v l).
Proof.
  intros H. unfold setitem.
  replace ((0 <=? idx)%Z && (idx <? Z.of_nat (length l))%Z)%bool with true; [reflexivity|].
  symmetry. apply andb_true_iff. split; [apply Z.leb_le | apply Z.ltb_lt]; lia.
Qed.

Lemma valid_sequence_check (sequence : string) :
  existsb (fun s => negb (Ascii.eqb s gap_char) && negb (isalpha s)) (chars sequence)
  = negb (valid_sequence sequence).
Proof.
  unfold valid_sequence. induction (chars sequence) as [|c l IH]; [reflexivity|].
  simpl. rewrite IH. unfold valid_char.
  destruct (Ascii.eqb c gap_char), (isalpha c), (forallb _ l); reflexivity.
Qed.

(** C7: with a well-formed alphabet, [sequence_one_hot_encoding] raises
    (a [ValueError]) exactly when the sequence holds a character that is
    neither a letter nor the gap, and returns a matrix otherwise. *)
Theorem sequence_one_hot_encoding_raises (AminoAcid : dict Z) (sequence : string) :
  alphabet_ok AminoAcid = true ->
  (valid_sequence sequence = false <->
   sequence_one_hot_encoding AminoAcid sequence = Raise ValueError) /\
  (valid_sequence sequence = false <->
   exists e, sequence_one_hot_encoding AminoAcid sequence = Raise e) /\
  (valid_sequence sequence = true <->
   exists seq_one_hot, sequence_one_hot_encoding AminoAcid sequence = Ok seq_one_hot).
Proof.
  intros Hok. unfold sequence_one_hot_encoding. rewrite valid_sequence_check.
  destruct (valid_sequence sequence) eqn:Ev; simpl.
  - destruct (@mapM_ok ascii (list npfloat)
                (fun s => idx <- amino_acid_to_numeric AminoAcid s ;;
                          setitem (repeat (Finite 0) (length AminoAcid)) idx (Finite 1))
                (chars sequence)) as [ys Hys].
    { intros c _. destruct (@amino_acid_to_numeric_total AminoAcid c Hok) as [k [Hk Hr]].
      rewrite Hk. simpl. rewrite setitem_in_range by (now rewrite repeat_length). eauto. }
    rewrite Hys. repeat split; try discriminate; eauto.
    intros [e He]. discriminate.
  - repeat split; auto; try discriminate; eauto.
    intros [m Hm]. discriminate.
Qed.

Lemma sequence_one_hot_encoding_raises_witness :
  alphabet_ok sample_alphabet = true /\
  sequence_one_hot_encoding sample_alphabet "A1-"%string = Raise ValueError /\
  exists seq_one_hot, sequence_one_hot_encoding sample_alphabet "Ab-"%string = Ok seq_one_hot.
Proof.
  assert (Hok : alphabet_ok sample_alphabet = true) by reflexivity.
  split; [exact Hok|]. split.
  - apply (proj1 (@sequence_one_hot_encoding_raises sample_alphabet "A1-"%string Hok)).
    reflexivity.
  - apply (proj2 (proj2 (@sequence_one_hot_encoding_raises sample_alphabet "Ab-"%string Hok))).
    reflexivity.
Defined.

(** C8: with the 22-symbol alphabet, every row of an accepted one-hot
    encoding has 22 entries, all zero except a one at the index that
    [amino_acid_to_numeric] gives for the character of that position. *)
Theorem sequence_one_hot_encoding_rows (AminoAcid : dict Z) (sequence : string)
  (seq_one_hot : list (list npfloat)) :
  alphabet_ok AminoAcid = true ->
  length AminoAcid = 22%nat ->
  sequence_one_hot_encoding AminoAcid sequence = Ok seq_one_hot ->
  length seq_one_hot = length (chars sequence) /\
  forall i, (i < length (chars sequence))%nat ->
    exists k,
      amino_acid_to_numeric AminoAcid (nth i (chars sequence) " "%char) = Ok k /\
      (0 <= k < 22)%Z /\
      length (nth i seq_one_hot []) = 22%nat /\
      forall j, (j < 22)%nat ->
        nth j (nth i seq_one_hot []) NaN =
        if Nat.eqb j (Z.to_nat k) then Finite 1 else Finite 0.
Proof.
  intros Hok H22 H. unfold sequence_one_hot_encoding in H.
  destruct (existsb _ (chars sequence)); [discriminate|].
  apply mapM_inv in H. destruct H as [Hlen Hnth]. split; [exact Hlen|].
  intros i Hi. specialize (Hnth i " "%char [] Hi). cbv beta in Hnth.
  destruct (@amino_acid_to_numeric_total AminoAcid (nth i (chars sequence) " "%char) Hok)
    as [k [Hk Hr]].
  rewrite Hk in Hnth. cbn [bind] in Hnth. rewrite H22 in Hr, Hnth.
  rewrite setitem_in_range in Hnth by (rewrite repeat_length; lia).
  injection Hnth as Hrow. exists k. split; [exact Hk|]. split; [exact Hr|].
  rewrite <- Hrow. split.
  - rewrite replace_nth_length. reflexivity.
  - intros j Hj. rewrite replace_nth_nth by (simpl; lia).
    destruct (Nat.eqb j (Z.to_nat k)); [reflexivity|].
    change (nth j (repeat (Finite 0) 22) NaN = Finite 0).
    apply nth_repeat_lt. exact Hj.
Qed.

Lemma sequence_one_hot_encoding_rows_witness :
  alphabet_ok sample_alphabet = true /\ length sample_alphabet = 22%nat /\
  exists seq_one_hot,
    sequence_one_hot_encoding sample_alphabet "AC-"%string = Ok seq_one_hot /\
    length seq_one_hot = 3%nat.
Proof.
  assert (Hok : alphabet_ok sample_alphabet = true) by reflexivity.
  assert (H22 : length sample_alphabet = 22%nat) by reflexivity.
  split; [exact Hok|]. split; [exact H22|].
  destruct (sequence_one_hot_encoding sample_alphabet "AC-"%string) as [m|e] eqn:E;
    [|vm_compute in E; discriminate].
  exists m. split; [reflexivity|].
  exact (proj1 (@sequence_one_hot_encoding_rows sample_alphabet "AC-"%string m Hok H22 E)).
Defined.
(** ** Reading the alignment *)

Section ReadA3m.

Variable AminoAcid : dict Z.
Variable gap unknown : Z.
Hypothesis has_unknown : dict_get AminoAcid unknown_char = Some unknown.
Hypothesis has_gap : dict_get AminoAcid gap_char = Some gap.

Lemma amino_acid_to_numeric_numeric (s : ascii) :
  amino_acid_to_numeric AminoAcid s = Ok (numeric AminoAcid s).
Proof.
  unfold numeric, amino_acid_to_numeric, dict_item.
  destruct (dict_get AminoAcid s); [reflexivity|]. now rewrite has_unknown.
Qed.

Lemma mapM_numeric (l : list ascii) :
  mapM (amino_acid_to_numeric AminoAcid) l = Ok (map (numeric AminoAcid) l).
Proof.
  induction l as [|c l IH]; [reflexivity|].
  simpl. now rewrite amino_acid_to_numeric_numeric, IH.
Qed.

Lemma broadcast2_same_length {A B C : Type} (f : A -> B -> C) (l1 : list A) (l2 : list B) :
  length l1 = length l2 -> broadcast2 f l1 l2 = Ok (map2 f l1 l2).
Proof. intros H. unfold broadcast2. now rewrite H, Nat.eqb_refl. Qed.

Lemma map2_and_map (s1 s2 : list Z) :
  map2 andb (map2 Z.eqb s1 s2) (map (fun x => negb (Z.eqb x gap)) s1) =
  map2 (fun a b => Z.eqb a b && negb (Z.eqb a gap))%bool s1 s2.
Proof.
  revert s2; induction s1 as [|a s1 IH]; intros [|b s2]; simpl; auto.
  now rewrite IH.
Qed.

(** On rows of one length, [sequence_identity] is the identity score. *)
Lemma sequence_identity_score (s1 s2 : list Z) :
  length s1 = length s2 ->
  sequence_identity AminoAcid s1 s2 = Ok (identity_score gap s1 s2).
Proof.
  intros H. unfold sequence_identity, dict_item.
  rewrite broadcast2_same_length by exact H. cbn [bind]. rewrite has_gap. cbn [bind].
  rewrite broadcast2_same_length.
  - cbn [bind]. unfold identity_score. now rewrite map2_and_map.
  - rewrite map2_length, length_map, <- H. apply Nat.min_id.
Qed.

Lemma collect_rows_filter (sequence_array : list Z) (a3m_seqs : list string) :
  Forall (fun seq => length (encode_row AminoAcid seq) = length sequence_array) a3m_seqs ->
  collect_rows AminoAcid sequence_array true a3m_seqs =
  Ok (map (encode_row AminoAcid)
          (filter (retained AminoAcid gap sequence_array) a3m_seqs)).
Proof.
  induction 1 as [|seq rest Hseq _ IH]; [reflexivity|].
  cbn [collect_rows]. rewrite mapM_numeric. cbn [bind]. fold (encode_row AminoAcid seq).
  rewrite sequence_identity_score by (symmetry; exact Hseq). cbn [bind].
  rewrite IH. cbn [bind filter].
  assert (E : retained AminoAcid gap sequence_array seq =
              negb (below_one_percent
                      (identity_score gap sequence_array (encode_row AminoAcid seq))
                      (length sequence_array))) by reflexivity.
  rewrite E. destruct (below_one_percent _ _); reflexivity.
Qed.

Lemma np_array_int_rectangular (n : nat) (rows : list (list Z)) :
  rectangular n rows -> np_array_int rows = Ok rows.
Proof.
  intros H. unfold np_array_int.
  replace (forallb _ rows) with true; [reflexivity|].
  symmetry. apply forallb_forall. intros row Hrow. apply Nat.eqb_eq.
  destruct (shape1_cases H) as [E|E]; [|rewrite E in Hrow; contradiction].
  rewrite E. unfold rectangular in H. rewrite Forall_forall in H. now apply H.
Qed.

Lemma below_one_percent_spec (ident : Z) (seq_len : nat) :
  below_one_percent ident seq_len = true <->
  inject_Z ident < inject_Z (Z.of_nat seq_len) * 0.01.
Proof.
  unfold below_one_percent. rewrite negb_true_iff. split.
  - intros H. apply Qnot_le_lt. intros Hle. apply Qle_bool_iff in Hle. congruence.
  - intros H. destruct (Qle_bool _ _) eqn:E; auto. apply Qle_bool_iff in E.
    exfalso. apply (Qlt_irrefl (inject_Z ident)). eapply Qlt_le_trans; eauto.
Qed.

Lemma not_below_one_percent (ident : Z) (seq_len : nat) :
  (Z.of_nat seq_len <= 100 * ident)%Z -> below_one_percent ident seq_len = false.
Proof.
  intros H. destruct (below_one_percent ident seq_len) eqn:E; auto.
  apply below_one_percent_spec in E. exfalso.
  rewrite Zle_Qle, inject_Z_mult in H.
  change (inject_Z 100) with (100 # 1) in H. lra.
Qed.

Lemma filter_all {A : Type} (p : A -> bool) (l : list A) :
  length (filter p l) = length l -> filter p l = l.
Proof.
  induction l as [|x l IH]; [reflexivity|]. simpl.
  destruct (p x); simpl; intros H.
  - f_equal. apply IH. lia.
  - pose proof (filter_length_le p l). lia.
Qed.

Lemma identity_score_self (s : list Z) :
  identity_score gap s s =
  Z.of_nat (count_true (map (fun x => negb (Z.eqb x gap)) s)).
Proof.
  unfold identity_score. rewrite map2_diag. f_equal. f_equal.
  apply map_ext. intros a. now rewrite Z.eqb_refl.
Qed.

End ReadA3m.
(** C5, as the code has it: on an alignment whose first row is the query
    and whose rows all have the length of the query once their insertions
    are dropped, [read_a3m_as_mat] with filtering returns the retained rows
    in order; every discarded row has an identity score strictly below 0.01
    times the query length; and the query row comes first in the result
    when at least one percent of its positions are not gaps. *)
Theorem read_a3m_as_mat_filter (AminoAcid : dict Z) (gap unknown : Z)
  (sequence : string) (a3m_seq_IDs rest : list string) :
  let a3m_seqs := sequence :: rest in
  let sequence_array := map (numeric AminoAcid) (chars sequence) in
  let seq_len := length sequence_array in
  dict_get AminoAcid unknown_char = Some unknown ->
  dict_get AminoAcid gap_char = Some gap ->
  Forall (fun seq => length (encode_row AminoAcid seq) = seq_len) a3m_seqs ->
  read_a3m_as_mat AminoAcid sequence a3m_seq_IDs a3m_seqs true =
  Ok (map (encode_row AminoAcid)
          (filter (retained AminoAcid gap sequence_array) a3m_seqs)) /\
  (forall seq, In seq a3m_seqs ->
     retained AminoAcid gap sequence_array seq = false ->
     inject_Z (identity_score gap sequence_array (encode_row AminoAcid seq))
     < inject_Z (Z.of_nat seq_len) * 0.01) /\
  ((Z.of_nat seq_len
    <= 100 * Z.of_nat (count_true (map (fun x => negb (Z.eqb x gap)) sequence_array)))%Z ->
   read_a3m_as_mat AminoAcid sequence a3m_seq_IDs a3m_seqs true =
   Ok (sequence_array
       :: map (encode_row AminoAcid)
              (filter (retained AminoAcid gap sequence_array) rest))).
Proof.
  intros a3m_seqs sequence_array seq_len HX Hgap Hshape.
  assert (Hread : read_a3m_as_mat AminoAcid sequence a3m_seq_IDs a3m_seqs true =
                  Ok (map (encode_row AminoAcid)
                          (filter (retained AminoAcid gap sequence_array) a3m_seqs))).
  { unfold read_a3m_as_mat, a3m_seqs. cbn [bind]. rewrite String.eqb_refl. cbn [negb].
    rewrite (@mapM_numeric AminoAcid unknown HX). cbn [bind]. fold sequence_array.
    fold a3m_seqs.
    rewrite (@collect_rows_filter AminoAcid gap unknown HX Hgap sequence_array _ Hshape). cbn [bind].
    apply np_array_int_rectangular with (n := seq_len).
    unfold rectangular. apply Forall_forall. intros row Hrow.
    apply in_map_iff in Hrow. destruct Hrow as [seq [<- Hseq]].
    apply filter_In in Hseq. destruct Hseq as [Hseq _].
    rewrite Forall_forall in Hshape. now apply Hshape. }
  split; [exact Hread|]. split.
  - intros seq Hin Hret. unfold retained in Hret. apply negb_false_iff in Hret.
    apply below_one_percent_spec in Hret. exact Hret.
  - intros Hgaps. rewrite Hread. unfold a3m_seqs. cbn [filter].
    assert (Henc : encode_row AminoAcid sequence = sequence_array).
    { inversion Hshape as [|? ? Hq _]; subst. unfold encode_row, seq_len, sequence_array in *.
      rewrite !length_map in Hq. now rewrite (filter_all _ _ Hq). }
    assert (Hret : retained AminoAcid gap sequence_array sequence = true).
    { unfold retained. rewrite Henc, identity_score_self. apply negb_true_iff.
      apply not_below_one_percent. exact Hgaps. }
    rewrite Hret. cbn [map]. now rewrite Henc.
Qed.

Lemma read_a3m_as_mat_filter_witness :
  read_a3m_as_mat sample_alphabet "ACD" [] ["ACD"; "ACE"; "A-D"; "GGG"]%string true =
  Ok [[0; 1; 2]; [0; 1; 3]; [0; 21; 2]]%Z.
Proof.
  destruct (@read_a3m_as_mat_filter sample_alphabet 21%Z 20%Z "ACD"%string []
              ["ACE"; "A-D"; "GGG"]%string eq_refl eq_refl) as [_ [_ H]].
  - repeat constructor.
  - rewrite H; [reflexivity|]. vm_compute. discriminate.
Defined.

(** C5 as stated fails on a query made of gaps only: its identity score
    with itself is 0, below one percent of its length, and the query row
    is discarded like any other row. *)
Lemma read_a3m_as_mat_drops_gap_query :
  read_a3m_as_mat sample_alphabet "-" [] ["-"%string] true = Ok [] /\
  sequence_identity sample_alphabet [21%Z] [21%Z] = Ok 0%Z.
Proof. split; reflexivity. Qed.
(** * Further properties *)

(** ** Identity score *)

Lemma count_true_le (l : list bool) : (count_true l <= length l)%nat.
Proof. unfold count_true. apply filter_length_le. Qed.

Lemma identity_score_sym (gap : Z) (s1 s2 : list Z) :
  identity_score gap s1 s2 = identity_score gap s2 s1.
Proof.
  unfold identity_score. f_equal. f_equal.
  revert s2; induction s1 as [|a s1 IH]; intros [|b s2]; simpl; auto.
  rewrite IH. f_equal.
  destruct (Z.eqb_spec a b) as [->|Hne].
  - now rewrite Z.eqb_refl.
  - replace (b =? a)%Z with false; [reflexivity|].
    symmetry. apply Z.eqb_neq. congruence.
Qed.

(** X1: the identity score of a row with itself is its number of non-gap
    positions. *)
Theorem sequence_identity_self (AminoAcid : dict Z) (gap : Z) (s : list Z) :
  dict_get AminoAcid gap_char = Some gap ->
  sequence_identity AminoAcid s s =
  Ok (Z.of_nat (count_true (map (fun x => negb (Z.eqb x gap)) s))).
Proof.
  intros Hgap. rewrite (@sequence_identity_score AminoAcid gap Hgap s s eq_refl).
  now rewrite identity_score_self.
Qed.

Lemma sequence_identity_self_witness :
  sequence_identity sample_alphabet [0; 21; 2; 21; 21]%Z [0; 21; 2; 21; 21]%Z = Ok 2%Z.
Proof. exact (@sequence_identity_self sample_alphabet 21%Z [0; 21; 2; 21; 21]%Z eq_refl). Defined.

(** X2: on two rows of one length the identity score does not depend on
    the order of the rows, and lies between 0 and the length. *)
Theorem sequence_identity_symmetric (AminoAcid : dict Z) (gap : Z) (s1 s2 : list Z) :
  dict_get AminoAcid gap_char = Some gap ->
  length s1 = length s2 ->
  sequence_identity AminoAcid s1 s2 = sequence_identity AminoAcid s2 s1 /\
  exists n, sequence_identity AminoAcid s1 s2 = Ok n /\
            (0 <= n <= Z.of_nat (length s1))%Z.
Proof.
  intros Hgap Hlen.
  rewrite (@sequence_identity_score AminoAcid gap Hgap s1 s2 Hlen).
  rewrite (@sequence_identity_score AminoAcid gap Hgap s2 s1 (eq_sym Hlen)).
  split; [now rewrite identity_score_sym|].
  eexists. split; [reflexivity|]. unfold identity_score.
  pose proof (count_true_le
                (map2 (fun a b => (a =? b)%Z && negb (a =? gap)%Z)%bool s1 s2)) as H.
  rewrite map2_length, <- Hlen, Nat.min_id in H. lia.
Qed.

Lemma sequence_identity_symmetric_witness :
  sequence_identity sample_alphabet [0; 21; 2]%Z [0; 21; 3]%Z =
  sequence_identity sample_alphabet [0; 21; 3]%Z [0; 21; 2]%Z.
Proof.
  exact (proj1 (@sequence_identity_symmetric sample_alphabet 21%Z [0; 21; 2]%Z
                  [0; 21; 3]%Z eq_refl eq_refl)).
Defined.

(** ** Reading the alignment: the unfiltered path *)

Lemma collect_rows_unfiltered (AminoAcid : dict Z) (unknown : Z)
  (sequence_array : list Z) (a3m_seqs : list string) :
  dict_get AminoAcid unknown_char = Some unknown ->
  collect_rows AminoAcid sequence_array false a3m_seqs =
  Ok (map (encode_row AminoAcid) a3m_seqs).
Proof.
  intros HX. induction a3m_seqs as [|seq rest IH]; [reflexivity|].
  cbn [collect_rows]. rewrite (@mapM_numeric AminoAcid unknown HX). cbn [bind].
  rewrite IH. reflexivity.
Qed.

(** X5: without filtering, an alignment whose rows have one length once
    their insertions are dropped is returned whole, row by row, and the gap
    code is never looked up. *)
Theorem read_a3m_as_mat_unfiltered (AminoAcid : dict Z) (unknown : Z) (n : nat)
  (sequence : string) (a3m_seq_IDs rest : list string) :
  dict_get AminoAcid unknown_char = Some unknown ->
  Forall (fun seq => length (encode_row AminoAcid seq) = n) (sequence :: rest) ->
  read_a3m_as_mat AminoAcid sequence a3m_seq_IDs (sequence :: rest) false =
  Ok (map (encode_row AminoAcid) (sequence :: rest)).
Proof.
  intros HX Hshape. unfold read_a3m_as_mat. cbn [bind].
  rewrite String.eqb_refl. cbn [negb].
  rewrite (@mapM_numeric AminoAcid unknown HX). cbn [bind].
  rewrite (@collect_rows_unfiltered AminoAcid unknown _ _ HX). cbn [bind].
  apply np_array_int_rectangular with (n := n).
  unfold rectangular. apply Forall_forall. intros row Hrow.
  apply in_map_iff in Hrow. destruct Hrow as [seq [<- Hseq]].
  rewrite Forall_forall in Hshape. now apply Hshape.
Qed.

Lemma read_a3m_as_mat_unfiltered_witness :
  read_a3m_as_mat sample_alphabet "ACD" [] ["ACD"; "GgGG"; "--x-"]%string false =
  Ok [[0; 1; 2]; [5; 5; 5]; [21; 21; 21]]%Z.
Proof.
  apply (@read_a3m_as_mat_unfiltered sample_alphabet 20%Z 3 "ACD" []
           ["GgGG"; "--x-"]%string eq_refl).
  repeat constructor.
Defined.

(** X4: without filtering, an alignment whose first row is the query and
    in which a row has, once its insertions are dropped, another length than
    the query row is rejected with a [ValueError]: the rows are converted
    one by one and only stacking them fails. *)
Theorem read_a3m_as_mat_misaligned (AminoAcid : dict Z) (unknown : Z)
  (sequence : string) (a3m_seq_IDs rest : list string) :
  dict_get AminoAcid unknown_char = Some unknown ->
  Exists (fun seq => length (encode_row AminoAcid seq)
                     <> length (encode_row AminoAcid sequence)) rest ->
  read_a3m_as_mat AminoAcid sequence a3m_seq_IDs (sequence :: rest) false =
  Raise ValueError.
Proof.
  intros HX Hbad. unfold read_a3m_as_mat. cbn [bind].
  rewrite String.eqb_refl. cbn [negb].
  rewrite (@mapM_numeric AminoAcid unknown HX). cbn [bind].
  rewrite (@collect_rows_unfiltered AminoAcid unknown _ _ HX). cbn [bind].
  unfold np_array_int. cbn [map shape1 forallb]. rewrite Nat.eqb_refl. cbn [andb].
  replace (forallb _ (map (encode_row AminoAcid) rest)) with false; [reflexivity|].
  symmetry. apply not_true_is_false. intros Hall. rewrite forallb_forall in Hall.
  apply Exists_exists in Hbad. destruct Hbad as [seq [Hin Hne]].
  apply Hne, Nat.eqb_eq, Hall, in_map, Hin.
Qed.

Lemma read_a3m_as_mat_misaligned_witness :
  read_a3m_as_mat sample_alphabet "ACD" [] ["ACD"; "AC"; "GgGG"]%string false =
  Raise ValueError.
Proof.
  apply (@read_a3m_as_mat_misaligned sample_alphabet 20%Z "ACD" [] ["AC"; "GgGG"]%string
           eq_refl).
  left. simpl. lia.
Defined.

(** ** Sequence weights: bounds and special alignments *)

Lemma filter_length_lt {A : Type} (p : A -> bool) (l : list A) (x : A) :
  In x l -> p x = false -> (length (filter p l) < length l)%nat.
Proof.
  induction l as [|y l IH]; simpl; [contradiction|].
  intros [->|Hin] Hp.
  - rewrite Hp. pose proof (filter_length_le p l). lia.
  - specialize (IH Hin Hp). destruct (p y); simpl; lia.
Qed.

Lemma near_duplicates_bound (seq_mat : list (list Z)) (r : nat) :
  (r < length seq_mat)%nat -> (near_duplicates seq_mat r < length seq_mat)%nat.
Proof.
  intros Hr. unfold near_duplicates.
  apply Nat.lt_le_trans with (length (seq 0 (length seq_mat)));
    [|now rewrite length_seq].
  apply filter_length_lt with (x := r).
  - apply in_seq. lia.
  - now rewrite Nat.eqb_refl.
Qed.

Lemma Qsum_le_length (l : list Q) :
  Forall (fun q => q <= 1) l -> Qsum l <= inject_Z (Z.of_nat (length l)).
Proof.
  induction 1 as [|q l Hq _ IH]; [apply Qle_refl|].
  rewrite Qsum_cons. cbn [length]. rewrite Nat2Z.inj_succ, <- Z.add_1_r, inject_Z_plus.
  change (inject_Z 1) with 1. lra.
Qed.

(** The weights in closed form lie between 1/M and 1, and add up to a
    positive number that is at most M. *)
Lemma closed_form_weights_bounds (seq_mat : list (list Z)) :
  (1 <= length seq_mat)%nat ->
  let weights :=
    map (fun r => Finite (1 / inject_Z (1 + Z.of_nat (near_duplicates seq_mat r))))
        (seq 0 (length seq_mat)) in
  Forall (fun w => exists q, w = Finite q /\
                             1 / inject_Z (Z.of_nat (length seq_mat)) <= q <= 1)
         weights /\
  exists total, Np.sum weights = Finite total /\
                0 < total <= inject_Z (Z.of_nat (length seq_mat)).
Proof.
  intros HM weights. set (M := length seq_mat) in *.
  assert (Hlen : length weights = M).
  { unfold weights. now rewrite length_map, length_seq. }
  assert (HMq : 0 < inject_Z (Z.of_nat M)).
  { change 0 with (inject_Z 0). rewrite <- Zlt_Qlt. lia. }
  assert (Hall : Forall (fun w => exists q, w = Finite q /\
                                            1 / inject_Z (Z.of_nat M) <= q <= 1) weights).
  { apply Forall_forall. intros w Hin. apply in_map_iff in Hin.
    destruct Hin as [r [<- Hr]]. apply in_seq in Hr.
    eexists. split; [reflexivity|].
    assert (Hb : (near_duplicates seq_mat r < M)%nat)
      by (apply near_duplicates_bound; lia).
    set (n := near_duplicates seq_mat r) in *.
    assert (Hd : 0 < inject_Z (1 + Z.of_nat n)).
    { change 0 with (inject_Z 0). rewrite <- Zlt_Qlt. lia. }
    assert (H1 : 1 <= inject_Z (1 + Z.of_nat n)).
    { change 1 with (inject_Z 1) at 1. rewrite <- Zle_Qle. lia. }
    assert (H2 : inject_Z (1 + Z.of_nat n) <= inject_Z (Z.of_nat M)).
    { rewrite <- Zle_Qle. lia. }
    split.
    - apply Qle_shift_div_l; [exact Hd|].
      setoid_replace (1 / inject_Z (Z.of_nat M) * inject_Z (1 + Z.of_nat n))
        with (inject_Z (1 + Z.of_nat n) / inject_Z (Z.of_nat M))
        by (field; lra).
      apply Qle_shift_div_r; [exact HMq|]. lra.
    - apply Qle_shift_div_r; [exact Hd|]. lra. }
  split; [exact Hall|].
  assert (Hfin : Forall (fun x => Np.is_finite x) weights).
  { revert Hall. apply Forall_impl. intros w [q [-> _]]. exact I. }
  rewrite (sum_finite Hfin). eexists. split; [reflexivity|]. split.
  - apply Qsum_pos.
    + apply Forall_forall. intros q Hq. apply in_map_iff in Hq.
      destruct Hq as [w [<- Hin]]. rewrite Forall_forall in Hall.
      destruct (Hall w Hin) as [q [-> [Hlo _]]]. simpl.
      assert (0 < 1 / inject_Z (Z.of_nat M)) by (apply Qlt_shift_div_l; lra).
      lra.
    + intros E. apply (f_equal (@length Q)) in E. rewrite length_map, Hlen in E.
      simpl in E. lia.
  - rewrite <- Hlen, <- (length_map Np.val). apply Qsum_le_length.
    apply Forall_forall. intros q Hq. apply in_map_iff in Hq.
    destruct Hq as [w [<- Hin]]. rewrite Forall_forall in Hall.
    destruct (Hall w Hin) as [q [-> [_ Hhi]]]. exact Hhi.
Qed.

(** X6: on at least two rows, every weight is a number between 1/M and
    1, and the weights add up to a positive number that is at most the
    number M of rows (the effective number of sequences). *)
Theorem sequence_weights_bounds (seq_mat : list (list Z)) :
  (2 <= length seq_mat)%nat ->
  rectangular (shape1 seq_mat) seq_mat ->
  exists weights,
    sequence_weights seq_mat = Ok weights /\
    Forall (fun w => exists q, w = Finite q /\
                               1 / inject_Z (Z.of_nat (length seq_mat)) <= q <= 1)
           weights /\
    exists total, Np.sum weights = Finite total /\
                  0 < total <= inject_Z (Z.of_nat (length seq_mat)).
Proof.
  intros HM Hrect. rewrite (sequence_weights_closed_form HM Hrect).
  eexists. split; [reflexivity|].
  apply closed_form_weights_bounds. lia.
Qed.

Lemma sequence_weights_bounds_witness :
  let m := [[0; 1; 2]; [0; 1; 3]; [0; 21; 2]; [5; 5; 5]]%Z in
  (2 <= length m)%nat /\ rectangular (shape1 m) m /\
  exists weights,
    sequence_weights m = Ok weights /\
    exists total, Np.sum weights = Finite total /\
                  0 < total <= inject_Z (Z.of_nat (length m)).
Proof.
  intros m.
  assert (H2 : (2 <= length m)%nat) by (simpl; lia).
  assert (Hr : rectangular (shape1 m) m) by (repeat constructor).
  split; [exact H2|]. split; [exact Hr|].
  destruct (@sequence_weights_bounds m H2 Hr) as [weights [Hw [_ Ht]]].
  exists weights. split; [exact Hw | exact Ht].
Defined.

Lemma hamming_self (u : list Z) :
  u <> [] -> Np.ltb (hamming u u) (Finite 0.38) = true.
Proof.
  intros Hne. unfold hamming. rewrite map2_diag.
  replace (count_true (map (fun x => negb (x =? x)%Z) u)) with 0%nat.
  - unfold Np.of_nat, Np.of_Z. rewrite div_finite.
    + simpl. reflexivity.
    + apply inject_Z_nonzero. destruct u; [congruence | simpl; lia].
  - unfold count_true. induction u as [|a u IH]; [reflexivity|].
    simpl. rewrite Z.eqb_refl. simpl. destruct u as [|b u]; [reflexivity|].
    apply IH. discriminate.
Qed.

(** X7: in an alignment of M >= 2 copies of one non-empty row, every row
    has weight 1/M. *)
Theorem sequence_weights_identical_rows (row : list Z) (seq_mat : list (list Z)) :
  (2 <= length seq_mat)%nat ->
  row <> [] ->
  Forall (fun x => x = row) seq_mat ->
  exists weights,
    sequence_weights seq_mat = Ok weights /\
    length weights = length seq_mat /\
    Forall (fun w => Np.eq w (Finite (1 / inject_Z (Z.of_nat (length seq_mat))))) weights.
Proof.
  intros HM Hne Hall.
  assert (Hrect : rectangular (shape1 seq_mat) seq_mat).
  { destruct seq_mat as [|x rest]; [constructor|].
    inversion Hall; subst. simpl. apply Forall_forall. intros y Hy.
    rewrite Forall_forall in Hall. now rewrite (Hall y Hy). }
  rewrite (sequence_weights_closed_form HM Hrect).
  eexists. split; [reflexivity|]. split; [now rewrite length_map, length_seq|].
  apply Forall_forall. intros w Hin. apply in_map_iff in Hin.
  destruct Hin as [r [<- Hr]]. apply in_seq in Hr.
  assert (Hr' : (r < length seq_mat)%nat) by lia. clear Hr. rename Hr' into Hr.
  assert (Hrow : forall k, (k < length seq_mat)%nat -> nth k seq_mat [] = row).
  { intros k Hk. rewrite Forall_forall in Hall. apply Hall, nth_In, Hk. }
  assert (Hn : (1 + near_duplicates seq_mat r = length seq_mat)%nat).
  { unfold near_duplicates.
    rewrite (filter_length_ext _ (fun k => negb (k =? r)%nat)).
    - set (M := length seq_mat) in *.
      assert (G : forall a n, (a <= r < a + n)%nat ->
                  (1 + length (filter (fun k => negb (k =? r)%nat) (seq a n)) = n)%nat).
      { intros a n. revert a. induction n as [|n IH]; intros a Ha; [lia|].
        simpl. destruct (Nat.eqb_spec a r) as [->|Hne'].
        - simpl. f_equal.
          rewrite (filter_ext_in _ (fun _ => true)).
          + clear. rewrite filter_true.
            now rewrite length_seq.
          + intros k Hk. apply in_seq in Hk. apply negb_true_iff, Nat.eqb_neq. lia.
        - simpl. rewrite <- (IH (S a)) at 2 by lia. reflexivity. }
      apply G. lia.
    - intros k Hk. apply in_seq in Hk. rewrite (Hrow r Hr), (Hrow k) by lia.
      unfold near_duplicate. rewrite hamming_self by exact Hne.
      now rewrite andb_true_r. }
  simpl. rewrite <- Hn. rewrite Nat2Z.inj_add. reflexivity.
Qed.

Lemma sequence_weights_identical_rows_witness :
  exists weights,
    sequence_weights [[0; 1]; [0; 1]; [0; 1]]%Z = Ok weights /\
    length weights = 3%nat /\
    Forall (fun w => Np.eq w (Finite (1 / inject_Z 3))) weights.
Proof.
  apply (@sequence_weights_identical_rows [0; 1]%Z [[0; 1]; [0; 1]; [0; 1]]%Z).
  - simpl. lia.
  - discriminate.
  - repeat constructor.
Defined.

(** X8: below two rows: a single row gets the weight 1, and an empty
    matrix makes the final reshape fail. *)
Theorem sequence_weights_small (row : list Z) :
  (exists w, sequence_weights [row] = Ok [w] /\ Np.eq w (Finite 1)) /\
  sequence_weights [] = Raise ValueError.
Proof.
  split; [|reflexivity]. eexists. split; [reflexivity|]. simpl. reflexivity.
Qed.
(** ** Profiles: totals, symmetry and positivity *)

Lemma Qsum_map_add {A : Type} (f g : A -> Q) (l : list A) :
  Qsum (map (fun i => f i + g i) l) == Qsum (map f l) + Qsum (map g l).
Proof.
  induction l as [|x l IH]; [simpl; ring|].
  cbn [map]. rewrite !Qsum_cons, IH. ring.
Qed.

Lemma Qsum_map_ext {A : Type} (f g : A -> Q) (l : list A) :
  (forall i, f i == g i) -> Qsum (map f l) == Qsum (map g l).
Proof.
  intros H. induction l as [|x l IH]; [reflexivity|].
  cbn [map]. now rewrite !Qsum_cons, IH, H.
Qed.

Lemma Qsum_const_zero {A : Type} (l : list A) : Qsum (map (fun _ => 0) l) == 0.
Proof.
  induction l as [|x l IH]; [reflexivity|].
  cbn [map]. rewrite Qsum_cons, IH. ring.
Qed.

Lemma Qsum_indicator (x : Z) (q : Q) (a n : nat) :
  Qsum (map (fun i => if Z.eqb x (Z.of_nat i) then q else 0) (seq a n)) ==
  if ((Z.of_nat a <=? x) && (x <? Z.of_nat (a + n)))%Z%bool then q else 0.
Proof.
  revert a. induction n as [|n IH]; intros a.
  - simpl. destruct (Z.leb_spec (Z.of_nat a) x), (Z.ltb_spec x (Z.of_nat (a + 0)));
      simpl; try reflexivity. lia.
  - cbn [seq map]. rewrite Qsum_cons, IH.
    destruct (Z.eqb_spec x (Z.of_nat a)) as [E|E];
      destruct (Z.leb_spec (Z.of_nat (S a)) x), (Z.ltb_spec x (Z.of_nat (S a + n)));
      destruct (Z.leb_spec (Z.of_nat a) x), (Z.ltb_spec x (Z.of_nat (a + S n)));
      simpl; try lia; ring.
Qed.

(** The count of symbol [i] in column [c], over the rationals. *)
Lemma weighted_count_value (m : list (list Z)) (wq : list Q) (n c i : nat) :
  rectangular n m -> (c < n)%nat ->
  Np.sum (column (Finite 0) c
            (map2 (fun row wr =>
                     map (fun x => Np.mul (Np.of_bool (Z.eqb x (Z.of_nat i))) wr) row)
                  m (map Finite wq)))
  = Finite (Qsum (map2 (fun row q =>
                          (if Z.eqb (nth c row 0%Z) (Z.of_nat i) then 1 else 0) * q)
                       m wq)).
Proof.
  intros Hrect Hc. rewrite column_map2, map2_map_r.
  revert wq. induction Hrect as [|row m Hrow _ IH]; intros [|q wq];
    try reflexivity.
  cbn [map2]. rewrite sum_cons, IH. rewrite (nth_map_in _ _ (Finite 0) 0%Z) by lia.
  rewrite Qsum_cons. destruct (Z.eqb (nth c row 0%Z) (Z.of_nat i)); reflexivity.
Qed.

Lemma Qsum_rows_total (m : list (list Z)) (wq : list Q) (c : nat) :
  length wq = length m ->
  Forall (fun row => in_alphabet (nth c row 0%Z) = true) m ->
  Qsum (map (fun i =>
               Qsum (map2 (fun row q =>
                             (if Z.eqb (nth c row 0%Z) (Z.of_nat i) then 1 else 0) * q)
                          m wq))
            (seq 0 22))
  == Qsum wq.
Proof.
  intros Hlen Hin. revert wq Hlen.
  induction Hin as [|row m Hrow _ IH]; intros [|q wq] Hlen; simpl in Hlen; try discriminate.
  - cbn [map2]. apply (Qsum_const_zero (seq 0 22)).
  - cbn [map2].
    rewrite (Qsum_map_ext _ (fun i =>
               (if Z.eqb (nth c row 0%Z) (Z.of_nat i) then q else 0)
               + Qsum (map2 (fun row q => (if Z.eqb (nth c row 0%Z) (Z.of_nat i)
                                           then 1 else 0) * q) m wq))).
    + rewrite Qsum_map_add, IH by lia. rewrite Qsum_indicator, Qsum_cons.
      unfold in_alphabet in Hrow. apply andb_true_iff in Hrow. destruct Hrow as [H1 H2].
      apply Z.leb_le in H1, H2.
      replace ((Z.of_nat 0 <=? nth c row 0)%Z && (nth c row 0 <? Z.of_nat (0 + 22))%Z)%bool
        with true; [reflexivity|].
      symmetry. apply andb_true_iff. split; [apply Z.leb_le | apply Z.ltb_lt]; simpl; lia.
    + intros i. rewrite Qsum_cons.
      destruct (Z.eqb (nth c row 0%Z) (Z.of_nat i)); ring.
Qed.


(** X9: for a sequence matrix with entries in 0..21 and finite weights,
    the total that normalizes a column of [sequence_profile] is the sum of
    all the weights, and (when that sum is not zero) the entry [c, i] of the
    profile is the weight of the rows that carry [i] in column [c] divided
    by it. *)
Theorem sequence_profile_entry (seq_mat : list (list Z)) (wq : list Q) (c i : nat) :
  rectangular (shape1 seq_mat) seq_mat ->
  length wq = length seq_mat ->
  Forall (fun row => forallb in_alphabet row = true) seq_mat ->
  (c < shape1 seq_mat)%nat ->
  (i < 22)%nat ->
  (exists t, Np.sum (nth c (weighted_counts seq_mat (map Finite wq)) []) = Finite t /\
             t == Qsum wq) /\
  (~ Qsum wq == 0 ->
   Np.eq (nth i (nth c (sequence_profile seq_mat (Some (map Finite wq))) []) NaN)
         (Finite (Qsum (map2 (fun row q =>
                                (if Z.eqb (nth c row 0%Z) (Z.of_nat i) then 1 else 0) * q)
                             seq_mat wq)
                  / Qsum wq))).
Proof.
  intros Hrect Hlen Hrange Hc Hi.
  assert (Hcol : Forall (fun row => in_alphabet (nth c row 0%Z) = true) seq_mat).
  { apply Forall_forall. intros row Hrow. unfold rectangular in Hrect.
    rewrite Forall_forall in Hrect, Hrange. specialize (Hrange row Hrow).
    rewrite forallb_forall in Hrange. apply Hrange, nth_In.
    rewrite (Hrect row Hrow). exact Hc. }
  assert (Hrow : nth c (weighted_counts seq_mat (map Finite wq)) [] =
                 map Finite
                   (map (fun i => Qsum (map2 (fun row q =>
                           (if Z.eqb (nth c row 0%Z) (Z.of_nat i) then 1 else 0) * q)
                           seq_mat wq))
                        (seq 0 22))).
  { rewrite weighted_counts_row by exact Hc. rewrite map_map. apply map_ext.
    intros k. now apply weighted_count_value with (n := shape1 seq_mat). }
  assert (Htot : Np.sum (nth c (weighted_counts seq_mat (map Finite wq)) []) =
                 Finite (Qsum (map (fun i => Qsum (map2 (fun row q =>
                           (if Z.eqb (nth c row 0%Z) (Z.of_nat i) then 1 else 0) * q)
                           seq_mat wq)) (seq 0 22)))).
  { now rewrite Hrow, sum_map_Finite. }
  split.
  - eexists. split; [exact Htot|]. now apply Qsum_rows_total.
  - intros Hnz. unfold sequence_profile. cbn [weights_or_ones].
    rewrite normalize_rows_nth, Htot, Hrow, map_map.
    rewrite (nth_map_in _ _ NaN 0) by (now rewrite length_map, length_seq).
    rewrite (nth_map_in _ _ 0 0%nat) by (now rewrite length_seq).
    rewrite seq_nth by exact Hi. cbn [Nat.add].
    pose proof (@Qsum_rows_total seq_mat wq c Hlen Hcol) as Heq.
    rewrite div_finite by (now rewrite Heq).
    cbn [Np.eq]. now rewrite Heq.
Qed.

Lemma sequence_profile_entry_witness :
  let m := [[0; 1]; [0; 21]; [3; 1]]%Z in
  let wq := [1; 0.5; 0.25] in
  exists t, Np.sum (nth 1 (weighted_counts m (map Finite wq)) []) = Finite t /\
            t == Qsum wq.
Proof.
  intros m wq.
  apply (@sequence_profile_entry m wq 1 1).
  - repeat constructor.
  - reflexivity.
  - repeat constructor.
  - simpl. lia.
  - lia.
Defined.

(** X10: under the conditions of C2, the pairwise profile is symmetric:
    the entry [i, j, a, b] equals the entry [j, i, b, a]. *)
Theorem profile_combinatorial_symmetric (seq_mat : list (list Z))
  (weights : list npfloat) (w_prof : list (list npfloat)) (i j a b : nat) :
  rectangular (shape1 seq_mat) seq_mat ->
  length weights = length seq_mat ->
  Forall (fun w => Np.is_finite w) weights ->
  Forall (fun row => forallb in_alphabet row = true) seq_mat ->
  (shape1 w_prof <= 22)%nat ->
  (i < shape1 seq_mat)%nat -> (j < shape1 seq_mat)%nat ->
  (a < shape1 w_prof)%nat -> (b < shape1 w_prof)%nat ->
  Np.eq
    (nth b (nth a (nth j (nth i (profile_combinatorial seq_mat weights w_prof) []) []) [])
         NaN)
    (nth a (nth b (nth i (nth j (profile_combinatorial seq_mat weights w_prof) []) []) [])
         NaN).
Proof.
  intros Hrect Hlen Hfin Hrange HR Hi Hj Ha Hb.
  rewrite (profile_combinatorial_nth _ _ Hrect Hi Hj Ha Hb).
  rewrite (profile_combinatorial_nth _ _ Hrect Hj Hi Hb Ha).
  apply div_eq_compat, sum_eq_compat.
  apply Forall2_map2_ext with
    (P := fun row => length row = shape1 seq_mat /\ forallb in_alphabet row = true)
    (Q := fun w => Np.is_finite w); auto.
  - intros row w [Hl Hr] Hw.
    pose proof (@alphabet_entry _ _ _ Hl Hi Hr) as Hxi.
    pose proof (@alphabet_entry _ _ _ Hl Hj Hr) as Hxj.
    rewrite !combined_code by (assumption || lia).
    rewrite andb_comm. apply eq_refl_np.
  - unfold rectangular in Hrect. rewrite Forall_forall in Hrect, Hrange.
    apply Forall_forall. intros row Hrow. split; auto.
Qed.

Lemma profile_combinatorial_symmetric_witness :
  let m := [[0; 1]; [0; 1]; [1; 0]]%Z in
  let w := [Finite 1; Finite 2; Finite 3] in
  let w_prof := [[Finite 0.5; Finite 0.5]] in
  Np.eq (nth 1 (nth 0 (nth 1 (nth 0 (profile_combinatorial m w w_prof) []) []) []) NaN)
        (nth 0 (nth 1 (nth 0 (nth 1 (profile_combinatorial m w w_prof) []) []) []) NaN).
Proof.
  intros m w w_prof.
  apply (@profile_combinatorial_symmetric m w w_prof 0 1 0 1).
  - repeat constructor.
  - reflexivity.
  - repeat constructor.
  - repeat constructor.
  - simpl. lia.
  - simpl. lia.
  - simpl. lia.
  - simpl. lia.
  - simpl. lia.
Defined.
(** ** The regularized profile has no zero *)

Lemma count_positive_ge_1 (f : list npfloat) :
  Exists (fun x => fin_pos x = true) f -> (0 <= pseudocount f)%Z.
Proof.
  intros H. unfold pseudocount.
  assert (1 <= count_true (map (fun x => Np.gtb x (Finite 0)) f))%nat; [|lia].
  induction H as [x l Hx | x l _ IH]; unfold count_true in *; cbn [map filter].
  - assert (E : Np.gtb x (Finite 0) = true).
    { apply fin_pos_spec in Hx. destruct Hx as [q [-> Hq]].
      unfold Np.gtb. cbn [Np.ltb]. apply negb_true_iff.
      destruct (Qle_bool q 0) eqn:E; auto. apply Qle_bool_iff in E. exfalso; lra. }
    rewrite E. cbn [length]. lia.
  - destruct (Np.gtb x (Finite 0)); cbn [length]; lia.
Qed.

Lemma of_Z_nonneg (z : Z) : (0 <= z)%Z -> fin_nonneg (Np.of_Z z) = true.
Proof.
  intros H. simpl. apply Qle_bool_iff. change 0 with (inject_Z 0).
  now rewrite <- Zle_Qle.
Qed.

Lemma of_Z_pos (z : Z) : (0 < z)%Z -> fin_pos (Np.of_Z z) = true.
Proof.
  intros H. apply fin_pos_spec. exists (inject_Z z). split; [reflexivity|].
  change 0 with (inject_Z 0). now rewrite <- Zlt_Qlt.
Qed.

Section WithPriorPositive.

Variable AminoAcid : dict Z.
Variable AminoAcidFreq : ascii -> Q.
Variable BLOSUM62 : nat -> nat -> Z.
Variable exp : Q -> Q.
Variable r : nat.

Hypothesis exp_pos : forall x, 0 < exp x.
Hypothesis background_ok : positive_background AminoAcid AminoAcidFreq r = true.

Lemma prior_estimate_positive (f : list npfloat) :
  length f = r ->
  Forall (fun x => fin_nonneg x = true) f ->
  fin_pos (Np.sum f) = true ->
  Forall (fun x => fin_pos x = true)
         (prior_estimate AminoAcid AminoAcidFreq BLOSUM62 exp r f).
Proof.
  intros Hlen Hnn Hsum.
  destruct (background_pos AminoAcid AminoAcidFreq r background_ok) as [HlenP HposP].
  destruct (@q_mat_pos AminoAcid AminoAcidFreq BLOSUM62 exp r exp_pos background_ok)
    as [Hlenq Hq].
  pose proof (positive_sum_has_positive Hnn Hsum) as Hex.
  assert (Hlen2 : length f = length (background AminoAcid AminoAcidFreq r)) by congruence.
  destruct (map2_div_signs Hlen2 Hnn HposP) as [Hxn Hxp]. specialize (Hxp Hex).
  set (x := map2 Np.div f (background AminoAcid AminoAcidFreq r)) in *.
  assert (Hlenx : length x = r).
  { unfold x. rewrite map2_length, <- Hlen2, Hlen. apply Nat.min_id. }
  set (graw := vecmat r x (q_mat AminoAcid AminoAcidFreq BLOSUM62 exp r)).
  assert (Hg : Forall (fun y => fin_pos y = true) graw).
  { unfold graw, vecmat, sum_axis0. apply Forall_forall. intros y Hy.
    apply in_map_iff in Hy. destruct Hy as [b [<- Hb]]. apply in_seq in Hb.
    rewrite column_map2.
    apply sum_map2_pos with
      (R := fun row => length row = r /\ Forall (fun x => fin_pos x = true) row); auto.
    - intros xa row Ha [Hl Hp].
      rewrite (nth_map_in _ _ (Finite 0) (Finite 0)) by lia.
      apply mul_nonneg; auto. apply pos_nonneg.
      rewrite Forall_forall in Hp. apply Hp, nth_In. lia.
    - intros xa row Ha [Hl Hp].
      rewrite (nth_map_in _ _ (Finite 0) (Finite 0)) by lia.
      apply mul_pos; auto.
      rewrite Forall_forall in Hp. apply Hp, nth_In. lia.
    - congruence. }
  assert (Hpt : fin_pos (Np.sum graw) = true).
  { apply sum_pos; [now apply Forall_pos_nonneg|].
    destruct graw as [|y graw'] eqn:E; [|inversion Hg; subst; now left].
    assert (Hl0 : length graw = r).
    { unfold graw, vecmat, sum_axis0. now rewrite length_map, length_seq. }
    rewrite E in Hl0. simpl in Hl0. subst r. destruct f; [inversion Hex | discriminate]. }
  unfold prior_estimate. fold x. fold graw.
  apply Forall_forall. intros y Hy. apply in_map_iff in Hy.
  destruct Hy as [g [<- Hin]]. rewrite Forall_forall in Hg.
  apply div_pos; auto.
Qed.

Lemma with_prior_row_positive (f : list npfloat) :
  length f = r ->
  Forall (fun x => fin_nonneg x = true) f ->
  exactly_one f ->
  Forall (fun x => fin_pos x = true)
         (with_prior_row AminoAcid AminoAcidFreq BLOSUM62 exp r f).
Proof.
  intros Hlen Hnn [s [Hs H1]].
  assert (Hp : fin_pos (Np.sum f) = true).
  { rewrite Hs. apply fin_pos_spec. exists s. split; auto. lra. }
  pose proof (prior_estimate_positive Hlen Hnn Hp) as Hg.
  pose proof (count_positive_ge_1 (positive_sum_has_positive Hnn Hp)) as Ha.
  unfold with_prior_row.
  apply Forall_map2 with (P := fun x => fin_nonneg x = true)
                         (Q := fun x => fin_pos x = true); auto.
  intros x g Hx Hgx. apply div_pos.
  - apply add_nonneg_pos.
    + apply mul_nonneg; auto. now apply of_Z_nonneg.
    + apply mul_pos; auto.
  - apply of_Z_pos. unfold beta. lia.
Qed.

End WithPriorPositive.

(** X11: regularizing a profile of non-negative rows that add up to one,
    with positive background frequencies and a positive exponential, gives
    a profile in which every entry is a positive number. *)
Theorem sequence_profile_with_prior_positive (AminoAcid : dict Z)
  (AminoAcidFreq : ascii -> Q) (BLOSUM62 : nat -> nat -> Z) (exp : Q -> Q)
  (prof_freq : list (list npfloat)) :
  (forall x, 0 < exp x) ->
  positive_background AminoAcid AminoAcidFreq (shape1 prof_freq) = true ->
  rectangular (shape1 prof_freq) prof_freq ->
  Forall (fun row => Forall (fun x => fin_nonneg x = true) row /\ exactly_one row)
         prof_freq ->
  Forall (Forall (fun x => fin_pos x = true))
         (sequence_profile_with_prior AminoAcid AminoAcidFreq BLOSUM62 exp prof_freq).
Proof.
  intros Hexp Hbg Hrect Hrows. unfold sequence_profile_with_prior.
  apply Forall_forall. intros out Hout. apply in_map_iff in Hout.
  destruct Hout as [f [<- Hf]].
  unfold rectangular in Hrect. rewrite Forall_forall in Hrect, Hrows.
  destruct (Hrows f Hf) as [Hnn Hone].
  exact (@with_prior_row_positive AminoAcid AminoAcidFreq BLOSUM62 exp
           (shape1 prof_freq) Hexp Hbg f (Hrect f Hf) Hnn Hone).
Qed.

Lemma sequence_profile_with_prior_positive_witness :
  Forall (Forall (fun x => fin_pos x = true))
         (sequence_profile_with_prior sample_alphabet sample_freq sample_scores sample_exp
            [[Finite 0; Finite 1; Finite 0]; [Finite 0.5; Finite 0.25; Finite 0.25]]).
Proof.
  apply sequence_profile_with_prior_positive.
  - exact sample_exp_pos.
  - vm_compute. reflexivity.
  - repeat constructor.
  - repeat (apply Forall_cons || apply Forall_nil);
      (split; [repeat constructor | eexists; split; reflexivity]).
Defined.
(** ** Mutual information away from the diagonal *)

Lemma raw_mi_square (H_2D : list (list npfloat)) (H_1D : list npfloat) (n : nat) :
  square n H_2D -> length H_1D = n ->
  square n (map2 (fun h2_row h1_i =>
                    map2 (fun h2 h1_j => Np.add (Np.add (Np.neg h2) h1_i) h1_j)
                         h2_row H_1D)
                 H_2D H_1D).
Proof.
  intros [L2 R2] L1. split.
  - rewrite map2_length, L1, L2. apply Nat.min_id.
  - apply Forall_map2 with (P := fun row => length row = n) (Q := fun _ => True); auto.
    + intros r h Hr _. rewrite map2_length, Hr, L1. apply Nat.min_id.
    + apply Forall_forall. auto.
Qed.

Lemma raw_mi_nth (H_2D : list (list npfloat)) (H_1D : list npfloat) (n i j : nat) :
  square n H_2D -> length H_1D = n -> (i < n)%nat -> (j < n)%nat ->
  nth j (nth i (map2 (fun h2_row h1_i =>
                        map2 (fun h2 h1_j => Np.add (Np.add (Np.neg h2) h1_i) h1_j)
                             h2_row H_1D)
                     H_2D H_1D) []) NaN
  = Np.add (Np.add (Np.neg (nth j (nth i H_2D []) NaN)) (nth i H_1D NaN)) (nth j H_1D NaN).
Proof.
  intros S2 L1 Hi Hj.
  rewrite (map2_nth _ H_2D H_1D [] [] NaN) by (destruct S2; lia).
  rewrite (map2_nth (fun h2 h1_j => Np.add (Np.add (Np.neg h2) (nth i H_1D NaN)) h1_j)
             (nth i H_2D []) H_1D NaN NaN NaN);
    [reflexivity | rewrite (square_nth_length S2 Hi) | rewrite L1]; exact Hj.
Qed.

(** X12: for profiles of finite non-negative frequencies, the MI channel
    away from the diagonal is [H_1D[i] + H_1D[j] - H_2D[i, j]]: taking the
    diagonal off leaves the other entries as they are. *)
Theorem mutual_information_off_diagonal (log : Q -> Q) (prof_1D : list (list npfloat))
  (prof_2D : list (list (list (list npfloat)))) (i j : nat) :
  let L := length prof_1D in
  ~ log 21 == 0 ->
  frequencies_1D prof_1D ->
  frequencies_2D prof_2D ->
  square L prof_2D ->
  (i < L)%nat -> (j < L)%nat -> i <> j ->
  Np.eq (nth j (nth i (mi_matrix log prof_1D prof_2D) []) NaN)
        (Np.sub (Np.add (nth i (entropy_1D log prof_1D) NaN)
                        (nth j (entropy_1D log prof_1D) NaN))
                (nth j (nth i (entropy_2D log prof_2D) []) NaN)).
Proof.
  intros L Hlog F1 F2 S2 Hi Hj Hne.
  destruct (@entropy_1D_finite log Hlog prof_1D F1) as [L1 Fin1].
  destruct (@entropy_2D_finite log Hlog prof_1D prof_2D F2 S2) as [SH2 Fin2].
  fold L in L1, SH2. unfold mi_matrix.
  rewrite (no_diag_nth (@raw_mi_square _ _ L SH2 L1) Hi Hj).
  rewrite (@raw_mi_nth _ _ L i j SH2 L1 Hi Hj).
  pose proof (all_finite_nth SH2 Fin2 Hi Hj) as Hh2.
  assert (Hh1 : forall k, (k < L)%nat -> Np.is_finite (nth k (entropy_1D log prof_1D) NaN)).
  { intros k Hk. rewrite Forall_forall in Fin1. apply Fin1, nth_In. lia. }
  pose proof (Hh1 i Hi) as Hi1. pose proof (Hh1 j Hj) as Hj1.
  destruct (nth j (nth i (entropy_2D log prof_2D) []) NaN) as [c| | |];
    try (simpl in Hh2; contradiction).
  destruct (nth i (entropy_1D log prof_1D) NaN) as [a| | |];
    try (simpl in Hi1; contradiction).
  destruct (nth j (entropy_1D log prof_1D) NaN) as [b| | |];
    try (simpl in Hj1; contradiction).
  destruct (Nat.ltb_spec j i), (Nat.ltb_spec i j); try lia; simpl; ring.
Qed.

Lemma mutual_information_off_diagonal_witness :
  let prof_1D := [[Finite 1; Finite 0]; [Finite 0.5; Finite 0.5]] in
  let prof_2D :=
    [[[[Finite 1; Finite 0]; [Finite 0; Finite 0]];
      [[Finite 0.5; Finite 0.5]; [Finite 0; Finite 0]]];
     [[[Finite 0.5; Finite 0]; [Finite 0.5; Finite 0]];
      [[Finite 0.5; Finite 0]; [Finite 0; Finite 0.5]]]] in
  Np.eq (nth 1 (nth 0 (mi_matrix sample_log prof_1D prof_2D) []) NaN)
        (Np.sub (Np.add (nth 0 (entropy_1D sample_log prof_1D) NaN)
                        (nth 1 (entropy_1D sample_log prof_1D) NaN))
                (nth 1 (nth 0 (entropy_2D sample_log prof_2D) []) NaN)).
Proof.
  intros prof_1D prof_2D.
  apply (@mutual_information_off_diagonal sample_log prof_1D prof_2D 0 1).
  - exact sample_log_21.
  - repeat constructor.
  - repeat constructor.
  - split; [reflexivity | repeat constructor].
  - simpl. lia.
  - simpl. lia.
  - discriminate.
Defined.
(** ** Deletion probability *)

Lemma chars_length (s : string) : length (chars s) = String.length s.
Proof. induction s as [|c s IH]; simpl; auto. Qed.

Lemma deletion_vec_length (k : nat) (l : list ascii) :
  length (deletion_vec k l) = length (filter (fun c => negb (islower c)) l).
Proof.
  revert k; induction l as [|c l IH]; intros k; simpl; auto.
  destruct (islower c); simpl; auto.
Qed.

Lemma deletion_vec_no_insertion (l : list ascii) :
  forallb (fun c => negb (islower c)) l = true ->
  deletion_vec 0 l = repeat 0%Z (length l).
Proof.
  induction l as [|c l IH]; simpl; auto. intros H.
  apply andb_true_iff in H. destruct H as [Hc Hl].
  apply negb_true_iff in Hc. rewrite Hc. simpl. now rewrite IH.
Qed.

Lemma shape1_map_map {A B : Type} (f : A -> B) (m : list (list A)) :
  shape1 (map (map f) m) = shape1 m.
Proof. destruct m; simpl; auto. now rewrite length_map. Qed.

Lemma Zsum_indicator_bounds (l : list Z) :
  Forall (fun x => x = 0 \/ x = 1)%Z l -> (0 <= Zsum l <= Z.of_nat (length l))%Z.
Proof.
  induction 1 as [|x l Hx _ IH]; simpl Zsum; [simpl; lia|].
  cbn [length]. rewrite Nat2Z.inj_succ. destruct Hx; subst; lia.
Qed.

Lemma sequence_deletion_probability_nonempty (sequence : string)
  (a3m_seqs : list string) :
  a3m_seqs <> [] ->
  sequence_deletion_probability sequence a3m_seqs =
  (deletion_matrix <- np_array_int (map (fun s => deletion_vec 0 (chars s)) a3m_seqs) ;;
   let deletion_matrix :=
     map (map (fun x => if Z.eqb x 0 then 0%Z else 1%Z)) deletion_matrix in
   reshape_column (String.length sequence)
     (map (fun c =>
             Np.div (Np.of_Z (Zsum (column 0%Z c deletion_matrix)))
                    (Np.of_nat (length deletion_matrix)))
          (seq 0 (shape1 deletion_matrix)))).
Proof. intros H. destruct a3m_seqs; [congruence | reflexivity]. Qed.

(** X13: on a non-empty alignment whose rows all have as many
    upper-case and gap characters as the query has characters,
    [sequence_deletion_probability] returns one number per column, each
    between 0 and 1. *)
Theorem sequence_deletion_probability_bounds (sequence : string) (a3m_seqs : list string) :
  a3m_seqs <> [] ->
  Forall (fun s => length (filter (fun c => negb (islower c)) (chars s))
                   = String.length sequence) a3m_seqs ->
  exists probs,
    sequence_deletion_probability sequence a3m_seqs = Ok probs /\
    length probs = String.length sequence /\
    Forall (fun p => exists q, p = Finite q /\ 0 <= q <= 1) probs.
Proof.
  intros Hne Hshape. set (L := String.length sequence) in *.
  set (rows := map (fun s => deletion_vec 0 (chars s)) a3m_seqs).
  assert (Hrect : rectangular L rows).
  { unfold rectangular, rows. apply Forall_forall. intros row Hrow.
    apply in_map_iff in Hrow. destruct Hrow as [s [<- Hs]].
    rewrite deletion_vec_length. rewrite Forall_forall in Hshape. now apply Hshape. }
  assert (Hrows : rows <> []).
  { unfold rows. destruct a3m_seqs; [congruence | discriminate]. }
  assert (Hs1 : shape1 rows = L).
  { destruct (shape1_cases Hrect) as [E|E]; [exact E | contradiction]. }
  rewrite (sequence_deletion_probability_nonempty sequence Hne). fold rows.
  rewrite (np_array_int_rectangular Hrect). cbn [bind].
  rewrite shape1_map_map, Hs1, length_map.
  unfold reshape_column. rewrite length_map, length_seq, Nat.eqb_refl.
  eexists. split; [reflexivity|]. split; [now rewrite length_map, length_seq|].
  apply Forall_forall. intros p Hp. apply in_map_iff in Hp.
  destruct Hp as [c [<- Hc]].
  assert (HM : (0 < Z.of_nat (length rows))%Z).
  { destruct rows; [congruence | simpl; lia]. }
  unfold Np.of_nat, Np.of_Z. rewrite div_finite by (apply inject_Z_nonzero; lia).
  eexists. split; [reflexivity|].
  set (col := column 0%Z c (map (map (fun x => if (x =? 0)%Z then 0%Z else 1%Z)) rows)).
  assert (Hb : (0 <= Zsum col <= Z.of_nat (length rows))%Z).
  { replace (length rows) with (length col)
      by (unfold col, column; now rewrite !length_map).
    apply Zsum_indicator_bounds. unfold col, column. apply Forall_forall.
    intros x Hx. apply in_map_iff in Hx. destruct Hx as [row [<- Hrow]].
    apply in_map_iff in Hrow. destruct Hrow as [row0 [<- _]].
    destruct (Nat.lt_ge_cases c (length (map (fun x => if (x =? 0)%Z then 0%Z else 1%Z) row0)))
      as [Hl|Hl].
    - rewrite length_map in Hl. rewrite (nth_map_in _ _ 0%Z 0%Z Hl).
      destruct (_ =? 0)%Z; auto.
    - rewrite nth_overflow by exact Hl. auto. }
  assert (Hq : 0 < inject_Z (Z.of_nat (length rows))).
  { change 0 with (inject_Z 0). now rewrite <- Zlt_Qlt. }
  split.
  - apply Qle_shift_div_l; [exact Hq|]. rewrite Qmult_0_l.
    change 0 with (inject_Z 0). rewrite <- Zle_Qle. lia.
  - apply Qle_shift_div_r; [exact Hq|]. rewrite Qmult_1_l. rewrite <- Zle_Qle. lia.
Qed.

Lemma sequence_deletion_probability_bounds_witness :
  exists probs,
    sequence_deletion_probability "ACD" ["ACD"; "AxxCD"; "AyC-"]%string = Ok probs /\
    length probs = 3%nat /\
    Forall (fun p => exists q, p = Finite q /\ 0 <= q <= 1) probs.
Proof.
  apply (@sequence_deletion_probability_bounds "ACD" ["ACD"; "AxxCD"; "AyC-"]%string).
  - discriminate.
  - repeat constructor.
Defined.

Lemma Zsum_zeros (l : list Z) : Forall (fun x => x = 0%Z) l -> Zsum l = 0%Z.
Proof. induction 1 as [|x l Hx _ IH]; simpl; [reflexivity|]. subst. exact IH. Qed.

(** X14: when no row of the alignment holds a lowercase character, every
    deletion probability is zero. *)
Theorem sequence_deletion_probability_no_insertion (sequence : string)
  (a3m_seqs : list string) :
  a3m_seqs <> [] ->
  Forall (fun s => forallb (fun c => negb (islower c)) (chars s) = true
                   /\ String.length s = String.length sequence) a3m_seqs ->
  exists probs,
    sequence_deletion_probability sequence a3m_seqs = Ok probs /\
    length probs = String.length sequence /\
    Forall (fun p => Np.eq p (Finite 0)) probs.
Proof.
  intros Hne Hrows. set (L := String.length sequence) in *.
  set (rows := map (fun s => deletion_vec 0 (chars s)) a3m_seqs).
  assert (Hzero : Forall (fun row => row = repeat 0%Z L) rows).
  { unfold rows. apply Forall_forall. intros row Hrow. apply in_map_iff in Hrow.
    destruct Hrow as [s [<- Hs]]. rewrite Forall_forall in Hrows.
    destruct (Hrows s Hs) as [Hlow Hlen].
    rewrite (deletion_vec_no_insertion _ Hlow), chars_length. now rewrite Hlen. }
  assert (Hrect : rectangular L rows).
  { unfold rectangular. revert Hzero. apply Forall_impl. intros row ->.
    apply repeat_length. }
  assert (Hrne : rows <> []).
  { unfold rows. destruct a3m_seqs; [congruence | discriminate]. }
  assert (Hs1 : shape1 rows = L).
  { destruct (shape1_cases Hrect) as [E|E]; [exact E | contradiction]. }
  rewrite (sequence_deletion_probability_nonempty sequence Hne). fold rows.
  rewrite (np_array_int_rectangular Hrect). cbn [bind].
  rewrite shape1_map_map, Hs1, length_map.
  unfold reshape_column. rewrite length_map, length_seq, Nat.eqb_refl.
  eexists. split; [reflexivity|]. split; [now rewrite length_map, length_seq|].
  apply Forall_forall. intros p Hp. apply in_map_iff in Hp.
  destruct Hp as [c [<- Hc]].
  rewrite Zsum_zeros.
  - unfold Np.of_nat, Np.of_Z. rewrite div_finite.
    + cbn [Np.eq]. unfold Qdiv. change (inject_Z 0) with 0. ring.
    + apply inject_Z_nonzero. destruct rows; [congruence | simpl; lia].
  - unfold column. apply Forall_forall. intros x Hx.
    apply in_map_iff in Hx. destruct Hx as [row [<- Hrow]].
    apply in_map_iff in Hrow. destruct Hrow as [row0 [<- Hrow0]].
    rewrite Forall_forall in Hzero. rewrite (Hzero row0 Hrow0).
    destruct (Nat.lt_ge_cases c L) as [Hl|Hl].
    + rewrite (nth_map_in _ _ 0%Z 0%Z) by (now rewrite repeat_length).
      now rewrite nth_repeat_lt.
    + rewrite nth_overflow; [reflexivity|]. now rewrite length_map, repeat_length.
Qed.

Lemma sequence_deletion_probability_no_insertion_witness :
  exists probs,
    sequence_deletion_probability "ACD" ["ACD"; "A-D"; "GGG"]%string = Ok probs /\
    length probs = 3%nat /\
    Forall (fun p => Np.eq p (Finite 0)) probs.
Proof.
  apply (@sequence_deletion_probability_no_insertion "ACD" ["ACD"; "A-D"; "GGG"]%string).
  - discriminate.
  - repeat constructor.
Defined.

(** X15: [sequence_deletion_probability] raises [ValueError] when the
    rows of a non-empty alignment have a common number of upper-case and
    gap characters that is not the length of the query; on an empty
    alignment the quotient is the scalar [0 / 0], accepted only for a
    query of one character. *)
Theorem sequence_deletion_probability_reshape (sequence : string) :
  (forall a3m_seqs n,
     a3m_seqs <> [] ->
     Forall (fun s => length (filter (fun c => negb (islower c)) (chars s)) = n) a3m_seqs ->
     n <> String.length sequence ->
     sequence_deletion_probability sequence a3m_seqs = Raise ValueError) /\
  sequence_deletion_probability sequence [] =
  if Nat.eqb (String.length sequence) 1 then Ok [NaN] else Raise ValueError.
Proof.
  split.
  - intros a3m_seqs n Hne Hshape Hn.
    set (rows := map (fun s => deletion_vec 0 (chars s)) a3m_seqs).
    assert (Hrect : rectangular n rows).
    { unfold rectangular, rows. apply Forall_forall. intros row Hrow.
      apply in_map_iff in Hrow. destruct Hrow as [s [<- Hs]].
      rewrite deletion_vec_length. rewrite Forall_forall in Hshape. now apply Hshape. }
    assert (Hrne : rows <> []).
    { unfold rows. destruct a3m_seqs; [congruence | discriminate]. }
    assert (Hs1 : shape1 rows = n).
    { destruct (shape1_cases Hrect) as [E|E]; [exact E | contradiction]. }
    rewrite (sequence_deletion_probability_nonempty sequence Hne). fold rows.
    rewrite (np_array_int_rectangular Hrect). cbn [bind].
    rewrite shape1_map_map, Hs1. unfold reshape_column.
    rewrite length_map, length_seq.
    replace (n =? String.length sequence)%nat with false; [reflexivity|].
    symmetry. now apply Nat.eqb_neq.
  - unfold sequence_deletion_probability, reshape_column. cbn [length].
    rewrite Nat.eqb_sym. reflexivity.
Qed.

Lemma sequence_deletion_probability_reshape_witness :
  sequence_deletion_probability "ACD" ["ACDE"; "AxCDE"]%string = Raise ValueError.
Proof.
  apply (proj1 (sequence_deletion_probability_reshape "ACD")
           ["ACDE"; "AxCDE"]%string 4%nat).
  - discriminate.
  - repeat constructor.
  - simpl. lia.
Defined.
(** ** Gap co-occurrence *)

Lemma Zsum_indicator_count {A : Type} (p : A -> bool) (l : list A) :
  Zsum (map (fun x => if p x then 1%Z else 0%Z) l) = Z.of_nat (length (filter p l)).
Proof.
  induction l as [|x l IH]; [reflexivity|].
  cbn [map filter]. unfold Zsum in *. cbn [fold_right]. rewrite IH.
  destruct (p x); cbn [length]; lia.
Qed.

(** X16: with the gap code in the alphabet, the entry [i, j] of
    [sequence_gap_matrix] is the number of rows that have a gap in column
    [i] and in column [j], divided by the number of rows; the matrix is
    symmetric. *)
Theorem sequence_gap_matrix_entry (AminoAcid : dict Z) (gap : Z)
  (seq_mat : list (list Z)) :
  dict_get AminoAcid gap_char = Some gap ->
  rectangular (shape1 seq_mat) seq_mat ->
  seq_mat <> [] ->
  exists gap_matrix,
    sequence_gap_matrix AminoAcid seq_mat = Ok gap_matrix /\
    forall i j, (i < shape1 seq_mat)%nat -> (j < shape1 seq_mat)%nat ->
      nth j (nth i gap_matrix []) NaN =
      Finite (inject_Z (Z.of_nat
                (length (filter (fun row => Z.eqb (nth i row 0%Z) gap
                                            && Z.eqb (nth j row 0%Z) gap)%bool seq_mat)))
              / inject_Z (Z.of_nat (length seq_mat))) /\
      nth j (nth i gap_matrix []) NaN = nth i (nth j gap_matrix []) NaN.
Proof.
  intros Hgap Hrect Hne. unfold sequence_gap_matrix, dict_item. rewrite Hgap. cbn [bind].
  eexists. split; [reflexivity|].
  set (ind := fun x : Z => if (x =? gap)%Z then 1%Z else 0%Z).
  set (gaps := map (map ind) seq_mat).
  assert (Hs : shape1 gaps = shape1 seq_mat) by apply shape1_map_map.
  assert (Hcol : forall c, (c < shape1 seq_mat)%nat ->
                 column 0%Z c gaps = map (fun row => ind (nth c row 0%Z)) seq_mat).
  { intros c Hc. unfold gaps. now apply column_map_map with (n := shape1 seq_mat). }
  assert (Hentry : forall i j, (i < shape1 seq_mat)%nat -> (j < shape1 seq_mat)%nat ->
            nth j (nth i (map (map (fun s => Np.div (Np.of_Z s)
                                                (Np.of_nat (length seq_mat))))
                              (matmul (transpose gaps) gaps)) []) NaN =
            Finite (inject_Z (Z.of_nat
                (length (filter (fun row => Z.eqb (nth i row 0%Z) gap
                                            && Z.eqb (nth j row 0%Z) gap)%bool seq_mat)))
              / inject_Z (Z.of_nat (length seq_mat)))).
  { intros i j Hi Hj. unfold matmul, transpose. rewrite Hs, !map_map.
    rewrite (nth_map_seq _ [] Hi), map_map, (nth_map_seq _ NaN Hj).
    rewrite (Hcol i Hi), (Hcol j Hj), map2_map_map.
    rewrite (map_ext _ (fun row => if ((nth i row 0 =? gap)%Z && (nth j row 0 =? gap)%Z)%bool
                                   then 1%Z else 0%Z)).
    - rewrite Zsum_indicator_count. unfold Np.of_nat, Np.of_Z.
      apply div_finite. apply inject_Z_nonzero. destruct seq_mat; [congruence | simpl; lia].
    - intros row. unfold ind.
      destruct (nth i row 0 =? gap)%Z, (nth j row 0 =? gap)%Z; reflexivity. }
  intros i j Hi Hj. split; [now apply Hentry|].
  rewrite (Hentry i j Hi Hj), (Hentry j i Hj Hi). do 4 f_equal.
  apply filter_length_ext. intros row _. apply andb_comm.
Qed.

Lemma sequence_gap_matrix_entry_witness :
  exists gap_matrix,
    sequence_gap_matrix sample_alphabet [[0; 21; 21]; [0; 21; 3]; [21; 1; 21]]%Z
    = Ok gap_matrix /\
    nth 2 (nth 1 gap_matrix []) NaN = nth 1 (nth 2 gap_matrix []) NaN.
Proof.
  destruct (@sequence_gap_matrix_entry sample_alphabet 21%Z
              [[0; 21; 21]; [0; 21; 3]; [21; 1; 21]]%Z eq_refl)
    as [G [HG Hent]].
  - repeat constructor.
  - discriminate.
  - exists G. split; [exact HG|]. apply (Hent 1%nat 2%nat); simpl; lia.
Defined.
(** ** One-hot encoding of codes outside the alphabet *)

Lemma amino_acid_to_numeric_absorb (AminoAcid : dict Z) (s : ascii) :
  amino_acid_to_numeric AminoAcid (absorb AminoAcid s) = amino_acid_to_numeric AminoAcid s.
Proof.
  unfold absorb, amino_acid_to_numeric, dict_item.
  destruct (dict_get AminoAcid s) as [i|] eqn:E; [now rewrite E|].
  destruct (dict_get AminoAcid unknown_char); reflexivity.
Qed.

Lemma valid_char_absorb (AminoAcid : dict Z) (s : ascii) :
  valid_char s = true -> valid_char (absorb AminoAcid s) = true.
Proof. unfold absorb. destruct (dict_get AminoAcid s); auto. Qed.

Lemma mapM_map {A B C : Type} (f : B -> result C) (g : A -> B) (l : list A) :
  mapM f (map g l) = mapM (fun x => f (g x)) l.
Proof. induction l as [|x l IH]; simpl; auto. now rewrite IH. Qed.

Lemma mapM_ext {A B : Type} (f g : A -> result B) (l : list A) :
  (forall x, f x = g x) -> mapM f l = mapM g l.
Proof. intros H. induction l as [|x l IH]; simpl; auto. now rewrite H, IH. Qed.

(** X17: in a sequence of letters and gaps, replacing every code that is
    not in the alphabet by [X] does not change the one-hot encoding: the
    encoding cannot tell unknown codes apart. *)
Theorem sequence_one_hot_encoding_absorbs (AminoAcid : dict Z) (sequence : string) :
  valid_sequence sequence = true ->
  sequence_one_hot_encoding AminoAcid
    (string_of_list_ascii (map (absorb AminoAcid) (chars sequence)))
  = sequence_one_hot_encoding AminoAcid sequence.
Proof.
  intros Hv. unfold sequence_one_hot_encoding. rewrite !valid_sequence_check, Hv.
  assert (Hv' : valid_sequence
                  (string_of_list_ascii (map (absorb AminoAcid) (chars sequence))) = true).
  { unfold valid_sequence, chars in *. rewrite list_ascii_of_string_of_list_ascii.
    rewrite forallb_forall in Hv. apply forallb_forall. intros c Hc.
    apply in_map_iff in Hc. destruct Hc as [c0 [<- Hc0]].
    apply valid_char_absorb. now apply Hv. }
  rewrite Hv'. cbn [negb]. unfold chars.
  rewrite list_ascii_of_string_of_list_ascii, mapM_map.
  apply mapM_ext. intros c. now rewrite amino_acid_to_numeric_absorb.
Qed.

Lemma sequence_one_hot_encoding_absorbs_witness :
  sequence_one_hot_encoding sample_alphabet "AXzX-"%string =
  sequence_one_hot_encoding sample_alphabet "ABzU-"%string.
Proof.
  symmetry.
  exact (@sequence_one_hot_encoding_absorbs sample_alphabet "ABzU-"%string eq_refl).
Defined.

(** ** Static features of a weighted alignment *)

(** X18: on a rectangular matrix with at least two rows and one column,
    [sequence_static_prop] applied to the weights of [sequence_weights]
    returns one row [i, L, M, e] per column, where the effective number of
    sequences [e] is positive and at most the number [M] of rows. *)
Theorem sequence_static_prop_of_weights (seq_mat : list (list Z)) :
  (2 <= length seq_mat)%nat ->
  (0 < shape1 seq_mat)%nat ->
  rectangular (shape1 seq_mat) seq_mat ->
  exists weights feat e,
    sequence_weights seq_mat = Ok weights /\
    sequence_static_prop seq_mat weights = Ok feat /\
    length feat = shape1 seq_mat /\
    0 < e <= inject_Z (Z.of_nat (length seq_mat)) /\
    forall i, (i < shape1 seq_mat)%nat ->
      nth i feat [] =
      [Np.of_nat i; Np.of_nat (shape1 seq_mat); Np.of_nat (length seq_mat); Finite e].
Proof.
  intros HM HL Hrect.
  pose proof (sequence_weights_closed_form HM Hrect) as Hw.
  destruct (closed_form_weights_bounds seq_mat (Nat.le_trans _ _ _ (Nat.le_succ_diag_r 1) HM))
    as [_ [e [He Hb]]].
  set (weights := map _ (seq 0 (length seq_mat))) in *.
  exists weights.
  exists (map (fun i => [Np.of_nat i; Np.of_nat (shape1 seq_mat);
                         Np.of_nat (length seq_mat); Finite e])
              (seq 0 (shape1 seq_mat))).
  exists e. split; [exact Hw|]. split.
  - unfold sequence_static_prop. rewrite He.
    destruct (shape1 seq_mat) as [|n] eqn:EL; [lia | reflexivity].
  - split; [now rewrite length_map, length_seq|]. split; [exact Hb|].
    intros i Hi. now rewrite (nth_map_seq _ [] Hi).
Qed.

Lemma sequence_static_prop_of_weights_witness :
  let m := [[0; 1; 2]; [0; 1; 3]; [5; 5; 5]]%Z in
  exists weights feat e,
    sequence_weights m = Ok weights /\
    sequence_static_prop m weights = Ok feat /\
    length feat = shape1 m /\
    0 < e <= inject_Z (Z.of_nat (length m)) /\
    forall i, (i < shape1 m)%nat ->
      nth i feat [] = [Np.of_nat i; Np.of_nat (shape1 m); Np.of_nat (length m); Finite e].
Proof.
  intros m. apply (@sequence_static_prop_of_weights m).
  - simpl. lia.
  - simpl. lia.
  - repeat constructor.
Defined.
(** ** Mean contact potential *)

Lemma map2_app {A B C : Type} (f : A -> B -> C) (a1 a2 : list A) (b1 b2 : list B) :
  length a1 = length b1 ->
  map2 f (a1 ++ a2) (b1 ++ b2) = map2 f a1 b1 ++ map2 f a2 b2.
Proof.
  revert b1; induction a1 as [|x a1 IH]; intros [|y b1] H; simpl in H; try discriminate;
    [reflexivity|].
  simpl. f_equal. apply IH. lia.
Qed.

Lemma concat_mat_map2 {A B C : Type} (f : A -> B -> C) (n : nat)
  (m1 : list (list A)) (m2 : list (list B)) :
  rectangular n m1 -> rectangular n m2 ->
  concat (mat_map2 f m1 m2) = map2 f (concat m1) (concat m2).
Proof.
  unfold mat_map2. intros R1. revert m2.
  induction R1 as [|r1 m1 H1 _ IH]; intros m2 R2.
  - reflexivity.
  - destruct R2 as [|r2 m2 H2 R2]; simpl.
    + now destruct (r1 ++ concat m1).
    + rewrite map2_app by congruence. f_equal. now apply IH.
Qed.

(** A sum of non-negative numbers, each multiplied by a number between
    [lo] and [hi], lies between [lo] and [hi] times their sum. *)
Lemma weighted_sum_bounds (lo hi : Q) (ps cs : list npfloat) :
  length ps = length cs ->
  Forall (fun p => fin_nonneg p = true) ps ->
  Forall (fun c => exists q, c = Finite q /\ lo <= q <= hi) cs ->
  exists s t, Np.sum (map2 Np.mul ps cs) = Finite s /\ Np.sum ps = Finite t /\
              lo * t <= s <= hi * t.
Proof.
  intros Hlen Hp. revert cs Hlen.
  induction Hp as [|p ps Hp0 _ IH]; intros [|c cs] Hlen Hc; simpl in Hlen; try discriminate.
  - exists 0, 0. repeat split; try reflexivity; lra.
  - inversion Hc as [|? ? [q [-> Hq]] Hcs]; subst.
    destruct (IH cs) as [s [t [Hs [Ht Hb]]]]; [lia | exact Hcs |].
    apply fin_nonneg_spec in Hp0. destruct Hp0 as [a [-> Ha]].
    cbn [map2]. rewrite !sum_cons, Hs, Ht. cbn [Np.mul Np.add].
    exists (a * q + s), (a + t). repeat split; try reflexivity.
    + assert (lo * a <= q * a) by (apply Qmult_le_compat_r; lra).
      lra.
    + assert (q * a <= hi * a) by (apply Qmult_le_compat_r; lra).
      lra.
Qed.

Lemma concat_length_rectangular {A : Type} (n : nat) (m : list (list A)) :
  rectangular n m -> length (concat m) = (length m * n)%nat.
Proof.
  induction 1 as [|row m Hrow _ IH]; [reflexivity|].
  simpl. rewrite length_app, IH, Hrow. reflexivity.
Qed.

(** X19: where a block of the pairwise profile is an n x n array of
    non-negative numbers that add up to one, its mean contact potential is
    a weighted average: it lies between any two bounds of the contact
    potentials of the n symbols. *)
Theorem mean_contact_potential_bounds (ContactPotential : nat -> nat -> Q) (lo hi : Q)
  (prof_2D : list (list (list (list npfloat)))) (i j : nat) :
  let n := shape2 prof_2D in
  let block := nth j (nth i prof_2D []) [] in
  (forall a b, (a < n)%nat -> (b < n)%nat -> lo <= ContactPotential a b <= hi) ->
  (i < length prof_2D)%nat ->
  (j < length (nth i prof_2D []))%nat ->
  square n block ->
  Forall (Forall (fun x => fin_nonneg x = true)) block ->
  exactly_one (concat block) ->
  exists q,
    nth j (nth i (mean_contact_potential ContactPotential prof_2D) []) [] = [Finite q] /\
    lo <= q <= hi.
Proof.
  intros n block Hcp Hi Hj [Hlb Hrb] Hnn [t [Ht H1]].
  unfold mean_contact_potential. fold n.
  set (cp := map (fun a => map (fun b => Finite (ContactPotential a b)) (seq 0 n)) (seq 0 n)).
  rewrite (nth_map_in _ _ [] [] Hi), (nth_map_in _ _ [] [] Hj). fold block.
  assert (Rcp : rectangular n cp).
  { unfold rectangular, cp. apply Forall_forall. intros row Hrow.
    apply in_map_iff in Hrow. destruct Hrow as [a [<- _]].
    now rewrite length_map, length_seq. }
  rewrite (concat_mat_map2 Np.mul Hrb Rcp).
  destruct (@weighted_sum_bounds lo hi (concat block) (concat cp)) as [s [t' [Hs [Ht' Hb]]]].
  - rewrite (concat_length_rectangular Hrb), (concat_length_rectangular Rcp).
    unfold cp. now rewrite length_map, length_seq, Hlb.
  - now apply Forall_concat.
  - apply Forall_concat. unfold cp. apply Forall_forall. intros row Hrow.
    apply in_map_iff in Hrow. destruct Hrow as [a [<- Ha]]. apply in_seq in Ha.
    apply Forall_forall. intros c Hc. apply in_map_iff in Hc.
    destruct Hc as [b [<- Hb]]. apply in_seq in Hb.
    eexists. split; [reflexivity|]. apply Hcp; lia.
  - rewrite Hs. exists s. split; [reflexivity|].
    rewrite Ht in Ht'. injection Ht' as <-.
    rewrite H1, !Qmult_1_r in Hb. exact Hb.
Qed.

Lemma mean_contact_potential_bounds_witness :
  let cp := fun a b : nat => inject_Z (Z.of_nat (a + 2 * b)) in
  let prof_2D := [[[[Finite 0.5; Finite 0.5]; [Finite 0; Finite 0]];
                   [[Finite 0; Finite 0]; [Finite 0; Finite 1]]]] in
  exists q, nth 1 (nth 0 (mean_contact_potential cp prof_2D) []) [] = [Finite q] /\
            0 <= q <= 3.
Proof.
  intros cp prof_2D.
  apply (@mean_contact_potential_bounds cp 0 3 prof_2D 0 1).
  - intros a b Ha Hb. simpl in Ha, Hb. unfold cp.
    split.
    + change 0 with (inject_Z 0). rewrite <- Zle_Qle. lia.
    + change 3 with (inject_Z 3). rewrite <- Zle_Qle. lia.
  - simpl. lia.
  - simpl. lia.
  - split; [reflexivity | repeat constructor].
  - repeat constructor.
  - eexists. split; reflexivity.
Defined.
